(** * The ImageElements gatherer of Lighthouse, embedded in Rocq

    Source: [lighthouse-core/gather/gatherers/image-elements.js].

    The development follows the file top to bottom: the in-page scan
    ([getHTMLImages], [getCSSImages]), the cascade helpers
    ([findSizeDeclaration], [getEffectiveSizingRule]), the two resolvers of
    the gatherer class ([fetchElementWithSizeInformation],
    [fetchSourceRules]) and the pass itself ([afterPass]).

    JavaScript strings are modelled as [string] (bytes of their UTF-8
    encoding), [undefined] as [None], [null] by a constructor of its own
    where the source tells the two apart, integral numbers as [Z], [NaN] as
    a missing number, and the object used as a URL index and the [Map] used
    as a cache as [gmap string _]. An async function is a function from the
    state of the pass to a settled promise and a state; every call to the
    driver is logged in that state. *)

From Stdlib Require Import ZArith QArith Ascii.
From stdpp Require Import base option strings list gmap sorting.

Local Open Scope Z_scope.

(** ** Strings and the regular expressions of the source *)

Module Str.

(** [strip_prefix p s] is the rest of [s] after its prefix [p], if [p] is
    a prefix of [s]: a literal pattern matched at a given position. *)
Fixpoint strip_prefix (p s : string) : option string :=
  match p, s with
  | EmptyString, _ => Some s
  | String a p', String b s' => if Ascii.eqb a b then strip_prefix p' s' else None
  | String _ _, EmptyString => None
  end.

(** The anchored literal patterns [/^.../]. *)
Definition starts_with (p s : string) : bool :=
  match strip_prefix p s with Some _ => true | None => false end.

(** The anchored literal patterns [/...$/]: [p] matches at some position
    and the match ends where [s] ends. *)
Fixpoint ends_with (p s : string) : bool :=
  if String.eqb s p then true
  else match s with
       | EmptyString => false
       | String _ s' => ends_with p s'
       end.

(** Canonicalisation under the [i] flag, restricted to ASCII: without the
    [u] flag a non-ASCII character never matches an ASCII one. *)
Definition lower_ascii (c : ascii) : ascii :=
  let n := nat_of_ascii c in
  if ((65 <=? n)%nat && (n <=? 90)%nat)%bool then ascii_of_nat (n + 32) else c.

Fixpoint lower (s : string) : string :=
  match s with
  | EmptyString => EmptyString
  | String c s' => String (lower_ascii c) (lower s')
  end.

(** JavaScript truthiness of a string: every string but the empty one. *)
Definition truthy (s : string) : bool :=
  match s with EmptyString => false | String _ _ => true end.

(** Line terminators, which [.] does not match: LF, CR, and U+2028 and
    U+2029 (in UTF-8 the bytes E2 80 A8 and E2 80 A9). *)
Definition line_terminator_at (s : string) : bool :=
  match s with
  | String c rest =>
      let n := nat_of_ascii c in
      if ((n =? 10)%nat || (n =? 13)%nat)%bool then true
      else if (n =? 226)%nat then
        match rest with
        | String c1 (String c2 _) =>
            ((nat_of_ascii c1 =? 128)%nat &&
             ((nat_of_ascii c2 =? 168)%nat || (nat_of_ascii c2 =? 169)%nat))%bool
        | _ => false
        end
      else false
  | EmptyString => false
  end.

(** [.*lit] matched at the start of [s]: some run of characters that are
    not line terminators, then the literal. *)
Fixpoint dotstar_then (lit s : string) : bool :=
  if starts_with lit s then true
  else match s with
       | EmptyString => false
       | String _ s' => if line_terminator_at s then false else dotstar_then lit s'
       end.

(** [/pre.*post/.test(s)] for literals [pre] and [post]: unanchored. *)
Fixpoint find_then_dotstar (pre post s : string) : bool :=
  match strip_prefix pre s with
  | Some rest =>
      if dotstar_then post rest then true
      else match s with
           | EmptyString => false
           | String _ s' => find_then_dotstar pre post s'
           end
  | None =>
      match s with
      | EmptyString => false
      | String _ s' => find_then_dotstar pre post s'
      end
  end.

End Str.

(** [/^image/.test(mimeType)] *)
Definition test_image (mimeType : string) : bool :=
  Str.starts_with "image" mimeType.

(** [/\.(avif|webp)$/i.test(url)] *)
Definition test_avif_webp (url : string) : bool :=
  Str.ends_with ".avif" (Str.lower url) || Str.ends_with ".webp" (Str.lower url).

(** [/No node.*found/.test(message)] *)
Definition test_No_node_found (message : string) : bool :=
  Str.find_then_dotstar "No node" "found" message.

(** The double quote. *)
Definition dquote : ascii := ascii_of_nat 34.

(** The text up to the first double quote, and the text after it. *)
Fixpoint until_dquote (s : string) : option (string * string) :=
  match s with
  | EmptyString => None
  | String c s' =>
      if Ascii.eqb c dquote then Some (EmptyString, s')
      else match until_dquote s' with
           | Some (u, rest) => Some (String c u, rest)
           | None => None
           end
  end.

(** [CSS_URL_REGEX]: the literal [url(], a double quote, one or more
    characters that are not double quotes (the capture group), a double
    quote and [)], anchored at both ends. [match_CSS_URL_REGEX s] is the
    capture group when [s] matches. The first quote after the opening one
    has to be the closing one, since the group excludes quotes. *)
Definition match_CSS_URL_REGEX (s : string) : option string :=
  match Str.strip_prefix (String.append "url(" (String dquote EmptyString)) s with
  | Some body =>
      match until_dquote body with
      | Some (u, rest) =>
          if Str.truthy u && String.eqb rest ")" then Some u else None
      | None => None
      end
  | None => None
  end.

(** ** Network records and their index *)

(** The fields of [LH.Artifacts.NetworkRequest] that the gatherer reads. *)
Module NetworkRequest.
Record t := {
  url : string;
  mimeType : string;
  finished : bool;
  statusCode : Z;
  resourceSize : Z;
}.
End NetworkRequest.

(** One step of the [reduce] of [afterPass] (lines 292-303). The keys of
    the index are URLs of network records, and it is read at the [src] of
    elements. *)
Definition indexRecord (map : gmap string NetworkRequest.t) (record : NetworkRequest.t)
  : gmap string NetworkRequest.t :=
  let isImage := test_image (NetworkRequest.mimeType record)
                 || test_avif_webp (NetworkRequest.url record) in
  if isImage && NetworkRequest.finished record && (NetworkRequest.statusCode record =? 200)
  then <[NetworkRequest.url record := record]> map
  else map.

Definition indexNetworkRecords (networkRecords : list NetworkRequest.t)
  : gmap string NetworkRequest.t :=
  fold_left indexRecord networkRecords ∅.

(** ** The artifact: [LH.Artifacts.ImageElement] *)

Module ClientRect.
Record t := { top : Q; bottom : Q; left : Q; right : Q }.
End ClientRect.

(** What [getNodeDetails] returns, as far as the gatherer reads it. *)
Record NodeDetails := { devtoolsNodePath : string }.

(** A value that may be [null], as opposed to [undefined] ([None]). *)
Inductive OrNull (A : Type) :=
| null
| notNull (a : A).
Arguments null {A}.
Arguments notNull {A} a.

(** The object literal [{width, height}] of [fetchSourceRules]. *)
Record CssSizing := { width : OrNull string; height : OrNull string }.

Module ImageElement.
Record t := {
  src : string;
  srcset : string;
  displayedWidth : Z;
  displayedHeight : Z;
  clientRect : ClientRect.t;
  naturalWidth : option Z;
  naturalHeight : option Z;
  attributeWidth : string;
  attributeHeight : string;
  cssWidth : option string;
  cssHeight : option string;
  _privateCssSizing : option CssSizing;
  cssComputedPosition : string;
  isCss : bool;
  isPicture : bool;
  loading : option string;
  cssComputedObjectFit : string;
  cssComputedImageRendering : string;
  isInShadowDOM : bool;
  node : NodeDetails;
  mimeType : option string;
}.

(** [element.mimeType = v] *)
Definition set_mimeType (v : option string) (e : t) : t :=
  {| src := src e; srcset := srcset e; displayedWidth := displayedWidth e;
     displayedHeight := displayedHeight e; clientRect := clientRect e;
     naturalWidth := naturalWidth e; naturalHeight := naturalHeight e;
     attributeWidth := attributeWidth e; attributeHeight := attributeHeight e;
     cssWidth := cssWidth e; cssHeight := cssHeight e;
     _privateCssSizing := _privateCssSizing e;
     cssComputedPosition := cssComputedPosition e; isCss := isCss e;
     isPicture := isPicture e; loading := loading e;
     cssComputedObjectFit := cssComputedObjectFit e;
     cssComputedImageRendering := cssComputedImageRendering e;
     isInShadowDOM := isInShadowDOM e; node := node e; mimeType := v |}.

(** [Object.assign(element, {naturalWidth, naturalHeight})] *)
Definition assign_size (w h : Z) (e : t) : t :=
  {| src := src e; srcset := srcset e; displayedWidth := displayedWidth e;
     displayedHeight := displayedHeight e; clientRect := clientRect e;
     naturalWidth := Some w; naturalHeight := Some h;
     attributeWidth := attributeWidth e; attributeHeight := attributeHeight e;
     cssWidth := cssWidth e; cssHeight := cssHeight e;
     _privateCssSizing := _privateCssSizing e;
     cssComputedPosition := cssComputedPosition e; isCss := isCss e;
     isPicture := isPicture e; loading := loading e;
     cssComputedObjectFit := cssComputedObjectFit e;
     cssComputedImageRendering := cssComputedImageRendering e;
     isInShadowDOM := isInShadowDOM e; node := node e; mimeType := mimeType e |}.

(** The three assignments that end the [try] block of [fetchSourceRules]. *)
Definition set_css (w h : option string) (sizing : CssSizing) (e : t) : t :=
  {| src := src e; srcset := srcset e; displayedWidth := displayedWidth e;
     displayedHeight := displayedHeight e; clientRect := clientRect e;
     naturalWidth := naturalWidth e; naturalHeight := naturalHeight e;
     attributeWidth := attributeWidth e; attributeHeight := attributeHeight e;
     cssWidth := w; cssHeight := h;
     _privateCssSizing := Some sizing;
     cssComputedPosition := cssComputedPosition e; isCss := isCss e;
     isPicture := isPicture e; loading := loading e;
     cssComputedObjectFit := cssComputedObjectFit e;
     cssComputedImageRendering := cssComputedImageRendering e;
     isInShadowDOM := isInShadowDOM e; node := node e; mimeType := mimeType e |}.
End ImageElement.

(** ** The page: what the in-page functions read from the DOM *)

Module Dom.

(** The values [getPropertyValue] is asked for, and [backgroundImage]. *)
Record CSSStyleDeclaration := {
  position : string;
  objectFit : string;
  imageRendering : string;
  backgroundImage : string;
}.

Record ParentElement := {
  tagName : string;
  parentComputedStyle : CSSStyleDeclaration;
}.

(** An element of the document. The fields after [clientHeight] are those
    of [HTMLImageElement] and are read for [img] elements only. *)
Record Element := {
  localName : string;
  parentElement : option ParentElement;
  computedStyle : CSSStyleDeclaration;
  boundingClientRect : ClientRect.t;
  inShadowRoot : bool;
  nodeDetails : NodeDetails;
  attributes : gmap string string;
  clientWidth : Z;
  clientHeight : Z;
  currentSrc : string;
  srcset : string;
  width : Z;
  height : Z;
  naturalWidth : Z;
  naturalHeight : Z;
  loading : string;
}.

Definition getAttribute (element : Element) (name : string) : option string :=
  attributes element !! name.

End Dom.

Definition getClientRect (element : Dom.Element) : ClientRect.t :=
  let clientRect := Dom.boundingClientRect element in
  {| ClientRect.top := ClientRect.top clientRect;
     ClientRect.bottom := ClientRect.bottom clientRect;
     ClientRect.left := ClientRect.left clientRect;
     ClientRect.right := ClientRect.right clientRect |}.

Definition parentIsPicture (element : Dom.Element) : bool :=
  match Dom.parentElement element with
  | Some parent => String.eqb (Dom.tagName parent) "PICTURE"
  | None => false
  end.

Definition getPosition (element : Dom.Element) (computedStyle : Dom.CSSStyleDeclaration)
  : string :=
  match Dom.parentElement element with
  | Some parent =>
      if String.eqb (Dom.tagName parent) "PICTURE"
      then Dom.position (Dom.parentComputedStyle parent)
      else Dom.position computedStyle
  | None => Dom.position computedStyle
  end.

(** [v || ''] for an attribute value. *)
Definition or_empty (v : option string) : string :=
  match v with
  | Some s => if Str.truthy s then s else ""
  | None => ""
  end.

(** The object literal built for one [img] element (lines 60-89). *)
Definition htmlImage (element : Dom.Element) : ImageElement.t :=
  let computedStyle := Dom.computedStyle element in
  let isPicture := parentIsPicture element in
  let canTrustNaturalDimensions := negb isPicture && negb (Str.truthy (Dom.srcset element)) in
  {| ImageElement.src := Dom.currentSrc element;
     ImageElement.srcset := Dom.srcset element;
     ImageElement.displayedWidth := Dom.width element;
     ImageElement.displayedHeight := Dom.height element;
     ImageElement.clientRect := getClientRect element;
     ImageElement.naturalWidth :=
       if canTrustNaturalDimensions then Some (Dom.naturalWidth element) else None;
     ImageElement.naturalHeight :=
       if canTrustNaturalDimensions then Some (Dom.naturalHeight element) else None;
     ImageElement.attributeWidth := or_empty (Dom.getAttribute element "width");
     ImageElement.attributeHeight := or_empty (Dom.getAttribute element "height");
     ImageElement.cssWidth := None;
     ImageElement.cssHeight := None;
     ImageElement._privateCssSizing := None;
     ImageElement.cssComputedPosition := getPosition element computedStyle;
     ImageElement.isCss := false;
     ImageElement.isPicture := isPicture;
     ImageElement.loading := Some (Dom.loading element);
     ImageElement.cssComputedObjectFit := Dom.objectFit computedStyle;
     ImageElement.cssComputedImageRendering := Dom.imageRendering computedStyle;
     ImageElement.isInShadowDOM := Dom.inShadowRoot element;
     ImageElement.node := Dom.nodeDetails element;
     ImageElement.mimeType := None |}.

Definition getHTMLImages (allElements : list Dom.Element) : list ImageElement.t :=
  let allImageElements :=
    List.filter (fun element => String.eqb (Dom.localName element) "img") allElements in
  List.map htmlImage allImageElements.

(** The object literal pushed for one element with a background image
    (lines 115-134). *)
Definition cssImage (element : Dom.Element) (url : string) : ImageElement.t :=
  let style := Dom.computedStyle element in
  {| ImageElement.src := url;
     ImageElement.srcset := "";
     ImageElement.displayedWidth := Dom.clientWidth element;
     ImageElement.displayedHeight := Dom.clientHeight element;
     ImageElement.clientRect := getClientRect element;
     ImageElement.naturalWidth := None;
     ImageElement.naturalHeight := None;
     ImageElement.attributeWidth := "";
     ImageElement.attributeHeight := "";
     ImageElement.cssWidth := None;
     ImageElement.cssHeight := None;
     ImageElement._privateCssSizing := None;
     ImageElement.cssComputedPosition := getPosition element style;
     ImageElement.isCss := true;
     ImageElement.isPicture := false;
     ImageElement.loading := None;
     ImageElement.cssComputedObjectFit := "";
     ImageElement.cssComputedImageRendering := Dom.imageRendering style;
     ImageElement.isInShadowDOM := Dom.inShadowRoot element;
     ImageElement.node := Dom.nodeDetails element;
     ImageElement.mimeType := None |}.

Fixpoint getCSSImages (allElements : list Dom.Element) : list ImageElement.t :=
  match allElements with
  | [] => []
  | element :: rest =>
      match match_CSS_URL_REGEX (Dom.backgroundImage (Dom.computedStyle element)) with
      | Some url => cssImage element url :: getCSSImages rest
      | None => getCSSImages rest
      end
  end.

(** [allElements] stands for the result of [getElementsInDocument()]. *)
Definition collectImageElementInfo (allElements : list Dom.Element) : list ImageElement.t :=
  getHTMLImages allElements ++ getCSSImages allElements.

(** ** Matched styles, as the protocol returns them ([LH.Crdp.CSS]) *)

Module Crdp.

Record CSSProperty := { name : string; value : string }.

(** [Partial<Pick<CSSStyle, 'cssProperties'>>]: the list may be missing. *)
Record CSSStyle := { cssProperties : option (list CSSProperty) }.

Record CSSRule := {
  selectors : list string;
  origin : string;
  style : CSSStyle;
}.

Record RuleMatch := { rule : CSSRule; matchingSelectors : list Z }.

Record GetMatchedStylesForNodeResponse := {
  inlineStyle : option CSSStyle;
  attributesStyle : option CSSStyle;
  matchedCSSRules : option (list RuleMatch);
}.

End Crdp.

(** The selector-specificity comparator, which lives outside the gatherer:
    a larger value is a more specific match. *)
Class SelectorSpecificity := specificityOf : Crdp.RuleMatch -> Z.

(** Truthiness of [string | undefined]. *)
Definition truthy_opt (v : option string) : bool :=
  match v with Some s => Str.truthy s | None => false end.

Definition findSizeDeclaration (rule : option Crdp.CSSStyle) (property : string)
  : option string :=
  match rule with
  | None => None
  | Some r =>
      match Crdp.cssProperties r with
      | None => None
      | Some props =>
          match List.find (fun p => String.eqb (Crdp.name p) property) props with
          | None => None
          | Some definedProp => Some (Crdp.value definedProp)
          end
      end
  end.

Module FontSize.

(** Modelled from the spec: [FontSize.findMostSpecificMatchedCSSRule] of
    [seo/font-size.js], which is not part of the sources at hand. Among the
    matched rules whose style is of interest it returns the style of the
    most specific one, the later rule winning a tie; [undefined] when no
    rule is of interest or the list is missing. *)
Definition findMostSpecificMatchedCSSRule `{SelectorSpecificity}
    (matchedCSSRules : option (list Crdp.RuleMatch))
    (isDeclarationOfInterest : Crdp.CSSStyle -> bool) : option Crdp.CSSStyle :=
  let keep best m :=
    if isDeclarationOfInterest (Crdp.style (Crdp.rule m)) then
      match best with
      | None => Some m
      | Some b => if specificityOf b <=? specificityOf m then Some m else Some b
      end
    else best in
  match fold_left keep (default [] matchedCSSRules) None with
  | Some m => Some (Crdp.style (Crdp.rule m))
  | None => None
  end.

End FontSize.

Definition findMostSpecificCSSRule `{SelectorSpecificity}
    (matchedCSSRules : option (list Crdp.RuleMatch)) (property : string) : option string :=
  let isDeclarationofInterest declaration :=
    truthy_opt (findSizeDeclaration (Some declaration) property) in
  match FontSize.findMostSpecificMatchedCSSRule matchedCSSRules isDeclarationofInterest with
  | None => None
  | Some rule => findSizeDeclaration (Some rule) property
  end.

(** [if (v) return v;]: the value returned when [v] is truthy. *)
Definition returned_if_truthy (v : option string) : option string :=
  match v with
  | Some s => if Str.truthy s then Some s else None
  | None => None
  end.

(** Lines 207-222. *)
Definition getEffectiveSizingRule `{SelectorSpecificity}
    (matched : Crdp.GetMatchedStylesForNodeResponse) (property : string) : OrNull string :=
  let inlineRule := findSizeDeclaration (Crdp.inlineStyle matched) property in
  match returned_if_truthy inlineRule with
  | Some v => notNull v
  | None =>
      let attributeRule := findSizeDeclaration (Crdp.attributesStyle matched) property in
      match returned_if_truthy attributeRule with
      | Some v => notNull v
      | None =>
          let matchedRule :=
            findMostSpecificCSSRule (Crdp.matchedCSSRules matched) property in
          match returned_if_truthy matchedRule with
          | Some v => notNull v
          | None => null
          end
      end
  end.

(** ** The driver, and the pass as a computation over it *)

Record JsError := { message : string }.

(** A settled promise. *)
Inductive Settled (A : Type) :=
| Resolved (a : A)
| Rejected (err : JsError).
Arguments Resolved {A} a.
Arguments Rejected {A} err.

(** What the gatherer asks of the driver, in the order it asks. *)
Inductive ProtocolCall :=
| Evaluate_collectImageElementInfo
| DOM_enable
| CSS_enable
| DOM_getDocument
| DOM_pushNodeByPathToFrontend (path : string)
| CSS_getMatchedStylesForNode (nodeId : Z)
| SetNextProtocolTimeout (ms : Z)
| Evaluate_determineNaturalSize (url : string)
| DOM_disable
| CSS_disable.

Record NaturalSize := { naturalWidth : Z; naturalHeight : Z }.

(** The browser behind the driver: a state [B] and, for each kind of call,
    how it settles and what state it leaves. [command] answers the calls
    whose result the gatherer ignores; [elementsInDocument] is what the
    page hands to [collectImageElementInfo]. *)
Class Driver (B : Type) := {
  command : ProtocolCall -> B -> Settled unit * B;
  elementsInDocument : B -> Settled (list Dom.Element) * B;
  pushNodeByPathToFrontend : string -> B -> Settled Z * B;
  getMatchedStylesForNode : Z -> B -> Settled Crdp.GetMatchedStylesForNodeResponse * B;
  determineNaturalSize : string -> B -> Settled NaturalSize * B;
}.

(** [log.warn]: the two counts of the budget message. *)
Record Warning := { skipped : nat; total : nat }.

(** What a pass can change: the browser, the calls issued so far (oldest
    first), the gatherer's [_naturalSizeCache] and the warnings logged. *)
Record PassState (B : Type) := {
  browser : B;
  calls : list ProtocolCall;
  _naturalSizeCache : gmap string NaturalSize;
  warnings : list Warning;
}.
Arguments browser {B} _.
Arguments calls {B} _.
Arguments _naturalSizeCache {B} _.
Arguments warnings {B} _.

(** An async function of the gatherer: it runs from a state and either
    returns or throws, leaving a state. *)
Definition Async (B A : Type) : Type := PassState B -> Settled A * PassState B.

Definition async_ret {B A} (a : A) : Async B A := fun s => (Resolved a, s).

Definition async_bind {B A C} (f : A -> Async B C) (m : Async B A) : Async B C :=
  fun s => match m s with
           | (Resolved a, s') => f a s'
           | (Rejected err, s') => (Rejected err, s')
           end.

#[export] Instance Async_ret B : MRet (Async B) := @async_ret B.
#[export] Instance Async_bind B : MBind (Async B) := @async_bind B.

Definition throw {B A} (err : JsError) : Async B A := fun s => (Rejected err, s).

(** [try { body } catch (err) { handler }] *)
Definition try_catch {B A} (body : Async B A) (handler : JsError -> Async B A) : Async B A :=
  fun s => match body s with
           | (Resolved a, s') => (Resolved a, s')
           | (Rejected err, s') => handler err s'
           end.

(** Issue one call: it is recorded, and the browser settles it. *)
Definition issue {B A} (call : ProtocolCall) (respond : B -> Settled A * B) : Async B A :=
  fun s =>
    let (r, b) := respond (browser s) in
    (r, {| browser := b; calls := calls s ++ [call];
           _naturalSizeCache := _naturalSizeCache s; warnings := warnings s |}).

Definition sendCommand `{Driver B} (call : ProtocolCall) : Async B unit :=
  issue call (command call).

(** [await Promise.all([c1, ..., cn])] over [sendCommand]s: all are sent, in
    order, and the await throws if one of them was rejected. *)
Fixpoint sendAll `{Driver B} (cs : list ProtocolCall) : Async B unit :=
  match cs with
  | [] => async_ret tt
  | c :: rest =>
      fun s => match sendCommand c s with
               | (Resolved _, s') => sendAll rest s'
               | (Rejected err, s') => (Rejected err, snd (sendAll rest s'))
               end
  end.

Definition cacheSet {B} (url : string) (size : NaturalSize) : Async B unit :=
  fun s => (Resolved tt,
            {| browser := browser s; calls := calls s;
               _naturalSizeCache := <[url := size]> (_naturalSizeCache s);
               warnings := warnings s |}).

Definition cacheGet {B} (url : string) : Async B (option NaturalSize) :=
  fun s => (Resolved (_naturalSizeCache s !! url), s).

Definition log_warn {B} (w : Warning) : Async B unit :=
  fun s => (Resolved tt,
            {| browser := browser s; calls := calls s;
               _naturalSizeCache := _naturalSizeCache s;
               warnings := warnings s ++ [w] |}).

Definition assign (size : NaturalSize) (element : ImageElement.t) : ImageElement.t :=
  ImageElement.assign_size (naturalWidth size) (naturalHeight size) element.

(** Lines 235-253. The cache is consulted, and the probe follows whether
    or not the URL was found there. *)
Definition fetchElementWithSizeInformation `{Driver B} (element : ImageElement.t)
  : Async B ImageElement.t :=
  let url := ImageElement.src element in
  cached ← cacheGet url;
  let element :=
    match cached with
    | Some size => assign size element
    | None => element
    end in
  try_catch
    (_ ← issue (SetNextProtocolTimeout 250) (fun b => (Resolved tt, b));
     size ← issue (Evaluate_determineNaturalSize url) (determineNaturalSize url);
     _ ← cacheSet url size;
     mret (assign size element))
    (fun _ => mret element).

(** [v === null ? undefined : v] *)
Definition null_to_undefined (v : OrNull string) : option string :=
  match v with
  | null => None
  | notNull s => Some s
  end.

(** Lines 263-283. *)
Definition fetchSourceRules `{SelectorSpecificity} `{Driver B}
    (devtoolsNodePath : string) (element : ImageElement.t) : Async B ImageElement.t :=
  try_catch
    (nodeId ← issue (DOM_pushNodeByPathToFrontend devtoolsNodePath)
                    (pushNodeByPathToFrontend devtoolsNodePath);
     if nodeId =? 0 then mret element else
     matchedRules ← issue (CSS_getMatchedStylesForNode nodeId)
                          (getMatchedStylesForNode nodeId);
     let width := getEffectiveSizingRule matchedRules "width" in
     let height := getEffectiveSizingRule matchedRules "height" in
     mret (ImageElement.set_css (null_to_undefined width) (null_to_undefined height)
             {| width := width; height := height |} element))
    (fun err =>
       if test_No_node_found (message err) then mret element else throw err).

(** ** Sorting *)

(** [indexedNetworkRecords[src] || {}]: the record, or the empty object. *)
Inductive RecordOrEmpty :=
| Found (record : NetworkRequest.t)
| EmptyObject.

Definition lookupOrEmpty (indexedNetworkRecords : gmap string NetworkRequest.t)
    (src : string) : RecordOrEmpty :=
  match indexedNetworkRecords !! src with
  | Some record => Found record
  | None => EmptyObject
  end.

(** [o.resourceSize]: [undefined] on the empty object. *)
Definition resourceSizeOf (o : RecordOrEmpty) : option Z :=
  match o with
  | Found record => Some (NetworkRequest.resourceSize record)
  | EmptyObject => None
  end.

(** [o.mimeType]: [undefined] on the empty object. *)
Definition mimeTypeOf (o : RecordOrEmpty) : option string :=
  match o with
  | Found record => Some (NetworkRequest.mimeType record)
  | EmptyObject => None
  end.

(** An object in a boolean position: true, the empty object included. *)
Definition truthy_object (o : RecordOrEmpty) : bool :=
  match o with
  | Found _ => true
  | EmptyObject => true
  end.

(** [x - y] on numbers that may be [undefined]: [None] is [NaN]. *)
Definition js_minus (x y : option Z) : option Z :=
  match x, y with
  | Some a, Some b => Some (a - b)
  | _, _ => None
  end.

(** The comparator handed to [sort] (lines 325-329). *)
Definition compareElements (indexedNetworkRecords : gmap string NetworkRequest.t)
    (a b : ImageElement.t) : option Z :=
  let aRecord := lookupOrEmpty indexedNetworkRecords (ImageElement.src a) in
  let bRecord := lookupOrEmpty indexedNetworkRecords (ImageElement.src b) in
  js_minus (resourceSizeOf bRecord) (resourceSizeOf aRecord).

(** [Array.prototype.sort] reads a [NaN] from the comparator as [+0]. *)
Definition sortCompare {A} (comparefn : A -> A -> option Z) (x y : A) : Z :=
  default 0 (comparefn x y).

(** Insertion of [pivot] into a sorted run kept last element first: it
    moves towards the front past every element it compares below. *)
Fixpoint insertPivot {A} (comparefn : A -> A -> option Z) (pivot : A) (run : list A)
  : list A :=
  match run with
  | [] => [pivot]
  | y :: rest =>
      if sortCompare comparefn pivot y <? 0
      then y :: insertPivot comparefn pivot rest
      else pivot :: y :: rest
  end.

(** [Array.prototype.sort] as a stable insertion sort. The language fixes
    the result for a comparator that is a consistent ordering of the
    array's elements (the sort is stable); for any other comparator the
    order depends on the engine, and this is the order of an insertion
    sort, which an engine need not share. What depends on the order of the
    sort for such a comparator is stated over [afterPassSortedBy] below,
    for every sort. *)
Definition Array_sort {A} (comparefn : A -> A -> option Z) (array : list A) : list A :=
  List.rev (fold_left (fun run pivot => insertPivot comparefn pivot run) array []).

(** ** The pass *)

Section AfterPass.
Context `{SelectorSpecificity} `{Driver B}.

(** [budget] stands for the timer: the number of loop iterations that
    begin before its callback has set [reachedGatheringBudget]. The flag is
    read at the start of iteration [i] (from 0) and once after the loop. *)
Definition reachedGatheringBudget (budget i : nat) : bool := (budget <=? i)%nat.

(** The part of the loop body below the budget check (lines 346-355). *)
Definition enrich (networkRecord : RecordOrEmpty) (element : ImageElement.t)
  : Async B ImageElement.t :=
  element ←
    (if negb (ImageElement.isInShadowDOM element) && negb (ImageElement.isCss element)
     then fetchSourceRules (devtoolsNodePath (ImageElement.node element)) element
     else mret element);
  if (ImageElement.isPicture element || ImageElement.isCss element
      || Str.truthy (ImageElement.srcset element))
     && truthy_object networkRecord
  then fetchElementWithSizeInformation element
  else mret element.

(** The [for] loop (lines 336-356), from iteration [i] on: the elements
    as the loop leaves them, and [skippedCount]. *)
Fixpoint enrichLoop (indexedNetworkRecords : gmap string NetworkRequest.t)
    (budget i : nat) (skippedCount : nat) (elements : list ImageElement.t)
  : Async B (list ImageElement.t * nat) :=
  match elements with
  | [] => mret ([], skippedCount)
  | element :: rest =>
      let networkRecord := lookupOrEmpty indexedNetworkRecords (ImageElement.src element) in
      let element := ImageElement.set_mimeType (mimeTypeOf networkRecord) element in
      if reachedGatheringBudget budget i then
        r ← enrichLoop indexedNetworkRecords budget (S i) (S skippedCount) rest;
        mret (element :: r.1, r.2)
      else
        element ← enrich networkRecord element;
        r ← enrichLoop indexedNetworkRecords budget (S i) skippedCount rest;
        mret (element :: r.1, r.2)
  end.

(** Lines 290-368. [networkRecords] is [loadData.networkRecords]. *)
Definition afterPass (budget : nat) (networkRecords : list NetworkRequest.t)
  : Async B (list ImageElement.t) :=
  let indexedNetworkRecords := indexNetworkRecords networkRecords in
  allElements ← issue Evaluate_collectImageElementInfo elementsInDocument;
  let elements := collectImageElementInfo allElements in
  _ ← sendAll [DOM_enable; CSS_enable; DOM_getDocument];
  let elements := Array_sort (compareElements indexedNetworkRecords) elements in
  r ← enrichLoop indexedNetworkRecords budget 0 0 elements;
  _ ← (if reachedGatheringBudget budget (length elements)
       then log_warn {| skipped := r.2; total := length r.1 |}
       else mret tt);
  _ ← sendAll [DOM_disable; CSS_disable];
  mret r.1.

End AfterPass.

(** The state a fresh gatherer starts its pass from. *)
Definition initialState {B} (b : B) : PassState B :=
  {| browser := b; calls := []; _naturalSizeCache := ∅; warnings := [] |}.

(** ** A scripted browser and a small page, for concrete runs *)

Module Examples.

(** A browser that answers from fixed tables: the document, node ids by
    path, matched styles by node id, decoded sizes by URL, and the message
    of the protocol error that meets [DOM.pushNodeByPathToFrontend], if
    any. *)
Record Scripted := {
  document : list Dom.Element;
  nodeIds : gmap string Z;
  matchedStyles : gmap Z Crdp.GetMatchedStylesForNodeResponse;
  decoded : gmap string NaturalSize;
  pushError : option string;
}.

Definition scriptedDriver : Driver Scripted := {|
  command := fun _ b => (Resolved tt, b);
  elementsInDocument := fun b => (Resolved (document b), b);
  pushNodeByPathToFrontend := fun path b =>
    match pushError b with
    | Some msg => (Rejected {| message := msg |}, b)
    | None => (Resolved (default 0 (nodeIds b !! path)), b)
    end;
  getMatchedStylesForNode := fun nodeId b =>
    match matchedStyles b !! nodeId with
    | Some m => (Resolved m, b)
    | None => (Rejected {| message := "No node with given id found" |}, b)
    end;
  determineNaturalSize := fun url b =>
    match decoded b !! url with
    | Some size => (Resolved size, b)
    | None => (Rejected {| message := "determineNaturalSize failed img load" |}, b)
    end;
|}.

(** Specificity read off the number of matching selectors. *)
Definition bySelectorCount : SelectorSpecificity :=
  fun m => Z.of_nat (length (Crdp.matchingSelectors m)).

Definition noStyle : Dom.CSSStyleDeclaration :=
  {| Dom.position := "static"; Dom.objectFit := "fill";
     Dom.imageRendering := "auto"; Dom.backgroundImage := "none" |}.

Definition rect0 : ClientRect.t :=
  {| ClientRect.top := 0%Q; ClientRect.bottom := 0%Q;
     ClientRect.left := 0%Q; ClientRect.right := 0%Q |}.

(** An [img] element showing [src], with the given [srcset], parent tag,
    node path and natural size, and [width] and [height] attributes 10. *)
Definition img (src srcset : string) (parentTag : string) (path : string) (nw nh : Z)
  : Dom.Element :=
  {| Dom.localName := "img";
     Dom.parentElement := Some {| Dom.tagName := parentTag; Dom.parentComputedStyle := noStyle |};
     Dom.computedStyle := noStyle;
     Dom.boundingClientRect := rect0;
     Dom.inShadowRoot := false;
     Dom.nodeDetails := {| devtoolsNodePath := path |};
     Dom.attributes := {[ "width" := "10"; "height" := "10" ]};
     Dom.clientWidth := 10; Dom.clientHeight := 10;
     Dom.currentSrc := src; Dom.srcset := srcset;
     Dom.width := 10; Dom.height := 10;
     Dom.naturalWidth := nw; Dom.naturalHeight := nh;
     Dom.loading := "auto" |}.

Definition css_url (u : string) : string :=
  String.append "url(" (String dquote (String.append u (String dquote ")"))).

(** A [div] whose computed background image is [url] in the quoted form. *)
Definition background (url : string) (path : string) : Dom.Element :=
  {| Dom.localName := "div";
     Dom.parentElement := Some {| Dom.tagName := "BODY"; Dom.parentComputedStyle := noStyle |};
     Dom.computedStyle :=
       {| Dom.position := "static"; Dom.objectFit := "fill";
          Dom.imageRendering := "auto"; Dom.backgroundImage := css_url url |};
     Dom.boundingClientRect := rect0;
     Dom.inShadowRoot := false;
     Dom.nodeDetails := {| devtoolsNodePath := path |};
     Dom.attributes := ∅;
     Dom.clientWidth := 300; Dom.clientHeight := 200;
     Dom.currentSrc := ""; Dom.srcset := "";
     Dom.width := 0; Dom.height := 0;
     Dom.naturalWidth := 0; Dom.naturalHeight := 0;
     Dom.loading := "" |}.

Definition a_png : string := "https://example.com/a.png".
Definition b_jpg : string := "https://example.com/b.jpg".
Definition c_gif : string := "https://example.com/c.gif".

Definition record (url mimeType : string) (finished : bool) (statusCode resourceSize : Z)
  : NetworkRequest.t :=
  {| NetworkRequest.url := url; NetworkRequest.mimeType := mimeType;
     NetworkRequest.finished := finished; NetworkRequest.statusCode := statusCode;
     NetworkRequest.resourceSize := resourceSize |}.

Definition record_a : NetworkRequest.t := record a_png "image/png" true 200 500.
Definition record_b : NetworkRequest.t := record b_jpg "image/jpeg" true 200 2000.

(** [c.gif] never shows up in the network records. *)
Definition networkRecords : list NetworkRequest.t := [record_a; record_b].

Definition img_a : Dom.Element := img a_png "" "BODY" "1,HTML,1,BODY,0,IMG" 40 30.
Definition div_b : Dom.Element := background b_jpg "1,HTML,1,BODY,1,DIV".
Definition div_b' : Dom.Element := background b_jpg "1,HTML,1,BODY,2,DIV".
Definition div_c : Dom.Element := background c_gif "1,HTML,1,BODY,3,DIV".

Definition declaration (name value : string) : Crdp.CSSStyle :=
  {| Crdp.cssProperties := Some [ {| Crdp.name := name; Crdp.value := value |} ] |}.

Definition ruleMatch (selector : string) (name value : string) : Crdp.RuleMatch :=
  {| Crdp.rule := {| Crdp.selectors := [selector]; Crdp.origin := "regular";
                     Crdp.style := declaration name value |};
     Crdp.matchingSelectors := [0] |}.

(** Inline [width: 1px], attribute [width: 10px], a rule with [width: 50%]. *)
Definition styles_all : Crdp.GetMatchedStylesForNodeResponse :=
  {| Crdp.inlineStyle := Some (declaration "width" "1px");
     Crdp.attributesStyle := Some (declaration "width" "10px");
     Crdp.matchedCSSRules := Some [ruleMatch "img" "width" "50%"] |}.

(** As [styles_all], but the inline declaration of [width] is empty. *)
Definition styles_empty_inline : Crdp.GetMatchedStylesForNodeResponse :=
  {| Crdp.inlineStyle := Some (declaration "width" "");
     Crdp.attributesStyle := Some (declaration "width" "10px");
     Crdp.matchedCSSRules := Some [ruleMatch "img" "width" "50%"] |}.

Definition page (elements : list Dom.Element) (pushError : option string) : Scripted :=
  {| document := elements;
     nodeIds := {[ "1,HTML,1,BODY,0,IMG" := 7 ]};
     matchedStyles := {[ 7 := styles_all ]};
     decoded := {[ b_jpg := {| naturalWidth := 640; naturalHeight := 480 |};
                   c_gif := {| naturalWidth := 8; naturalHeight := 8 |} ]};
     pushError := pushError |}.

(** The scanned elements of the page above. *)
Definition element_a : ImageElement.t := htmlImage img_a.
Definition element_b : ImageElement.t := cssImage div_b b_jpg.
Definition element_c : ImageElement.t := cssImage div_c c_gif.

Definition run (budget : nat) (b : Scripted)
  : Settled (list ImageElement.t) * PassState Scripted :=
  @afterPass bySelectorCount Scripted scriptedDriver budget networkRecords (initialState b).

End Examples.

(** ** The words of the specification, where a claim compares them with
    the code *)

Module AsClaimed.

(** The path of a URL: what precedes the query and the fragment. *)
Fixpoint url_path (u : string) : string :=
  match u with
  | EmptyString => EmptyString
  | String c u' =>
      if Ascii.eqb c "?"%char || Ascii.eqb c "#"%char then EmptyString
      else String c (url_path u')
  end.

(** A record is eligible when it finished, its status code is exactly 200,
    and its MIME type begins with [image/] or its URL path ends in a known
    image extension. *)
Definition eligible (record : NetworkRequest.t) : bool :=
  NetworkRequest.finished record
  && (NetworkRequest.statusCode record =? 200)
  && (Str.starts_with "image/" (NetworkRequest.mimeType record)
      || test_avif_webp (url_path (NetworkRequest.url record))).

End AsClaimed.

(** The condition under which the code indexes a record, as a proposition:
    it finished with status 200, and its MIME type has the prefix [image]
    or its URL, as a whole, ends in [.avif] or [.webp] in any letter case. *)
Definition Indexable (record : NetworkRequest.t) : Prop :=
  NetworkRequest.finished record = true
  /\ NetworkRequest.statusCode record = 200
  /\ ((exists t, NetworkRequest.mimeType record = "image" +:+ t)
      \/ (exists t e, NetworkRequest.url record = t +:+ e
                      /\ (Str.lower e = ".avif" \/ Str.lower e = ".webp"))).

(** ** The vocabulary of the properties *)

(** The first statement of the loop body: the MIME type of the matching
    record, [undefined] without one. *)
Definition attach (indexedNetworkRecords : gmap string NetworkRequest.t)
    (element : ImageElement.t) : ImageElement.t :=
  ImageElement.set_mimeType
    (mimeTypeOf (lookupOrEmpty indexedNetworkRecords (ImageElement.src element))) element.

(** [elements] after the sort of line 325. *)
Definition sortedElements (networkRecords : list NetworkRequest.t)
    (allElements : list Dom.Element) : list ImageElement.t :=
  Array_sort (compareElements (indexNetworkRecords networkRecords))
    (collectImageElementInfo allElements).

(** The resource size the comparator reads for an element. *)
Definition sizeOf (indexedNetworkRecords : gmap string NetworkRequest.t)
    (element : ImageElement.t) : option Z :=
  resourceSizeOf (lookupOrEmpty indexedNetworkRecords (ImageElement.src element)).

(** The element is a child of a [picture] element. *)
Definition InPicture (element : Dom.Element) : Prop :=
  exists parent,
    Dom.parentElement element = Some parent /\ Dom.tagName parent = "PICTURE".

(** An element as [fetchSourceRules] may leave it: untouched, or with the
    three CSS fields written. *)
Definition css_written (element element' : ImageElement.t) : Prop :=
  element' = element
  \/ exists w h sizing, element' = ImageElement.set_css w h sizing element.

(** An element as [fetchElementWithSizeInformation] may leave it:
    untouched, or with a natural size assigned. *)
Definition size_assigned (element element' : ImageElement.t) : Prop :=
  element' = element
  \/ exists size, element' = assign size element.

(** The calls the loop body can issue. *)
Definition per_element_call (c : ProtocolCall) : Prop :=
  match c with
  | DOM_pushNodeByPathToFrontend _ | CSS_getMatchedStylesForNode _
  | SetNextProtocolTimeout _ | Evaluate_determineNaturalSize _ => True
  | _ => False
  end.

(** The commands that switch the DOM and CSS domains on and off. *)
Definition is_domain_switch (c : ProtocolCall) : bool :=
  match c with
  | DOM_enable | CSS_enable | DOM_disable | CSS_disable => true
  | _ => false
  end.

(** A driver whose only protocol errors are those [fetchSourceRules]
    swallows: the scan and the domain commands resolve, and a rejected node
    lookup or styles query carries a message that [/No node.*found/]
    matches. *)
Definition Dependable (B : Type) `{Driver B} : Prop :=
  (forall c b, (command c b).1 = Resolved tt)
  /\ (forall b, exists allElements, (elementsInDocument b).1 = Resolved allElements)
  /\ (forall path b err,
        (pushNodeByPathToFrontend path b).1 = Rejected err ->
        test_No_node_found (message err) = true)
  /\ (forall nodeId b err,
        (getMatchedStylesForNode nodeId b).1 = Rejected err ->
        test_No_node_found (message err) = true).


(** The style of a matched rule, as [findSizeDeclaration] takes it. *)
Definition styleOf (m : Crdp.RuleMatch) : option Crdp.CSSStyle :=
  Some (Crdp.style (Crdp.rule m)).

(** A style declares [property] with the non-empty value [v]: its first
    declaration of that name has that value. *)
Definition Declares (style : option Crdp.CSSStyle) (property v : string) : Prop :=
  findSizeDeclaration style property = Some v /\ v <> "".

(** A style has no declaration of [property], or its first one is empty. *)
Definition Undeclared (style : option Crdp.CSSStyle) (property : string) : Prop :=
  forall v, findSizeDeclaration style property = Some v -> v = "".

(** ** Further vocabulary *)

(** The serialised form [CSS_URL_REGEX] accepts: [url(], a double quote,
    [u], a double quote, [)]. *)
Definition quoted_url (u : string) : string :=
  "url(" +:+ String dquote (u +:+ String dquote ")").

(** No double quote occurs in [u]. *)
Definition quote_free (u : string) : Prop :=
  forall a b, u <> a +:+ String dquote b.

(** The fields of an element that only the scan writes. *)
Definition same_scanned_fields (e e' : ImageElement.t) : Prop :=
  ImageElement.src e' = ImageElement.src e
  /\ ImageElement.srcset e' = ImageElement.srcset e
  /\ ImageElement.displayedWidth e' = ImageElement.displayedWidth e
  /\ ImageElement.displayedHeight e' = ImageElement.displayedHeight e
  /\ ImageElement.clientRect e' = ImageElement.clientRect e
  /\ ImageElement.attributeWidth e' = ImageElement.attributeWidth e
  /\ ImageElement.attributeHeight e' = ImageElement.attributeHeight e
  /\ ImageElement.cssComputedPosition e' = ImageElement.cssComputedPosition e
  /\ ImageElement.isCss e' = ImageElement.isCss e
  /\ ImageElement.isPicture e' = ImageElement.isPicture e
  /\ ImageElement.loading e' = ImageElement.loading e
  /\ ImageElement.cssComputedObjectFit e' = ImageElement.cssComputedObjectFit e
  /\ ImageElement.cssComputedImageRendering e' = ImageElement.cssComputedImageRendering e
  /\ ImageElement.isInShadowDOM e' = ImageElement.isInShadowDOM e
  /\ ImageElement.node e' = ImageElement.node e.

(** The compatibility fields agree with the sizing pair: both unset
    without a pair, and otherwise the pair's values with [null] read as
    [undefined]. *)
Definition css_consistent (e : ImageElement.t) : Prop :=
  match ImageElement._privateCssSizing e with
  | None => ImageElement.cssWidth e = None /\ ImageElement.cssHeight e = None
  | Some sizing =>
      ImageElement.cssWidth e = null_to_undefined (width sizing)
      /\ ImageElement.cssHeight e = null_to_undefined (height sizing)
  end.

(** The URL of a probe call. *)
Definition probed_url (c : ProtocolCall) : option string :=
  match c with
  | Evaluate_determineNaturalSize url => Some url
  | _ => None
  end.

(** The URLs probed by a list of calls, in order. *)
Definition probes (cs : list ProtocolCall) : list string := omap probed_url cs.

(** The first operand of the test of line 353. *)
Definition wants_probe (e : ImageElement.t) : bool :=
  ImageElement.isPicture e || ImageElement.isCss e || Str.truthy (ImageElement.srcset e).

(** No byte of [s] is a line feed, a carriage return or the lead byte of
    U+2028 and U+2029: the text lies within one line. *)
Fixpoint one_line (s : string) : Prop :=
  match s with
  | EmptyString => True
  | String c s' =>
      nat_of_ascii c <> 10%nat /\ nat_of_ascii c <> 13%nat
      /\ nat_of_ascii c <> 226%nat /\ one_line s'
  end.

(** From cache [c] to cache [c']: no entry is lost, and the entries
    of URLs outside [urls] are the same. *)
Definition cache_grows (urls : list string) (c c' : gmap string NaturalSize) : Prop :=
  (forall u, is_Some (c !! u) -> is_Some (c' !! u))
  /\ (forall u, u ∉ urls -> c' !! u = c !! u).

(** A browser that decodes an image once: its state counts the probes
    it has seen, the first one resolves and every later one is rejected.
    It has an empty document and resolves every other call. *)
Module Flaky.

Definition driver : Driver nat := {|
  command := fun _ n => (Resolved tt, n);
  elementsInDocument := fun n => (Resolved [], n);
  pushNodeByPathToFrontend := fun _ n => (Resolved 0, n);
  getMatchedStylesForNode := fun _ n =>
    (Resolved {| Crdp.inlineStyle := None; Crdp.attributesStyle := None;
                 Crdp.matchedCSSRules := None |}, n);
  determineNaturalSize := fun _ n =>
    match n with
    | O => (Resolved {| naturalWidth := 640; naturalHeight := 480 |}, S n)
    | S _ => (Rejected {| message := "determineNaturalSize failed img load" |}, S n)
    end;
|}.

End Flaky.

(** A browser whose target is closed: every call is rejected. *)
Module Closed.

Definition err : JsError := {| message := "Target closed" |}.

Definition driver : Driver unit := {|
  command := fun _ b => (Rejected err, b);
  elementsInDocument := fun b => (Rejected err, b);
  pushNodeByPathToFrontend := fun _ b => (Rejected err, b);
  getMatchedStylesForNode := fun _ b => (Rejected err, b);
  determineNaturalSize := fun _ b => (Rejected err, b);
|}.

End Closed.

(** ** The pass with the sort left open *)

(** What [elements.sort] is handed and what it gives back. *)
Definition SortFunction : Type :=
  (ImageElement.t -> ImageElement.t -> option Z) ->
  list ImageElement.t -> list ImageElement.t.

(** What a sort does whatever comparator it is handed, a comparator that
    yields [NaN] included: it reorders the array. The order itself is the
    engine's affair once the comparator is not a consistent ordering. *)
Definition Reorders (sort : SortFunction) : Prop :=
  forall comparefn array, sort comparefn array ≡ₚ array.

Section AfterPassSortedBy.
Context `{SelectorSpecificity} `{Driver B}.

(** Lines 290-368 with [sort] standing for [Array.prototype.sort]:
    [afterPass] is the instance at [Array_sort]. *)
Definition afterPassSortedBy (sort : SortFunction) (budget : nat)
    (networkRecords : list NetworkRequest.t) : Async B (list ImageElement.t) :=
  let indexedNetworkRecords := indexNetworkRecords networkRecords in
  allElements ← issue Evaluate_collectImageElementInfo elementsInDocument;
  let elements := collectImageElementInfo allElements in
  _ ← sendAll [DOM_enable; CSS_enable; DOM_getDocument];
  let elements := sort (compareElements indexedNetworkRecords) elements in
  r ← enrichLoop indexedNetworkRecords budget 0 0 elements;
  _ ← (if reachedGatheringBudget budget (length elements)
       then log_warn {| skipped := r.2; total := length r.1 |}
       else mret tt);
  _ ← sendAll [DOM_disable; CSS_disable];
  mret r.1.

End AfterPassSortedBy.

(** The test of line 347. *)
Definition wants_rules (e : ImageElement.t) : bool :=
  negb (ImageElement.isInShadowDOM e) && negb (ImageElement.isCss e).

(** The path of a node lookup. *)
Definition looked_up_path (c : ProtocolCall) : option string :=
  match c with
  | DOM_pushNodeByPathToFrontend path => Some path
  | _ => None
  end.

(** The paths looked up by a list of calls, in order. *)
Definition lookups (cs : list ProtocolCall) : list string := omap looked_up_path cs.

(** Line 347-349 for one element: from [e] in state [s] to [e1] in state
    [s1], through [fetchSourceRules] where the test asks for it. *)
Definition RulesStep `{SelectorSpecificity} `{Driver B}
    (e : ImageElement.t) (s : PassState B) (e1 : ImageElement.t) (s1 : PassState B)
  : Prop :=
  if wants_rules e
  then fetchSourceRules (devtoolsNodePath (ImageElement.node e)) e s = (Resolved e1, s1)
  else e1 = e /\ s1 = s.

(** Line 353-355 for one element: from [e1] in state [s1] to [e'] in state
    [s2], through [fetchElementWithSizeInformation] where the element is a
    picture child, a CSS background or has a [srcset]. *)
Definition ProbeStep `{Driver B}
    (e1 : ImageElement.t) (s1 : PassState B) (e' : ImageElement.t) (s2 : PassState B)
  : Prop :=
  if wants_probe e1
  then fetchElementWithSizeInformation e1 s1 = (Resolved e', s2)
  else e' = e1 /\ s2 = s1.

(** [Enriched indexed elements s out s']: starting in state [s], each of
    [elements] in turn had its MIME type attached and went through the two
    steps above, each step starting in the state the one before left; [out]
    are the elements this gave and [s'] is the state after the last. *)
Inductive Enriched `{SelectorSpecificity} `{Driver B}
    (indexed : gmap string NetworkRequest.t)
  : list ImageElement.t -> PassState B -> list ImageElement.t -> PassState B -> Prop :=
| Enriched_nil s : Enriched indexed [] s [] s
| Enriched_cons element rest s element1 s1 element' s2 out s3 :
    RulesStep (attach indexed element) s element1 s1 ->
    ProbeStep element1 s1 element' s2 ->
    Enriched indexed rest s2 out s3 ->
    Enriched indexed (element :: rest) s (element' :: out) s3.

(** The condition of the index with the extension read off the URL path:
    the record finished with status 200, and its MIME type has the prefix
    [image] or its URL path ends in [.avif] or [.webp] in any letter case. *)
Definition IndexableByPath (record : NetworkRequest.t) : Prop :=
  NetworkRequest.finished record = true
  /\ NetworkRequest.statusCode record = 200
  /\ ((exists t, NetworkRequest.mimeType record = "image" +:+ t)
      \/ (exists t e, AsClaimed.url_path (NetworkRequest.url record) = t +:+ e
                      /\ (Str.lower e = ".avif" \/ Str.lower e = ".webp"))).

(** The URL has neither query nor fragment: it ends with its path. *)
Definition ends_with_path (url : string) : Prop := AsClaimed.url_path url = url.

(** * Properties *)

(** ** Strings *)

Lemma strip_prefix_spec p s r :
  Str.strip_prefix p s = Some r <-> s = p +:+ r.
Proof.
  revert s. induction p as [|a p IH]; intros s; simpl.
  - split; [intros [= ->]; reflexivity | intros ->; reflexivity].
  - destruct s as [|b s]; [split; discriminate|].
    destruct (Ascii.eqb_spec a b) as [->|Hne].
    + rewrite IH. split; [intros ->; reflexivity | intros [= ->]; reflexivity].
    + split; [discriminate | intros [= ? ?]; congruence].
Qed.

Lemma starts_with_spec p s :
  Str.starts_with p s = true <-> exists t, s = p +:+ t.
Proof.
  unfold Str.starts_with.
  destruct (Str.strip_prefix p s) as [r|] eqn:E.
  - apply strip_prefix_spec in E. split; eauto.
  - split; [discriminate|]. intros [t Ht].
    apply strip_prefix_spec in Ht. congruence.
Qed.

Lemma append_nil_l (s : string) : "" +:+ s = s.
Proof. reflexivity. Qed.

Lemma append_cons (c : ascii) (t s : string) : String c t +:+ s = String c (t +:+ s).
Proof. reflexivity. Qed.

Lemma ends_with_unfold p s :
  Str.ends_with p s =
  if String.eqb s p then true
  else match s with
       | EmptyString => false
       | String _ s' => Str.ends_with p s'
       end.
Proof. destruct s; reflexivity. Qed.

Lemma ends_with_spec p s :
  Str.ends_with p s = true <-> exists t, s = t +:+ p.
Proof.
  induction s as [|c s IH]; rewrite ends_with_unfold.
  - destruct (String.eqb_spec "" p) as [<-|Hne].
    + split; [exists ""; reflexivity | reflexivity].
    + split; [discriminate|]. intros [[|? ?] Ht].
      * rewrite append_nil_l in Ht. congruence.
      * rewrite append_cons in Ht. discriminate.
  - destruct (String.eqb_spec (String c s) p) as [<-|Hne].
    + split; [exists ""; reflexivity | reflexivity].
    + rewrite IH. split.
      * intros [t ->]. exists (String c t). reflexivity.
      * intros [[|c' t] Ht].
        -- rewrite append_nil_l in Ht. congruence.
        -- rewrite append_cons in Ht. injection Ht as -> ->. eauto.
Qed.

Lemma lower_app a b : Str.lower (a +:+ b) = Str.lower a +:+ Str.lower b.
Proof.
  induction a as [|c a IH]; [reflexivity|].
  rewrite append_cons. simpl. rewrite IH. reflexivity.
Qed.

Lemma lower_split s a b :
  Str.lower s = a +:+ b -> exists x y, s = x +:+ y /\ Str.lower x = a /\ Str.lower y = b.
Proof.
  revert s. induction a as [|c a IH]; intros s Hs.
  - exists "", s. auto.
  - rewrite append_cons in Hs. destruct s as [|d s]; [discriminate|]. simpl in Hs.
    injection Hs as Hc Hs. destruct (IH _ Hs) as (x & y & -> & Hx & Hy).
    exists (String d x), y. rewrite append_cons. simpl. by rewrite Hc, Hx.
Qed.

Lemma test_image_spec m : test_image m = true <-> exists t, m = "image" +:+ t.
Proof. apply starts_with_spec. Qed.

Lemma test_avif_webp_spec u :
  test_avif_webp u = true <->
  exists t e, u = t +:+ e /\ (Str.lower e = ".avif" \/ Str.lower e = ".webp").
Proof.
  unfold test_avif_webp. rewrite orb_true_iff, !ends_with_spec. split.
  - intros [[t Ht]|[t Ht]]; apply lower_split in Ht as (x & y & -> & _ & Hy); eauto.
  - intros (t & e & -> & [He|He]); rewrite lower_app, He; eauto.
Qed.

(** ** The network index *)

Lemma indexable_iff record :
  (test_image (NetworkRequest.mimeType record)
   || test_avif_webp (NetworkRequest.url record))
  && NetworkRequest.finished record
  && (NetworkRequest.statusCode record =? 200) = true
  <-> Indexable record.
Proof.
  unfold Indexable.
  rewrite !andb_true_iff, orb_true_iff, Z.eqb_eq, test_image_spec, test_avif_webp_spec.
  tauto.
Qed.

Lemma indexRecord_indexable map record :
  Indexable record ->
  indexRecord map record = <[NetworkRequest.url record := record]> map.
Proof.
  intros Hr. apply indexable_iff in Hr. unfold indexRecord. by rewrite Hr.
Qed.

Lemma indexRecord_not_indexable map record :
  ~ Indexable record -> indexRecord map record = map.
Proof.
  intros Hr. unfold indexRecord.
  destruct (_ && _ && _) eqn:E; [|reflexivity].
  apply indexable_iff in E. contradiction.
Qed.

Lemma Indexable_dec record : Indexable record \/ ~ Indexable record.
Proof.
  destruct ((test_image (NetworkRequest.mimeType record)
             || test_avif_webp (NetworkRequest.url record))
            && NetworkRequest.finished record
            && (NetworkRequest.statusCode record =? 200)) eqn:E.
  - left. by apply indexable_iff.
  - right. intros Hr. apply indexable_iff in Hr. congruence.
Qed.

Lemma indexNetworkRecords_snoc records record :
  indexNetworkRecords (records ++ [record])
  = indexRecord (indexNetworkRecords records) record.
Proof. unfold indexNetworkRecords. by rewrite fold_left_app. Qed.

(** Last write wins: the entry of a URL is the last indexable record with
    that URL. *)
Lemma indexNetworkRecords_lookup records u r :
  indexNetworkRecords records !! u = Some r <->
  exists before after,
    records = before ++ r :: after
    /\ NetworkRequest.url r = u
    /\ Indexable r
    /\ Forall (fun r' => NetworkRequest.url r' = u -> ~ Indexable r') after.
Proof.
  induction records as [|x l IH] using rev_ind.
  - split.
    + unfold indexNetworkRecords. simpl. by rewrite lookup_empty.
    + intros (before & after & Heq & _). by destruct before.
  - rewrite indexNetworkRecords_snoc.
    assert (Hcases : (Indexable x /\ NetworkRequest.url x = u)
                     \/ (NetworkRequest.url x = u -> ~ Indexable x)).
    { destruct (Indexable_dec x) as [Hx|Hx]; [|by right].
      destruct (decide (NetworkRequest.url x = u)); [by left | by right]. }
    destruct Hcases as [[Hx Hu]|Hx].
    + rewrite (indexRecord_indexable _ _ Hx), Hu, lookup_insert_eq. split.
      * intros [= <-]. exists l, []. do 3 (split; [done|]). constructor.
      * intros (before & after & Heq & _ & _ & Hafter).
        destruct after as [|y after _] using rev_ind.
        -- apply app_inj_tail in Heq as [_ ->]. reflexivity.
        -- rewrite app_comm_cons, app_assoc in Heq.
           apply app_inj_tail in Heq as [_ ->].
           apply Forall_app in Hafter as [_ Hy].
           apply Forall_inv in Hy. by destruct (Hy Hu).
    + assert (Hstep : indexRecord (indexNetworkRecords l) x !! u
                      = indexNetworkRecords l !! u).
      { destruct (Indexable_dec x) as [Hi|Hi].
        - rewrite (indexRecord_indexable _ _ Hi). apply lookup_insert_ne.
          intros Hu. by apply Hx.
        - by rewrite (indexRecord_not_indexable _ _ Hi). }
      rewrite Hstep, IH. split.
      * intros (before & after & -> & Hu & Hr & Hafter).
        exists before, (after ++ [x]). rewrite <- app_assoc. do 3 (split; [done|]).
        apply Forall_app. split; [done|]. by constructor.
      * intros (before & after & Heq & Hu & Hr & Hafter).
        destruct after as [|y after _] using rev_ind.
        -- apply app_inj_tail in Heq as [_ ->]. by destruct (Hx Hu).
        -- rewrite app_comm_cons, app_assoc in Heq.
           apply app_inj_tail in Heq as [-> ->].
           apply Forall_app in Hafter as [Hafter _].
           exists before, after. by do 3 (split; [done|]).
Qed.

(** C7, as stated, fails on the code: a finished record with status 200
    whose MIME type begins with [image] but not with [image/], and whose URL
    has no image extension, is not eligible in the words of the claim, and
    the code indexes it. *)
Lemma indexRecord_not_as_claimed :
  let record := Examples.record "https://example.com/logo" "imagery" true 200 1 in
  AsClaimed.eligible record = false
  /\ indexRecord ∅ record !! NetworkRequest.url record = Some record.
Proof. vm_compute. split; reflexivity. Qed.

Lemma IndexableByPath_iff record :
  ends_with_path (NetworkRequest.url record) ->
  IndexableByPath record <-> Indexable record.
Proof. unfold ends_with_path, IndexableByPath, Indexable. by intros ->. Qed.

(** C7, amended in the prefix of the MIME type, which is [image] with no
    slash required. For a URL that ends with its path, a record enters the
    index if and only if it finished, its status code is exactly 200, and
    its MIME type begins with [image] or its URL path ends in [.avif] or
    [.webp] in any letter case; the entry of such a URL in the finished
    index is the last such record with that URL. For every URL, a record
    that did not finish or whose status is not 200 never enters, and a
    finished record with status 200 and a MIME type beginning with [image]
    enters. In particular a finished record with status 200 whose URL ends
    with its path, in [.webp], enters whatever its MIME type. Of a URL with
    a query or a fragment nothing more is stated. *)
Theorem index_holds_indexable_records :
  (forall map record,
      ends_with_path (NetworkRequest.url record) ->
      (IndexableByPath record ->
       indexRecord map record = <[NetworkRequest.url record := record]> map)
      /\ (~ IndexableByPath record -> indexRecord map record = map))
  /\ (forall records u r,
        ends_with_path u ->
        indexNetworkRecords records !! u = Some r <->
        exists before after,
          records = before ++ r :: after
          /\ NetworkRequest.url r = u
          /\ IndexableByPath r
          /\ Forall (fun r' => NetworkRequest.url r' = u -> ~ IndexableByPath r') after)
  /\ (forall map record,
        NetworkRequest.finished record = false
        \/ NetworkRequest.statusCode record <> 200 ->
        indexRecord map record = map)
  /\ (forall map record t,
        NetworkRequest.finished record = true ->
        NetworkRequest.statusCode record = 200 ->
        NetworkRequest.mimeType record = "image" +:+ t ->
        indexRecord map record = <[NetworkRequest.url record := record]> map)
  /\ (forall records u r,
        indexNetworkRecords records !! u = Some r ->
        NetworkRequest.finished r = true /\ NetworkRequest.statusCode r = 200)
  /\ (forall map record t,
        ends_with_path (NetworkRequest.url record) ->
        NetworkRequest.finished record = true ->
        NetworkRequest.statusCode record = 200 ->
        NetworkRequest.url record = t +:+ ".webp" ->
        indexRecord map record !! NetworkRequest.url record = Some record).
Proof.
  split; [|split; [|split; [|split; [|split]]]].
  - intros map record Hpath. split.
    + intros Hr. by apply indexRecord_indexable, IndexableByPath_iff.
    + intros Hr. apply indexRecord_not_indexable. intros Hi. apply Hr.
      by apply IndexableByPath_iff.
  - intros records u r Hpath. rewrite indexNetworkRecords_lookup.
    split; intros (before & after & Hsplit & Hu & Hr & Hafter);
      exists before, after; (split; [done|]); (split; [done|]); split.
    + apply IndexableByPath_iff; [by rewrite Hu | done].
    + eapply Forall_impl; [exact Hafter|]. simpl. intros r' Hr' Hu' Hi.
      apply (Hr' Hu'). apply IndexableByPath_iff in Hi; [done | by rewrite Hu'].
    + apply IndexableByPath_iff in Hr; [done | by rewrite Hu].
    + eapply Forall_impl; [exact Hafter|]. simpl. intros r' Hr' Hu' Hi.
      apply (Hr' Hu'). apply IndexableByPath_iff; [by rewrite Hu' | done].
  - intros map record Hnot. apply indexRecord_not_indexable.
    intros (Hf & Hs & _). destruct Hnot; congruence.
  - intros map record t Hf Hs Hm. apply indexRecord_indexable.
    split; [done|]. split; [done|]. left. eauto.
  - intros records u r Hr.
    apply indexNetworkRecords_lookup in Hr as (_ & _ & _ & _ & (Hf & Hs & _) & _).
    by split.
  - intros map record t _ Hf Hs Hu.
    rewrite indexRecord_indexable; [apply lookup_insert_eq|].
    split; [done|]. split; [done|]. right. exists t, ".webp". by split; [|right].
Qed.

Lemma index_holds_indexable_records_witness :
  indexRecord ∅ (Examples.record "https://example.com/photo.webp"
                   "application/octet-stream" true 200 900)
  = <["https://example.com/photo.webp" :=
        Examples.record "https://example.com/photo.webp"
          "application/octet-stream" true 200 900]> ∅.
Proof.
  apply (proj1 (proj1 index_holds_indexable_records
                  ∅ (Examples.record "https://example.com/photo.webp"
                       "application/octet-stream" true 200 900)
                  eq_refl)).
  split; [reflexivity|]. split; [reflexivity|]. right.
  exists "https://example.com/photo", ".webp". split; [reflexivity | by right].
Defined.

(** ** The resolvers *)

Ltac unfold_async :=
  unfold try_catch, mbind, Async_bind, async_bind, mret, Async_ret, async_ret,
    throw, issue, cacheGet, cacheSet, log_warn in *.

Section Resolvers.
Context `{SelectorSpecificity} `{Driver B}.

(** The probe is issued on every call, whatever the cache holds. *)
Lemma fetchElementWithSizeInformation_calls (element : ImageElement.t) (s : PassState B) :
  calls (fetchElementWithSizeInformation element s).2
  = calls s ++ [SetNextProtocolTimeout 250;
                Evaluate_determineNaturalSize (ImageElement.src element)].
Proof.
  unfold fetchElementWithSizeInformation. unfold_async. simpl.
  destruct (determineNaturalSize _ _) as [[size|err] b]; simpl;
    by rewrite <- app_assoc.
Qed.

Lemma fetchElementWithSizeInformation_resolves (element : ImageElement.t) (s : PassState B) :
  exists element',
    (fetchElementWithSizeInformation element s).1 = Resolved element'
    /\ size_assigned element element'.
Proof.
  unfold fetchElementWithSizeInformation, size_assigned. unfold_async. simpl.
  destruct (determineNaturalSize _ _) as [[size|err] b]; simpl;
    destruct (_naturalSizeCache s !! ImageElement.src element) as [cached|];
    eauto.
Qed.

Lemma fetchElementWithSizeInformation_warnings (element : ImageElement.t) (s : PassState B) :
  warnings (fetchElementWithSizeInformation element s).2 = warnings s.
Proof.
  unfold fetchElementWithSizeInformation. unfold_async. simpl.
  by destruct (determineNaturalSize _ _) as [[size|err] b].
Qed.

Lemma fetchSourceRules_css_written path (element element' : ImageElement.t)
    (s s' : PassState B) :
  fetchSourceRules path element s = (Resolved element', s') ->
  css_written element element'.
Proof.
  unfold fetchSourceRules, css_written. unfold_async. simpl.
  destruct (pushNodeByPathToFrontend _ _) as [[nodeId|err] b]; simpl.
  - destruct (nodeId =? 0); simpl; [intros [= <- _]; by left|].
    destruct (getMatchedStylesForNode _ _) as [[m|err] b']; simpl.
    + intros [= <- _]. right. eauto.
    + destruct (test_No_node_found _); [intros [= <- _]; by left | discriminate].
  - destruct (test_No_node_found _); [intros [= <- _]; by left | discriminate].
Qed.

(** [fetchSourceRules] issues the node lookup, then at most the styles
    query, and nothing else. *)
Lemma fetchSourceRules_calls path (element : ImageElement.t) (s : PassState B) :
  exists issued,
    calls (fetchSourceRules path element s).2 = calls s ++ issued
    /\ (issued = [DOM_pushNodeByPathToFrontend path]
        \/ exists nodeId,
             issued = [DOM_pushNodeByPathToFrontend path;
                       CSS_getMatchedStylesForNode nodeId]).
Proof.
  unfold fetchSourceRules. unfold_async. simpl.
  destruct (pushNodeByPathToFrontend _ _) as [[nodeId|err] b]; simpl.
  - destruct (nodeId =? 0); simpl; [eauto|].
    destruct (getMatchedStylesForNode _ _) as [[m|err] b']; simpl.
    + eexists. rewrite <- app_assoc. split; [reflexivity|]. right. eauto.
    + destruct (test_No_node_found _); simpl;
        (eexists; rewrite <- app_assoc; split; [reflexivity|]; right; eauto).
  - destruct (test_No_node_found _); simpl; eauto.
Qed.

Lemma fetchSourceRules_warnings path (element : ImageElement.t) (s : PassState B) :
  warnings (fetchSourceRules path element s).2 = warnings s.
Proof.
  unfold fetchSourceRules. unfold_async. simpl.
  destruct (pushNodeByPathToFrontend _ _) as [[nodeId|err] b]; simpl.
  - destruct (nodeId =? 0); simpl; [done|].
    destruct (getMatchedStylesForNode _ _) as [[m|err] b']; simpl; [done|].
    by destruct (test_No_node_found _).
  - by destruct (test_No_node_found _).
Qed.

End Resolvers.

(** What the two resolvers leave alone. *)
Lemma css_written_fields element element' :
  css_written element element' ->
  ImageElement.src element' = ImageElement.src element
  /\ ImageElement.srcset element' = ImageElement.srcset element
  /\ ImageElement.isCss element' = ImageElement.isCss element
  /\ ImageElement.isPicture element' = ImageElement.isPicture element
  /\ ImageElement.isInShadowDOM element' = ImageElement.isInShadowDOM element
  /\ ImageElement.mimeType element' = ImageElement.mimeType element
  /\ ImageElement.naturalWidth element' = ImageElement.naturalWidth element
  /\ ImageElement.naturalHeight element' = ImageElement.naturalHeight element.
Proof. intros [->|(w & h & sizing & ->)]; by repeat split. Qed.

Lemma size_assigned_fields element element' :
  size_assigned element element' ->
  ImageElement.src element' = ImageElement.src element
  /\ ImageElement.srcset element' = ImageElement.srcset element
  /\ ImageElement.isCss element' = ImageElement.isCss element
  /\ ImageElement.isPicture element' = ImageElement.isPicture element
  /\ ImageElement.isInShadowDOM element' = ImageElement.isInShadowDOM element
  /\ ImageElement.mimeType element' = ImageElement.mimeType element
  /\ ImageElement.cssWidth element' = ImageElement.cssWidth element
  /\ ImageElement.cssHeight element' = ImageElement.cssHeight element
  /\ ImageElement._privateCssSizing element' = ImageElement._privateCssSizing element.
Proof. intros [->|(size & ->)]; by repeat split. Qed.

Section Enrich.
Context `{SelectorSpecificity} `{Driver B}.

(** Whether the loop body calls each resolver is read off the element as
    the scan produced it: [fetchSourceRules] does not change the fields the
    second test reads. *)
Lemma enrich_unfold networkRecord (element : ImageElement.t) (s : PassState B) :
  enrich networkRecord element s
  = async_bind
      (fun element' =>
         if (ImageElement.isPicture element || ImageElement.isCss element
             || Str.truthy (ImageElement.srcset element))
            && truthy_object networkRecord
         then fetchElementWithSizeInformation element'
         else async_ret element')
      (if negb (ImageElement.isInShadowDOM element) && negb (ImageElement.isCss element)
       then fetchSourceRules (devtoolsNodePath (ImageElement.node element)) element
       else async_ret element)
      s.
Proof.
  unfold enrich, mbind, Async_bind, async_bind, mret, Async_ret.
  destruct (negb _ && negb _).
  - destruct (fetchSourceRules _ _ _) as [[element'|err] s'] eqn:E; [|reflexivity].
    apply fetchSourceRules_css_written, css_written_fields in E
      as (_ & -> & -> & -> & _). reflexivity.
  - reflexivity.
Qed.

(** An element in a shadow tree or from a CSS background never reaches
    [fetchSourceRules]. *)
Lemma enrich_skips_source_rules networkRecord (element : ImageElement.t) (s : PassState B) :
  ImageElement.isInShadowDOM element = true \/ ImageElement.isCss element = true ->
  enrich networkRecord element s
  = if (ImageElement.isPicture element || ImageElement.isCss element
        || Str.truthy (ImageElement.srcset element))
       && truthy_object networkRecord
    then fetchElementWithSizeInformation element s
    else (Resolved element, s).
Proof.
  intros Hflag. rewrite enrich_unfold.
  assert (negb (ImageElement.isInShadowDOM element)
          && negb (ImageElement.isCss element) = false) as ->.
  { destruct Hflag as [-> | ->]; [done | apply andb_false_r]. }
  unfold async_bind, async_ret. by destruct (_ && truthy_object _).
Qed.

(** An element that is no picture child, no CSS background and has no
    [srcset] never reaches [fetchElementWithSizeInformation]. *)
Lemma enrich_skips_probe networkRecord (element : ImageElement.t) (s : PassState B) :
  ImageElement.isPicture element = false ->
  ImageElement.isCss element = false ->
  ImageElement.srcset element = "" ->
  enrich networkRecord element s
  = if negb (ImageElement.isInShadowDOM element)
    then fetchSourceRules (devtoolsNodePath (ImageElement.node element)) element s
    else (Resolved element, s).
Proof.
  intros Hp Hc Hs. rewrite enrich_unfold, Hp, Hc, Hs. simpl.
  rewrite andb_true_r. unfold async_bind, async_ret.
  destruct (negb _); [|reflexivity].
  by destruct (fetchSourceRules _ _ _) as [[element'|err] s'].
Qed.

(** What a completed loop body has done to the element. *)
Lemma enrich_resolved networkRecord (element element' : ImageElement.t)
    (s s' : PassState B) :
  enrich networkRecord element s = (Resolved element', s') ->
  exists element1,
    css_written element element1
    /\ size_assigned element1 element'
    /\ (ImageElement.isInShadowDOM element = true \/ ImageElement.isCss element = true ->
        element1 = element).
Proof.
  rewrite enrich_unfold. unfold async_bind, async_ret.
  destruct (negb _ && negb _) eqn:Eflag.
  - destruct (fetchSourceRules _ _ _) as [[element1|err] s1] eqn:E1; [|discriminate].
    intros E2. exists element1. split; [by eapply fetchSourceRules_css_written|].
    split.
    + destruct (_ && truthy_object _).
      * destruct (fetchElementWithSizeInformation_resolves element1 s1)
          as (e & He & Hsz). rewrite (surjective_pairing (fetchElementWithSizeInformation _ _)) in E2.
        rewrite He in E2. by injection E2 as <- _.
      * injection E2 as <- _. by left.
    + apply andb_true_iff in Eflag as [Hs Hc].
      apply negb_true_iff in Hs, Hc. intros [?|?]; congruence.
  - intros E2. exists element. split; [by left|]. split; [|done].
    destruct (_ && truthy_object _).
    + destruct (fetchElementWithSizeInformation_resolves element s)
        as (e & He & Hsz). rewrite (surjective_pairing (fetchElementWithSizeInformation _ _)) in E2.
      rewrite He in E2. by injection E2 as <- _.
    + injection E2 as <- _. by left.
Qed.

End Enrich.

(** ** The enrichment loop *)

Section Loop.
Context `{SelectorSpecificity} `{Driver B}.
Variable indexedNetworkRecords : gmap string NetworkRequest.t.

Lemma enrichLoop_cons budget i skippedCount element rest (s : PassState B) :
  enrichLoop indexedNetworkRecords budget i skippedCount (element :: rest) s
  = if reachedGatheringBudget budget i then
      match enrichLoop indexedNetworkRecords budget (S i) (S skippedCount) rest s with
      | (Resolved r, s') => (Resolved (attach indexedNetworkRecords element :: r.1, r.2), s')
      | (Rejected err, s') => (Rejected err, s')
      end
    else
      match enrich (lookupOrEmpty indexedNetworkRecords (ImageElement.src element))
                   (attach indexedNetworkRecords element) s with
      | (Resolved element', s1) =>
          match enrichLoop indexedNetworkRecords budget (S i) skippedCount rest s1 with
          | (Resolved r, s') => (Resolved (element' :: r.1, r.2), s')
          | (Rejected err, s') => (Rejected err, s')
          end
      | (Rejected err, s1) => (Rejected err, s1)
      end.
Proof.
  simpl. unfold attach. destruct (reachedGatheringBudget budget i); reflexivity.
Qed.

(** Once the budget is reached the loop only attaches MIME types and
    counts. *)
Lemma enrichLoop_skip_all budget i skippedCount elements (s : PassState B) :
  (budget <= i)%nat ->
  enrichLoop indexedNetworkRecords budget i skippedCount elements s
  = (Resolved (List.map (attach indexedNetworkRecords) elements,
               (skippedCount + length elements)%nat), s).
Proof.
  revert i skippedCount. induction elements as [|e rest IH]; intros i sk Hle.
  - simpl. by rewrite Nat.add_0_r.
  - rewrite enrichLoop_cons. unfold reachedGatheringBudget.
    rewrite (proj2 (Nat.leb_le _ _) Hle), IH by lia.
    simpl. do 3 f_equal. lia.
Qed.

(** The state the loop leaves depends on the first [budget] elements only. *)
Lemma enrichLoop_take budget i skippedCount elements (s : PassState B) :
  (enrichLoop indexedNetworkRecords budget i skippedCount elements s).2
  = (enrichLoop indexedNetworkRecords budget i skippedCount
       (take (budget - i) elements) s).2.
Proof.
  revert i skippedCount s. induction elements as [|e rest IH]; intros i sk s.
  - by rewrite take_nil.
  - destruct (decide (budget <= i)%nat) as [Hle|Hlt].
    + rewrite !enrichLoop_skip_all by done. reflexivity.
    + replace (budget - i)%nat with (S (budget - S i)) by lia.
      rewrite firstn_cons, !enrichLoop_cons.
      unfold reachedGatheringBudget. rewrite (proj2 (Nat.leb_gt _ _)) by lia.
      destruct (enrich _ _ _) as [[e'|err] s1]; [|reflexivity].
      specialize (IH (S i) sk s1).
      destruct (enrichLoop _ _ _ _ rest s1) as [[r|err] s2],
               (enrichLoop _ _ _ _ (take _ rest) s1) as [[r'|err'] s2']; exact IH.
Qed.

(** Every element of a completed loop: its MIME type is attached; from
    position [budget] on nothing else was done to it; before that it went
    through the two resolvers, and not through [fetchSourceRules] if it is
    in a shadow tree or a CSS background. *)
Lemma enrichLoop_resolved budget i skippedCount elements (s s' : PassState B)
    out skippedCount' :
  enrichLoop indexedNetworkRecords budget i skippedCount elements s
    = (Resolved (out, skippedCount'), s') ->
  length out = length elements
  /\ skippedCount' = (skippedCount + (length elements - (budget - i)))%nat
  /\ forall j element,
       elements !! j = Some element ->
       exists element',
         out !! j = Some element'
         /\ ((budget <= i + j)%nat -> element' = attach indexedNetworkRecords element)
         /\ ((i + j < budget)%nat ->
             exists sj sj' : PassState B,
               enrich (lookupOrEmpty indexedNetworkRecords (ImageElement.src element))
                 (attach indexedNetworkRecords element) sj
               = (Resolved element', sj'))
         /\ exists element1,
              css_written (attach indexedNetworkRecords element) element1
              /\ size_assigned element1 element'
              /\ (ImageElement.isInShadowDOM element = true
                  \/ ImageElement.isCss element = true ->
                  element1 = attach indexedNetworkRecords element).
Proof.
  revert i skippedCount s out skippedCount'.
  induction elements as [|e rest IH]; intros i sk s out sk'.
  - simpl. intros [= <- <- _]. split; [done|]. split; [lia|]. intros j e Hj. done.
  - rewrite enrichLoop_cons. unfold reachedGatheringBudget.
    destruct (budget <=? i)%nat eqn:Hb.
    + apply Nat.leb_le in Hb.
      destruct (enrichLoop _ _ _ _ rest s) as [[[out1 sk1]|err] s1] eqn:E; [|discriminate].
      intros [= <- <- <-]. apply IH in E as (Hlen & Hsk & Hel). simpl.
      split; [by rewrite Hlen|]. split; [lia|].
      intros [|j] element Hj; simpl in Hj.
      * injection Hj as <-. eexists. split; [reflexivity|]. split; [done|].
        split; [lia|].
        exists (attach indexedNetworkRecords e). split; [by left|]. split; [by left|done].
      * destruct (Hel j element Hj) as (e' & Hout & Hskip & Hdone & Hrest).
        exists e'. split; [done|]. split; [intros _; apply Hskip; lia|].
        split; [lia | done].
    + apply Nat.leb_gt in Hb.
      destruct (enrich _ _ _) as [[e0|err] s0] eqn:E0; [|discriminate].
      destruct (enrichLoop _ _ _ _ rest s0) as [[[out1 sk1]|err] s1] eqn:E; [|discriminate].
      intros [= <- <- <-]. apply IH in E as (Hlen & Hsk & Hel). simpl.
      split; [by rewrite Hlen|]. split; [lia|].
      intros [|j] element Hj; simpl in Hj.
      * injection Hj as <-. exists e0. split; [reflexivity|]. split; [lia|].
        split; [eauto|].
        apply enrich_resolved in E0 as (e1 & Hcss & Hsize & Hflag).
        exists e1. split; [done|]. split; [done|]. apply Hflag.
      * destruct (Hel j element Hj) as (e' & Hout & Hskip & Hdone & Hrest).
        exists e'. split; [done|]. split; [intros Hle; apply Hskip; lia|].
        split; [|done]. intros Hlt. apply Hdone. lia.
Qed.

End Loop.

(** ** Calls and warnings *)

Section Calls.
Context `{SelectorSpecificity} `{Driver B}.

Lemma sendAll_calls cs (s : PassState B) :
  calls (sendAll cs s).2 = calls s ++ cs.
Proof.
  revert s. induction cs as [|c cs IH]; intros s; simpl.
  - by rewrite app_nil_r.
  - unfold sendCommand, issue.
    destruct (command c (browser s)) as [[[]|err] b]; simpl;
      rewrite IH; simpl; by rewrite <- app_assoc.
Qed.

Lemma sendAll_warnings cs (s : PassState B) :
  warnings (sendAll cs s).2 = warnings s.
Proof.
  revert s. induction cs as [|c cs IH]; intros s; simpl; [done|].
  unfold sendCommand, issue.
  destruct (command c (browser s)) as [[[]|err] b]; simpl; by rewrite IH.
Qed.

Lemma enrich_calls networkRecord (element : ImageElement.t) (s : PassState B) :
  exists issued,
    calls (enrich networkRecord element s).2 = calls s ++ issued
    /\ Forall per_element_call issued.
Proof.
  rewrite enrich_unfold. unfold async_bind, async_ret.
  assert (Hprobe : forall e0 (s0 : PassState B) issued0,
             calls s0 = calls s ++ issued0 -> Forall per_element_call issued0 ->
             exists issued,
               calls ((if (ImageElement.isPicture element || ImageElement.isCss element
                           || Str.truthy (ImageElement.srcset element))
                          && truthy_object networkRecord
                       then fetchElementWithSizeInformation e0
                       else fun s => (Resolved e0, s)) s0).2 = calls s ++ issued
               /\ Forall per_element_call issued).
  { intros e0 s0 issued0 Hs0 Hall. destruct (_ && truthy_object _); simpl.
    - rewrite fetchElementWithSizeInformation_calls, Hs0, <- app_assoc.
      eexists. split; [reflexivity|]. apply Forall_app. split; [done|].
      by repeat constructor.
    - eauto. }
  destruct (negb _ && negb _).
  - destruct (fetchSourceRules_calls (devtoolsNodePath (ImageElement.node element))
                element s) as (issued0 & Hcalls & Hshape).
    assert (Forall per_element_call issued0).
    { destruct Hshape as [->|[nodeId ->]]; by repeat constructor. }
    destruct (fetchSourceRules _ _ _) as [[e0|err] s0]; simpl in *; eauto.
  - apply (Hprobe element s []); [by rewrite app_nil_r | constructor].
Qed.

Lemma enrich_warnings networkRecord (element : ImageElement.t) (s : PassState B) :
  warnings (enrich networkRecord element s).2 = warnings s.
Proof.
  rewrite enrich_unfold. unfold async_bind, async_ret.
  destruct (negb _ && negb _).
  - pose proof (fetchSourceRules_warnings
                  (devtoolsNodePath (ImageElement.node element)) element s) as Hw.
    destruct (fetchSourceRules _ _ _) as [[e0|err] s0]; simpl in *; [|done].
    destruct (_ && truthy_object _); simpl; [|done].
    by rewrite fetchElementWithSizeInformation_warnings.
  - destruct (_ && truthy_object _); simpl; [|done].
    by rewrite fetchElementWithSizeInformation_warnings.
Qed.

Lemma enrichLoop_calls indexedNetworkRecords budget i skippedCount elements
    (s : PassState B) :
  exists issued,
    calls (enrichLoop indexedNetworkRecords budget i skippedCount elements s).2
      = calls s ++ issued
    /\ Forall per_element_call issued.
Proof.
  revert i skippedCount s. induction elements as [|e rest IH]; intros i sk s.
  - exists []. simpl. by rewrite app_nil_r.
  - rewrite enrichLoop_cons. destruct (reachedGatheringBudget budget i).
    + destruct (IH (S i) (S sk) s) as (issued & Hc & Hall).
      destruct (enrichLoop _ _ _ _ rest s) as [[r|err] s']; simpl in *; eauto.
    + destruct (enrich_calls (lookupOrEmpty indexedNetworkRecords (ImageElement.src e))
                  (attach indexedNetworkRecords e) s) as (issued0 & Hc0 & Hall0).
      destruct (enrich _ _ _) as [[e'|err] s1]; simpl in *; [|eauto].
      destruct (IH (S i) sk s1) as (issued & Hc & Hall).
      exists (issued0 ++ issued). split; [|by apply Forall_app].
      destruct (enrichLoop _ _ _ _ rest s1) as [[r|err] s']; simpl in *;
        by rewrite Hc, Hc0, <- app_assoc.
Qed.

Lemma enrichLoop_warnings indexedNetworkRecords budget i skippedCount elements
    (s : PassState B) :
  warnings (enrichLoop indexedNetworkRecords budget i skippedCount elements s).2
  = warnings s.
Proof.
  revert i skippedCount s. induction elements as [|e rest IH]; intros i sk s; [done|].
  rewrite enrichLoop_cons. destruct (reachedGatheringBudget budget i).
  - specialize (IH (S i) (S sk) s).
    by destruct (enrichLoop _ _ _ _ rest s) as [[r|err] s'].
  - pose proof (enrich_warnings
                  (lookupOrEmpty indexedNetworkRecords (ImageElement.src e))
                  (attach indexedNetworkRecords e) s) as Hw.
    destruct (enrich _ _ _) as [[e'|err] s1]; simpl in *; [|done].
    specialize (IH (S i) sk s1).
    destruct (enrichLoop _ _ _ _ rest s1) as [[r|err] s']; simpl in *; congruence.
Qed.

End Calls.

(** ** Sorting *)

Section SortFacts.
Context {A : Type} (comparefn : A -> A -> option Z).

Lemma insertPivot_Permutation pivot run :
  insertPivot comparefn pivot run ≡ₚ pivot :: run.
Proof.
  induction run as [|y rest IH]; simpl; [done|].
  destruct (_ <? 0); [|done].
  rewrite IH. apply perm_swap.
Qed.

Lemma insertion_fold_Permutation array run :
  fold_left (fun run pivot => insertPivot comparefn pivot run) array run
  ≡ₚ array ++ run.
Proof.
  revert run. induction array as [|x array IH]; intros run; simpl; [done|].
  rewrite IH, insertPivot_Permutation. by rewrite Permutation_middle.
Qed.

(** The sort reorders: nothing is lost and nothing is added. *)
Lemma Array_sort_Permutation array : Array_sort comparefn array ≡ₚ array.
Proof.
  unfold Array_sort. rewrite <- Permutation_rev, insertion_fold_Permutation.
  by rewrite app_nil_r.
Qed.

Lemma Array_sort_length array : length (Array_sort comparefn array) = length array.
Proof. apply Permutation_length, Array_sort_Permutation. Qed.

(** Where the comparator is a difference of keys on the array's elements,
    the result is in non-increasing key order. *)
Section Keyed.
Variable key : A -> Z.
Variable array : list A.
Hypothesis comparefn_key :
  forall x y, x ∈ array -> y ∈ array -> comparefn x y = Some (key y - key x).

Lemma insertPivot_ascending pivot run :
  pivot ∈ array -> (forall y, y ∈ run -> y ∈ array) ->
  StronglySorted (fun a b => key a <= key b) run ->
  StronglySorted (fun a b => key a <= key b) (insertPivot comparefn pivot run).
Proof.
  intros Hp. induction run as [|y rest IH]; intros Hin Hsorted; simpl.
  - repeat constructor.
  - apply StronglySorted_inv in Hsorted as [Hrest Hy].
    unfold sortCompare. rewrite comparefn_key by (done || apply Hin; left).
    simpl. destruct (Z.ltb_spec (key y - key pivot) 0) as [Hlt|Hge].
    + constructor.
      * apply IH; [|done]. intros z Hz. apply Hin. by right.
      * rewrite Forall_forall. intros z Hz.
        rewrite insertPivot_Permutation in Hz.
        apply elem_of_cons in Hz as [->|Hz]; [lia|].
        rewrite Forall_forall in Hy. by apply Hy.
    + constructor; [by constructor|].
      constructor; [lia|]. eapply Forall_impl; [exact Hy|]. simpl. intros; lia.
Qed.

Lemma insertion_fold_ascending rest run :
  (forall y, y ∈ rest -> y ∈ array) -> (forall y, y ∈ run -> y ∈ array) ->
  StronglySorted (fun a b => key a <= key b) run ->
  StronglySorted (fun a b => key a <= key b)
    (fold_left (fun run pivot => insertPivot comparefn pivot run) rest run).
Proof.
  revert run. induction rest as [|x rest IH]; intros run Hrest Hrun Hsorted; simpl.
  - done.
  - apply IH.
    + intros y Hy. apply Hrest. by right.
    + intros y Hy. rewrite insertPivot_Permutation in Hy.
      apply elem_of_cons in Hy as [->|Hy]; [apply Hrest; left | by apply Hrun].
    + apply insertPivot_ascending; [apply Hrest; left | done | done].
Qed.

Lemma StronglySorted_rev (R : A -> A -> Prop) l :
  StronglySorted R l -> StronglySorted (flip R) (List.rev l).
Proof.
  induction 1 as [|x l Hl IH Hx]; simpl; [constructor|].
  apply StronglySorted_app. split; [|split; [done | repeat constructor]].
  intros x1 x2 Hx1 Hx2. apply list_elem_of_singleton in Hx2 as ->.
  rewrite Forall_forall in Hx. apply Hx.
  apply list_elem_of_In. apply list_elem_of_In in Hx1. by apply in_rev.
Qed.

Lemma Array_sort_descending :
  StronglySorted (fun a b => key b <= key a) (Array_sort comparefn array).
Proof.
  unfold Array_sort.
  apply (StronglySorted_rev (fun a b => key a <= key b)).
  apply insertion_fold_ascending; [done | by intros y ?%elem_of_nil | constructor].
Qed.

End Keyed.
End SortFacts.

(** ** The pass, phase by phase *)

Section Pass.
Context `{SelectorSpecificity} `{Driver B}.

Lemma afterPass_unfold budget networkRecords (s : PassState B) :
  afterPass budget networkRecords s
  = match issue Evaluate_collectImageElementInfo elementsInDocument s with
    | (Rejected err, s0) => (Rejected err, s0)
    | (Resolved allElements, s0) =>
        match sendAll [DOM_enable; CSS_enable; DOM_getDocument] s0 with
        | (Rejected err, s1) => (Rejected err, s1)
        | (Resolved _, s1) =>
            let elements := sortedElements networkRecords allElements in
            match enrichLoop (indexNetworkRecords networkRecords) budget 0 0 elements s1 with
            | (Rejected err, s2) => (Rejected err, s2)
            | (Resolved r, s2) =>
                let s3 :=
                  if reachedGatheringBudget budget (length elements)
                  then (log_warn {| skipped := r.2; total := length r.1 |} s2).2
                  else s2 in
                match sendAll [DOM_disable; CSS_disable] s3 with
                | (Resolved _, s4) => (Resolved r.1, s4)
                | (Rejected err, s4) => (Rejected err, s4)
                end
            end
        end
    end.
Proof.
  unfold afterPass, sortedElements, mbind, Async_bind, async_bind.
  destruct (issue _ _ s) as [[allElements|err] s0]; [|reflexivity].
  destruct (sendAll [DOM_enable; CSS_enable; DOM_getDocument] s0) as [[[]|err] s1];
    [|reflexivity].
  destruct (enrichLoop _ _ _ _ _ s1) as [[r|err] s2]; [|reflexivity].
  cbv zeta. unfold sendAll, sendCommand, issue, log_warn, async_ret.
  destruct (reachedGatheringBudget _ _); simpl;
    repeat match goal with
           | |- context [command ?c ?b] =>
               destruct (command c b) as [[[]|?] ?]; simpl
           end; reflexivity.
Qed.

Lemma sendAll_resolves cs (s : PassState B) :
  (forall c b, (command c b).1 = Resolved tt) ->
  (sendAll cs s).1 = Resolved tt.
Proof.
  intros Hcmd. revert s. induction cs as [|c cs IH]; intros s; simpl; [done|].
  unfold sendCommand, issue. pose proof (Hcmd c (browser s)) as Hc.
  destruct (command c (browser s)) as [[[]|err] b]; simpl in *; [apply IH | done].
Qed.

Lemma fetchSourceRules_resolves path (element : ImageElement.t) (s : PassState B) :
  Dependable B ->
  exists element', (fetchSourceRules path element s).1 = Resolved element'.
Proof.
  intros (_ & _ & Hpush & Hstyles).
  unfold fetchSourceRules. unfold_async. simpl.
  pose proof (Hpush path (browser s)) as Hp.
  destruct (pushNodeByPathToFrontend _ _) as [[nodeId|err] b]; simpl in *.
  - destruct (nodeId =? 0); simpl; [eauto|].
    pose proof (Hstyles nodeId b) as Hm.
    destruct (getMatchedStylesForNode _ _) as [[m|err] b']; simpl in *; [eauto|].
    rewrite (Hm err) by done. simpl. eauto.
  - rewrite (Hp err) by done. simpl. eauto.
Qed.

Lemma enrich_resolves networkRecord (element : ImageElement.t) (s : PassState B) :
  Dependable B ->
  exists element', (enrich networkRecord element s).1 = Resolved element'.
Proof.
  intros Hd. rewrite enrich_unfold. unfold async_bind, async_ret.
  destruct (negb _ && negb _).
  - destruct (fetchSourceRules_resolves
                (devtoolsNodePath (ImageElement.node element)) element s Hd)
      as (e0 & He0).
    destruct (fetchSourceRules _ _ _) as [[e0'|err] s0]; simpl in He0; [|done].
    destruct (_ && truthy_object _); simpl; [|eauto].
    destruct (fetchElementWithSizeInformation_resolves e0' s0) as (e & He & _). eauto.
  - destruct (_ && truthy_object _); simpl; [|eauto].
    destruct (fetchElementWithSizeInformation_resolves element s) as (e & He & _). eauto.
Qed.

Lemma enrichLoop_resolves indexedNetworkRecords budget i skippedCount elements
    (s : PassState B) :
  Dependable B ->
  exists r,
    (enrichLoop indexedNetworkRecords budget i skippedCount elements s).1 = Resolved r.
Proof.
  intros Hd. revert i skippedCount s.
  induction elements as [|e rest IH]; intros i sk s; [simpl; eauto|].
  rewrite enrichLoop_cons. destruct (reachedGatheringBudget budget i).
  - destruct (IH (S i) (S sk) s) as (r & Hr).
    destruct (enrichLoop _ _ _ _ rest s) as [[r'|err] s']; simpl in *; [eauto | done].
  - destruct (enrich_resolves
                (lookupOrEmpty indexedNetworkRecords (ImageElement.src e))
                (attach indexedNetworkRecords e) s Hd) as (e' & He').
    destruct (enrich _ _ _) as [[e''|err] s1]; simpl in *; [|done].
    destruct (IH (S i) sk s1) as (r & Hr).
    destruct (enrichLoop _ _ _ _ rest s1) as [[r'|err] s']; simpl in *; [eauto | done].
Qed.

(** With a dependable driver the pass returns its elements. *)
Lemma afterPass_resolves budget networkRecords (s : PassState B) :
  Dependable B ->
  exists out, (afterPass budget networkRecords s).1 = Resolved out.
Proof.
  intros Hd. pose proof Hd as (Hcmd & Hscan & _).
  rewrite afterPass_unfold. unfold issue at 1.
  destruct (Hscan (browser s)) as (allElements & Hall).
  destruct (elementsInDocument (browser s)) as [[all|err] b0]; simpl in Hall; [|done].
  match goal with |- context [sendAll ?cs ?s0] =>
    pose proof (sendAll_resolves cs s0 Hcmd) as He;
    destruct (sendAll cs s0) as [[[]|err] s1]; simpl in He; [|done] end.
  cbv zeta.
  match goal with |- context [enrichLoop ?ix ?k 0%nat 0%nat ?els s1] =>
    destruct (enrichLoop_resolves ix k 0%nat 0%nat els s1 Hd) as (r & Hr);
    destruct (enrichLoop ix k 0%nat 0%nat els s1) as [[r'|err] s2]; simpl in Hr; [|done]
  end.
  match goal with |- context [sendAll [DOM_disable; CSS_disable] ?s3] =>
    pose proof (sendAll_resolves [DOM_disable; CSS_disable] s3 Hcmd) as Hdis;
    destruct (sendAll [DOM_disable; CSS_disable] s3) as [[[]|err] s4]; simpl in Hdis;
    [eauto | done]
  end.
Qed.

End Pass.

(** ** The natural-size cache *)

(** C1, where the code departs from the claim: a cache hit does not end
    [fetchElementWithSizeInformation]. With the URL of the element already
    in the cache, the call still sets the protocol timeout and issues the
    in-page probe for that URL; the element ends with the size the new
    probe decoded, and with the cached size only if the new probe fails. *)
Theorem cached_url_is_probed_again `{Driver B} (element : ImageElement.t)
    (s : PassState B) (cached : NaturalSize) :
  _naturalSizeCache s !! ImageElement.src element = Some cached ->
  calls (fetchElementWithSizeInformation element s).2
  = calls s ++ [SetNextProtocolTimeout 250;
                Evaluate_determineNaturalSize (ImageElement.src element)]
  /\ (fetchElementWithSizeInformation element s).1
     = Resolved
         match (determineNaturalSize (ImageElement.src element) (browser s)).1 with
         | Resolved size => assign size element
         | Rejected _ => assign cached element
         end.
Proof.
  intros Hhit. split; [apply fetchElementWithSizeInformation_calls|].
  unfold fetchElementWithSizeInformation. unfold_async. simpl. rewrite Hhit.
  by destruct (determineNaturalSize _ _) as [[size|err] b].
Qed.

Lemma cached_url_is_probed_again_witness :
  let first :=
    @fetchElementWithSizeInformation _ Examples.scriptedDriver Examples.element_b
      (initialState (Examples.page [Examples.div_b] None)) in
  let second :=
    @fetchElementWithSizeInformation _ Examples.scriptedDriver Examples.element_b first.2 in
  _naturalSizeCache first.2 !! Examples.b_jpg
    = Some {| naturalWidth := 640; naturalHeight := 480 |}
  /\ calls second.2
     = calls first.2 ++ [SetNextProtocolTimeout 250;
                         Evaluate_determineNaturalSize Examples.b_jpg].
Proof.
  split.
  - vm_compute. reflexivity.
  - apply (@cached_url_is_probed_again _ Examples.scriptedDriver Examples.element_b
             (@fetchElementWithSizeInformation _ Examples.scriptedDriver Examples.element_b
                (initialState (Examples.page [Examples.div_b] None))).2
             {| naturalWidth := 640; naturalHeight := 480 |}).
    vm_compute. reflexivity.
Defined.

(** Two background images with one URL: a pass probes the URL twice. *)
Example one_url_two_probes :
  List.filter
    (fun c => match c with Evaluate_determineNaturalSize _ => true | _ => false end)
    (calls (Examples.run 5 (Examples.page [Examples.div_b; Examples.div_b'] None)).2)
  = [Evaluate_determineNaturalSize Examples.b_jpg;
     Evaluate_determineNaturalSize Examples.b_jpg].
Proof. vm_compute. reflexivity. Qed.

(** ** The sort *)

(** C2, where the code departs from the claim: an element without a
    network record does not compare as size 0. The comparator yields [NaN]
    for it, the sort reads that as equality, and so the element stays in
    front of a matched element that follows it, whatever that element's
    size. *)
Theorem unmatched_element_stays_in_front
    (indexedNetworkRecords : gmap string NetworkRequest.t)
    (unmatched matched : ImageElement.t) :
  indexedNetworkRecords !! ImageElement.src unmatched = None ->
  Array_sort (compareElements indexedNetworkRecords) [unmatched; matched]
  = [unmatched; matched].
Proof.
  intros Hu. unfold Array_sort. simpl.
  unfold sortCompare, compareElements, lookupOrEmpty. rewrite Hu. simpl.
  by destruct (indexedNetworkRecords !! ImageElement.src matched).
Qed.

Lemma unmatched_element_stays_in_front_witness :
  sizeOf (indexNetworkRecords Examples.networkRecords) Examples.element_a = Some 500
  /\ Array_sort (compareElements (indexNetworkRecords Examples.networkRecords))
       [Examples.element_c; Examples.element_a]
     = [Examples.element_c; Examples.element_a].
Proof.
  split.
  - vm_compute. reflexivity.
  - apply (unmatched_element_stays_in_front
             (indexNetworkRecords Examples.networkRecords)
             Examples.element_c Examples.element_a).
    vm_compute. reflexivity.
Defined.

(** With an unmatched element between them, a 500-byte image stays ahead
    of a 2000-byte one. *)
Example unmatched_element_blocks_the_sort :
  Array_sort (compareElements (indexNetworkRecords Examples.networkRecords))
    [Examples.element_a; Examples.element_c; Examples.element_b]
  = [Examples.element_a; Examples.element_c; Examples.element_b].
Proof. vm_compute. reflexivity. Qed.

(** When every element has a network record the order is the intended
    one: a permutation of the input in non-increasing resource size. *)
Lemma sort_descending_when_all_matched
    (indexedNetworkRecords : gmap string NetworkRequest.t)
    (elements : list ImageElement.t) :
  (forall e, e ∈ elements -> is_Some (indexedNetworkRecords !! ImageElement.src e)) ->
  Array_sort (compareElements indexedNetworkRecords) elements ≡ₚ elements
  /\ StronglySorted
       (fun a b => default 0 (sizeOf indexedNetworkRecords b)
                   <= default 0 (sizeOf indexedNetworkRecords a))
       (Array_sort (compareElements indexedNetworkRecords) elements).
Proof.
  intros Hall. split; [apply Array_sort_Permutation|].
  apply Array_sort_descending. intros x y Hx Hy.
  destruct (Hall x Hx) as [rx Hrx], (Hall y Hy) as [ry Hry].
  unfold compareElements, sizeOf, lookupOrEmpty. by rewrite Hrx, Hry.
Qed.

(** ** Who is probed *)

(** C3, where the code departs from the claim: the test [&& networkRecord]
    reads an object, and the empty object that stands in for a missing
    record is truthy. A CSS background whose URL has no network record is
    probed all the same. *)
Theorem element_without_record_is_probed `{SelectorSpecificity} `{Driver B}
    (indexedNetworkRecords : gmap string NetworkRequest.t)
    (element : ImageElement.t) (s : PassState B) :
  indexedNetworkRecords !! ImageElement.src element = None ->
  ImageElement.isCss element = true ->
  calls (enrich (lookupOrEmpty indexedNetworkRecords (ImageElement.src element))
           element s).2
  = calls s ++ [SetNextProtocolTimeout 250;
                Evaluate_determineNaturalSize (ImageElement.src element)].
Proof.
  intros Hnone Hcss. rewrite enrich_skips_source_rules by (by right).
  unfold lookupOrEmpty. rewrite Hnone, Hcss, orb_true_r. simpl.
  apply fetchElementWithSizeInformation_calls.
Qed.

Lemma element_without_record_is_probed_witness :
  calls (@enrich Examples.bySelectorCount _ Examples.scriptedDriver
           (lookupOrEmpty (indexNetworkRecords Examples.networkRecords)
              (ImageElement.src Examples.element_c))
           Examples.element_c
           (initialState (Examples.page [Examples.div_c] None))).2
  = [] ++ [SetNextProtocolTimeout 250; Evaluate_determineNaturalSize Examples.c_gif].
Proof.
  apply (@element_without_record_is_probed Examples.bySelectorCount _
           Examples.scriptedDriver (indexNetworkRecords Examples.networkRecords)
           Examples.element_c (initialState (Examples.page [Examples.div_c] None)));
    vm_compute; reflexivity.
Defined.

(** ** The scan *)

Lemma parentIsPicture_spec element :
  parentIsPicture element = true <-> InPicture element.
Proof.
  unfold parentIsPicture, InPicture.
  destruct (Dom.parentElement element) as [parent|].
  - rewrite String.eqb_eq. split; [eauto|]. by intros (p & [= <-] & Hp).
  - split; [discriminate|]. by intros (p & Hp & _).
Qed.

Lemma truthy_spec s : Str.truthy s = true <-> s <> "".
Proof. destruct s; simpl; split; congruence. Qed.

Lemma getHTMLImages_spec allElements image :
  image ∈ getHTMLImages allElements <->
  exists element,
    element ∈ allElements /\ Dom.localName element = "img" /\ image = htmlImage element.
Proof.
  unfold getHTMLImages. rewrite list_elem_of_In, in_map_iff. split.
  - intros (element & <- & Hin). apply filter_In in Hin as [Hin Himg].
    exists element. rewrite list_elem_of_In, <- String.eqb_eq. done.
  - intros (element & Hin & Himg & ->). exists element. split; [done|].
    apply filter_In. rewrite <- list_elem_of_In, String.eqb_eq. done.
Qed.


Lemma getCSSImages_spec allElements image :
  image ∈ getCSSImages allElements ->
  exists element url, element ∈ allElements /\ image = cssImage element url.
Proof.
  induction allElements as [|element rest IH]; simpl; [by intros ?%elem_of_nil|].
  destruct (match_CSS_URL_REGEX _) as [url|].
  - intros [->|Hin]%elem_of_cons.
    + exists element, url. split; [left | done].
    + destruct (IH Hin) as (e & u & He & ->). exists e, u. split; [by right | done].
  - intros Hin. destruct (IH Hin) as (e & u & He & ->).
    exists e, u. split; [by right | done].
Qed.

(** The scan leaves the CSS sizing fields unset. *)
Lemma collectImageElementInfo_css_unset allElements image :
  image ∈ collectImageElementInfo allElements ->
  ImageElement.cssWidth image = None
  /\ ImageElement.cssHeight image = None
  /\ ImageElement._privateCssSizing image = None.
Proof.
  unfold collectImageElementInfo. intros [Hin|Hin]%elem_of_app.
  - by apply getHTMLImages_spec in Hin as (element & _ & _ & ->).
  - by apply getCSSImages_spec in Hin as (element & url & _ & ->).
Qed.

(** ** A completed pass *)

Section CompletedPass.
Context `{SelectorSpecificity} `{Driver B}.

(** The phases of a pass that returned. *)
Lemma afterPass_inv budget networkRecords (s s' : PassState B) out :
  afterPass budget networkRecords s = (Resolved out, s') ->
  exists allElements b0 s1 skippedCount s2,
    elementsInDocument (browser s) = (Resolved allElements, b0)
    /\ calls s1 = calls s ++ [Evaluate_collectImageElementInfo;
                              DOM_enable; CSS_enable; DOM_getDocument]
    /\ warnings s1 = warnings s
    /\ enrichLoop (indexNetworkRecords networkRecords) budget 0 0
         (sortedElements networkRecords allElements) s1
       = (Resolved (out, skippedCount), s2)
    /\ calls s' = calls s2 ++ [DOM_disable; CSS_disable]
    /\ warnings s'
       = warnings s2
         ++ (if reachedGatheringBudget budget
                  (length (sortedElements networkRecords allElements))
             then [{| skipped := skippedCount; total := length out |}]
             else []).
Proof.
  rewrite afterPass_unfold. unfold issue at 1.
  destruct (elementsInDocument (browser s)) as [[allElements|err] b0] eqn:Escan;
    [|discriminate].
  match goal with |- context [sendAll ?cs ?s0] =>
    pose proof (sendAll_calls cs s0) as Hc1;
    pose proof (sendAll_warnings cs s0) as Hw1;
    destruct (sendAll cs s0) as [[[]|err] s1]; [|discriminate]
  end.
  cbv zeta.
  destruct (enrichLoop _ _ _ _ _ s1) as [[[out' sk]|err] s2] eqn:Eloop; [|discriminate].
  match goal with |- context [sendAll [DOM_disable; CSS_disable] ?s3] =>
    pose proof (sendAll_calls [DOM_disable; CSS_disable] s3) as Hc2;
    pose proof (sendAll_warnings [DOM_disable; CSS_disable] s3) as Hw2;
    destruct (sendAll [DOM_disable; CSS_disable] s3) as [[[]|err] s4]; [|discriminate]
  end.
  intros [= <- <-]. exists allElements, b0, s1, sk, s2. simpl in *.
  split; [done|]. split; [by rewrite Hc1, <- app_assoc|]. split; [done|].
  split; [done|].
  destruct (reachedGatheringBudget _ _); simpl in *.
  - by rewrite Hc2, Hw2.
  - by rewrite Hc2, Hw2, app_nil_r.
Qed.

End CompletedPass.

Lemma attach_fields indexedNetworkRecords element :
  ImageElement.src (attach indexedNetworkRecords element) = ImageElement.src element
  /\ ImageElement.isCss (attach indexedNetworkRecords element) = ImageElement.isCss element
  /\ ImageElement.isInShadowDOM (attach indexedNetworkRecords element)
     = ImageElement.isInShadowDOM element
  /\ ImageElement.cssWidth (attach indexedNetworkRecords element)
     = ImageElement.cssWidth element
  /\ ImageElement.cssHeight (attach indexedNetworkRecords element)
     = ImageElement.cssHeight element
  /\ ImageElement._privateCssSizing (attach indexedNetworkRecords element)
     = ImageElement._privateCssSizing element
  /\ ImageElement.mimeType (attach indexedNetworkRecords element)
     = mimeTypeOf (lookupOrEmpty indexedNetworkRecords (ImageElement.src element)).
Proof. by repeat split. Qed.

(** ** Who gets CSS sizing *)

(** C10: an element in a shadow tree or from a CSS background never
    reaches [fetchSourceRules]: the loop body goes straight to the test for
    the probe, it issues no node lookup and no styles query for the
    element, and in the elements a pass returns every such element has
    [cssWidth], [cssHeight] and the sizing pair unset. *)
Theorem shadow_and_css_elements_skip_source_rules `{SelectorSpecificity} `{Driver B} :
  (forall networkRecord (element : ImageElement.t) (s : PassState B),
      ImageElement.isInShadowDOM element = true \/ ImageElement.isCss element = true ->
      enrich networkRecord element s
      = (if (ImageElement.isPicture element || ImageElement.isCss element
             || Str.truthy (ImageElement.srcset element))
            && truthy_object networkRecord
         then fetchElementWithSizeInformation element s
         else (Resolved element, s))
      /\ (calls (enrich networkRecord element s).2 = calls s
          \/ calls (enrich networkRecord element s).2
             = calls s ++ [SetNextProtocolTimeout 250;
                           Evaluate_determineNaturalSize (ImageElement.src element)]))
  /\ (forall budget networkRecords (s s' : PassState B) out element,
        afterPass budget networkRecords s = (Resolved out, s') ->
        element ∈ out ->
        ImageElement.isInShadowDOM element = true \/ ImageElement.isCss element = true ->
        ImageElement.cssWidth element = None
        /\ ImageElement.cssHeight element = None
        /\ ImageElement._privateCssSizing element = None).
Proof.
  split.
  - intros networkRecord element s Hflag.
    rewrite enrich_skips_source_rules by done. split; [done|].
    destruct (_ && truthy_object _); simpl; [right | by left].
    apply fetchElementWithSizeInformation_calls.
  - intros budget networkRecords s s' out element' Hpass Hin Hflag.
    apply afterPass_inv in Hpass
      as (allElements & b0 & s1 & sk & s2 & _ & _ & _ & Hloop & _).
    apply enrichLoop_resolved in Hloop as (Hlen & _ & Hel).
    apply list_elem_of_lookup in Hin as [j Hj].
    destruct (lookup_lt_is_Some_2 (sortedElements networkRecords allElements) j)
      as [element Helement].
    { rewrite <- Hlen. by eapply lookup_lt_Some. }
    destruct (Hel j element Helement) as (e' & He' & _ & _ & e1 & Hcss & Hsize & Hskip).
    assert (e' = element') as -> by congruence.
    pose proof (attach_fields (indexNetworkRecords networkRecords) element)
      as (_ & Hc0 & Hs0 & Hw0 & Hh0 & Hp0 & _).
    apply css_written_fields in Hcss as Hf1.
    destruct Hf1 as (_ & _ & Hc1 & _ & Hs1 & _).
    apply size_assigned_fields in Hsize as (_ & _ & Hc2 & _ & Hs2 & _ & Hw2 & Hh2 & Hp2).
    assert (Hscan : element ∈ collectImageElementInfo allElements).
    { apply list_elem_of_lookup_2 in Helement. unfold sortedElements in Helement.
      by rewrite Array_sort_Permutation in Helement. }
    apply collectImageElementInfo_css_unset in Hscan as (Hw & Hh & Hp).
    rewrite Hskip in Hw2, Hh2, Hp2 by (destruct Hflag; [left | right]; congruence).
    repeat split; congruence.
Qed.

Lemma shadow_and_css_elements_skip_source_rules_witness :
  let element :=
    ImageElement.assign_size 640 480
      (attach (indexNetworkRecords Examples.networkRecords)
         (cssImage Examples.div_b Examples.b_jpg)) in
  ImageElement.cssWidth element = None
  /\ ImageElement.cssHeight element = None
  /\ ImageElement._privateCssSizing element = None.
Proof.
  intros element.
  pose (r := Examples.run 5 (Examples.page [Examples.img_a; Examples.div_b] None)).
  apply (proj2 (@shadow_and_css_elements_skip_source_rules Examples.bySelectorCount _
                  Examples.scriptedDriver)
           5%nat Examples.networkRecords
           (initialState (Examples.page [Examples.img_a; Examples.div_b] None))
           r.2 (match r.1 with Resolved out => out | Rejected _ => [] end) element).
  - vm_compute. reflexivity.
  - vm_compute. left.
  - right. reflexivity.
Defined.

(** ** Protocol errors *)

Section ProtocolErrors.
Context `{SelectorSpecificity} `{Driver B}.





End ProtocolErrors.



(** ** The protocol domains *)

(** C9, as stated, fails on the code: in a pass that a protocol error
    aborts inside the loop, both domains are enabled and neither is
    disabled. *)
Lemma aborted_pass_disables_nothing :
  let r := Examples.run 5
             (Examples.page [Examples.img_a; Examples.div_b] (Some "Target closed")) in
  r.1 = Rejected {| message := "Target closed" |}
  /\ List.filter is_domain_switch (calls r.2) = [DOM_enable; CSS_enable].
Proof. vm_compute. split; reflexivity. Qed.

(** C9, amended: in every pass that returns, whatever the budget, the calls
    of the pass are the scan, then [DOM.enable], [CSS.enable] and
    [DOM.getDocument], then the calls of the loop, none of which switches a
    domain, then [DOM.disable] and [CSS.disable]. With a dependable driver
    every pass returns. *)
Theorem domains_bracket_completed_pass `{SelectorSpecificity} `{Driver B} :
  (forall budget networkRecords (s s' : PassState B) out,
      afterPass budget networkRecords s = (Resolved out, s') ->
      exists perElement,
        calls s' = calls s
                   ++ [Evaluate_collectImageElementInfo;
                       DOM_enable; CSS_enable; DOM_getDocument]
                   ++ perElement
                   ++ [DOM_disable; CSS_disable]
        /\ Forall per_element_call perElement
        /\ List.filter is_domain_switch perElement = [])
  /\ (Dependable B ->
      forall budget networkRecords (s : PassState B),
        exists out, (afterPass budget networkRecords s).1 = Resolved out).
Proof.
  split.
  - intros budget networkRecords s s' out Hpass.
    apply afterPass_inv in Hpass
      as (allElements & b0 & s1 & sk & s2 & _ & Hc1 & _ & Hloop & Hc' & _).
    destruct (enrichLoop_calls (indexNetworkRecords networkRecords) budget 0 0
                (sortedElements networkRecords allElements) s1)
      as (perElement & Hc2 & Hall).
    rewrite Hloop in Hc2. simpl in Hc2.
    exists perElement. split; [|split; [done|]].
    + rewrite Hc', Hc2, Hc1. by rewrite <- !app_assoc.
    + clear -Hall. induction Hall as [|c l Hc _ IH]; [done|].
      simpl. by destruct c.
  - intros Hd budget networkRecords s. by apply afterPass_resolves.
Qed.

Lemma domains_bracket_completed_pass_witness :
  let b := Examples.page
             [Examples.img_a; Examples.div_b; Examples.div_b'; Examples.div_c] None in
  exists perElement,
    calls (Examples.run 1 b).2
    = [] ++ [Evaluate_collectImageElementInfo; DOM_enable; CSS_enable; DOM_getDocument]
         ++ perElement ++ [DOM_disable; CSS_disable]
    /\ Forall per_element_call perElement
    /\ List.filter is_domain_switch perElement = [].
Proof.
  intros b. pose (r := Examples.run 1 b).
  apply (proj1 (@domains_bracket_completed_pass Examples.bySelectorCount _
                  Examples.scriptedDriver)
           1%nat Examples.networkRecords (initialState b) r.2
           (match r.1 with Resolved out => out | Rejected _ => [] end)).
  vm_compute. reflexivity.
Defined.

(** ** The cascade *)

Lemma returned_if_truthy_Declares style property v :
  returned_if_truthy (findSizeDeclaration style property) = Some v
  <-> Declares style property v.
Proof.
  unfold Declares. destruct (findSizeDeclaration style property) as [w|]; simpl.
  - destruct w as [|c w]; simpl.
    + split; [discriminate | by intros [[= <-] ?]].
    + split; [by intros [= <-] | by intros [[= <-] _]].
  - split; [discriminate | by intros [? _]].
Qed.

Lemma returned_if_truthy_Undeclared style property :
  returned_if_truthy (findSizeDeclaration style property) = None
  <-> Undeclared style property.
Proof.
  unfold Undeclared. destruct (findSizeDeclaration style property) as [w|]; simpl.
  - destruct w as [|c w]; simpl.
    + split; [by intros _ v [= <-] | done].
    + split; [discriminate | intros Hv; by specialize (Hv _ eq_refl)].
  - split; [by intros _ v | done].
Qed.

Lemma truthy_opt_Declares style property :
  truthy_opt (findSizeDeclaration style property) = true
  <-> exists v, Declares style property v.
Proof.
  unfold Declares. destruct (findSizeDeclaration style property) as [w|]; simpl.
  - rewrite truthy_spec. split; [eauto | by intros (v & [= <-] & ?)].
  - split; [discriminate | by intros (v & ? & _)].
Qed.

Section MostSpecific.
Context `{SelectorSpecificity}.
Variable interest : Crdp.RuleMatch -> bool.

(** The choice behind [findMostSpecificMatchedCSSRule]: no rule when none
    is of interest; otherwise a rule of interest that no earlier rule of
    interest exceeds and every later one falls short of. *)
Lemma most_specific_fold rules :
  let keep best m :=
    if interest m then
      match best with
      | None => Some m
      | Some b => if specificityOf b <=? specificityOf m then Some m else Some b
      end
    else best in
  match fold_left keep rules None with
  | None => forall m, m ∈ rules -> interest m = false
  | Some best =>
      exists before after,
        rules = before ++ best :: after
        /\ interest best = true
        /\ (forall m, m ∈ before -> interest m = true ->
            specificityOf m <= specificityOf best)
        /\ (forall m, m ∈ after -> interest m = true ->
            specificityOf m < specificityOf best)
  end.
Proof.
  intros keep. induction rules as [|x l IH] using rev_ind.
  - simpl. by intros m ?%elem_of_nil.
  - rewrite fold_left_app. simpl. unfold keep at 1.
    destruct (interest x) eqn:Hx.
    + destruct (fold_left keep l None) as [b|].
      * destruct IH as (bf & af & -> & Hb & Hbf & Haf).
        destruct (Z.leb_spec (specificityOf b) (specificityOf x)) as [Hle|Hlt].
        -- exists (bf ++ b :: af), []. split; [done|]. split; [done|].
           split; [|by intros m ?%elem_of_nil].
           intros m [Hm|[->|Hm]%elem_of_cons]%elem_of_app Hi.
           ++ specialize (Hbf m Hm Hi). lia.
           ++ done.
           ++ specialize (Haf m Hm Hi). lia.
        -- exists bf, (af ++ [x]). split; [by rewrite <- app_assoc|].
           split; [done|]. split; [done|].
           intros m [Hm|Hm%list_elem_of_singleton]%elem_of_app Hi;
             [by apply Haf | by subst].
      * exists l, []. split; [done|]. split; [done|].
        split; [|by intros m ?%elem_of_nil].
        intros m Hm Hi. rewrite (IH m Hm) in Hi. discriminate.
    + destruct (fold_left keep l None) as [b|].
      * destruct IH as (bf & af & -> & Hb & Hbf & Haf).
        exists bf, (af ++ [x]). split; [by rewrite <- app_assoc|].
        split; [done|]. split; [done|].
        intros m [Hm|Hm%list_elem_of_singleton]%elem_of_app Hi;
          [by apply Haf | subst; congruence].
      * intros m [Hm|Hm%list_elem_of_singleton]%elem_of_app;
          [by apply IH | by subst].
Qed.

End MostSpecific.

Section Cascade.
Context `{SelectorSpecificity}.

(** The third source: the value of the chosen rule, and where the rule
    stands among the matched rules. *)
Lemma findMostSpecificCSSRule_spec matchedCSSRules property :
  let rules := default [] matchedCSSRules in
  let declaring m := exists v, Declares (styleOf m) property v in
  match returned_if_truthy (findMostSpecificCSSRule matchedCSSRules property) with
  | None => forall m, m ∈ rules -> ~ declaring m
  | Some v =>
      exists before best after,
        rules = before ++ best :: after
        /\ Declares (styleOf best) property v
        /\ (forall m, m ∈ before -> declaring m -> specificityOf m <= specificityOf best)
        /\ (forall m, m ∈ after -> declaring m -> specificityOf m < specificityOf best)
  end.
Proof.
  intros rules declaring.
  pose (interest := fun m : Crdp.RuleMatch =>
          truthy_opt (findSizeDeclaration (styleOf m) property)).
  assert (Hinterest : forall m, interest m = true <-> declaring m).
  { intros m. apply truthy_opt_Declares. }
  pose proof (most_specific_fold interest rules) as Hfold. cbv zeta in Hfold.
  unfold findMostSpecificCSSRule, FontSize.findMostSpecificMatchedCSSRule.
  fold rules. unfold interest, styleOf in Hfold.
  destruct (fold_left _ rules None) as [best|].
  - destruct Hfold as (before & after & Hrules & Hbest & Hbefore & Hafter).
    apply (Hinterest best) in Hbest as [v Hv].
    fold (styleOf best). rewrite (proj2 (returned_if_truthy_Declares _ _ _) Hv).
    exists before, best, after. split; [done|]. split; [done|]. split.
    + intros m Hm Hd. apply Hbefore; [done|]. by apply (Hinterest m).
    + intros m Hm Hd. apply Hafter; [done|]. by apply (Hinterest m).
  - simpl. intros m Hm Hd. apply (Hinterest m) in Hd.
    unfold interest, styleOf in Hd. rewrite (Hfold m Hm) in Hd. discriminate.
Qed.

End Cascade.

(** C5, as stated, fails on the code: an inline declaration of [width]
    with an empty value is passed over for the attribute-derived one, and
    when it is the only declaration the result is absent although the
    property was found. *)
Lemma empty_inline_declaration_is_passed_over :
  findSizeDeclaration (Crdp.inlineStyle Examples.styles_empty_inline) "width" = Some ""
  /\ @getEffectiveSizingRule Examples.bySelectorCount Examples.styles_empty_inline "width"
     = notNull "10px"
  /\ @getEffectiveSizingRule Examples.bySelectorCount
       {| Crdp.inlineStyle := Some (Examples.declaration "width" "");
          Crdp.attributesStyle := None;
          Crdp.matchedCSSRules := None |} "width"
     = null.
Proof. vm_compute. repeat split. Qed.

(** C5, amended: count a source as declaring the property only when its
    first declaration of that name has a non-empty value. Then the
    effective rule is the inline value if the inline style declares the
    property; else the attribute-derived value if that style declares it;
    else the value of the most specific matched rule that declares it, the
    later rule winning a tie; and [null] if no source declares it, which
    [fetchSourceRules] stores as [null] in the pair and as [undefined] in
    [cssWidth] and [cssHeight]. *)
Theorem effective_sizing_precedence `{SelectorSpecificity} `{Driver B}
    (matched : Crdp.GetMatchedStylesForNodeResponse) (property : string) :
  let inline := Crdp.inlineStyle matched in
  let attribute := Crdp.attributesStyle matched in
  let rules := default [] (Crdp.matchedCSSRules matched) in
  let declaring m := exists v, Declares (styleOf m) property v in
  (forall v, Declares inline property v ->
             getEffectiveSizingRule matched property = notNull v)
  /\ (Undeclared inline property ->
      forall v, Declares attribute property v ->
                getEffectiveSizingRule matched property = notNull v)
  /\ (Undeclared inline property -> Undeclared attribute property ->
      forall m, m ∈ rules -> declaring m ->
      exists before best after v,
        rules = before ++ best :: after
        /\ Declares (styleOf best) property v
        /\ (forall m', m' ∈ before -> declaring m' ->
            specificityOf m' <= specificityOf best)
        /\ (forall m', m' ∈ after -> declaring m' ->
            specificityOf m' < specificityOf best)
        /\ getEffectiveSizingRule matched property = notNull v)
  /\ (Undeclared inline property -> Undeclared attribute property ->
      (forall m, m ∈ rules -> ~ declaring m) ->
      getEffectiveSizingRule matched property = null
      /\ null_to_undefined (getEffectiveSizingRule matched property) = None)
  /\ (forall path (element : ImageElement.t) (s : PassState B) nodeId b1 b2,
        pushNodeByPathToFrontend path (browser s) = (Resolved nodeId, b1) ->
        nodeId <> 0 ->
        getMatchedStylesForNode nodeId b1 = (Resolved matched, b2) ->
        (fetchSourceRules path element s).1
        = Resolved
            (ImageElement.set_css
               (null_to_undefined (getEffectiveSizingRule matched "width"))
               (null_to_undefined (getEffectiveSizingRule matched "height"))
               {| width := getEffectiveSizingRule matched "width";
                  height := getEffectiveSizingRule matched "height" |}
               element)).
Proof.
  intros inline attribute rules declaring.
  pose proof (findMostSpecificCSSRule_spec (Crdp.matchedCSSRules matched) property)
    as Hrules. cbv zeta in Hrules. fold rules in Hrules.
  unfold getEffectiveSizingRule. fold inline attribute.
  split; [|split; [|split; [|split]]].
  - intros v Hv. by rewrite (proj2 (returned_if_truthy_Declares _ _ _) Hv).
  - intros Hinline v Hv.
    rewrite (proj2 (returned_if_truthy_Undeclared _ _) Hinline).
    by rewrite (proj2 (returned_if_truthy_Declares _ _ _) Hv).
  - intros Hinline Hattribute m Hm Hd.
    rewrite (proj2 (returned_if_truthy_Undeclared _ _) Hinline).
    rewrite (proj2 (returned_if_truthy_Undeclared _ _) Hattribute).
    destruct (returned_if_truthy (findMostSpecificCSSRule _ _)) as [v|].
    + destruct Hrules as (before & best & after & Hsplit & Hbest & Hbefore & Hafter).
      exists before, best, after, v. by do 4 (split; [done|]).
    + by destruct (Hrules m Hm).
  - intros Hinline Hattribute Hnone.
    rewrite (proj2 (returned_if_truthy_Undeclared _ _) Hinline).
    rewrite (proj2 (returned_if_truthy_Undeclared _ _) Hattribute).
    destruct (returned_if_truthy (findMostSpecificCSSRule _ _)) as [v|]; [|done].
    destruct Hrules as (before & best & after & Hsplit & Hbest & _).
    destruct (Hnone best); [|by exists v].
    rewrite Hsplit. apply elem_of_app. right. left.
  - intros path element s nodeId b1 b2 Hpush Hnode Hstyles.
    unfold fetchSourceRules. unfold_async. simpl.
    rewrite Hpush. simpl. rewrite (proj2 (Z.eqb_neq _ _) Hnode). simpl.
    by rewrite Hstyles.
Qed.

Lemma effective_sizing_precedence_witness :
  @getEffectiveSizingRule Examples.bySelectorCount Examples.styles_all "width"
  = notNull "1px".
Proof.
  apply (proj1 (@effective_sizing_precedence Examples.bySelectorCount _
                  Examples.scriptedDriver Examples.styles_all "width") "1px").
  split; [reflexivity | discriminate].
Defined.

(** ** Concrete runs *)

(** The patterns of the source on sample strings. *)
Example No_node_found_samples :
  test_No_node_found "No node with given id found" = true
  /\ test_No_node_found "Protocol error: No node found for given path" = true
  /\ test_No_node_found "Target closed" = false
  /\ test_No_node_found "found, but No node" = false
  /\ test_No_node_found (String.append "No node" (String (ascii_of_nat 10) "found")) = false.
Proof. vm_compute. repeat split. Qed.

Example image_patterns_samples :
  test_image "image/png" = true
  /\ test_image "application/octet-stream" = false
  /\ test_image "text/image" = false
  /\ test_avif_webp "https://example.com/photo.WebP" = true
  /\ test_avif_webp "https://example.com/photo.avif" = true
  /\ test_avif_webp "https://example.com/photo.webp?v=2" = false
  /\ test_avif_webp "https://example.com/photo.png" = false.
Proof. vm_compute. repeat split. Qed.

Example CSS_URL_REGEX_samples :
  match_CSS_URL_REGEX (Examples.css_url Examples.b_jpg) = Some Examples.b_jpg
  /\ match_CSS_URL_REGEX "none" = None
  /\ match_CSS_URL_REGEX (Examples.css_url "") = None
  /\ match_CSS_URL_REGEX
       (String.append (Examples.css_url Examples.b_jpg)
          (String.append ", " (Examples.css_url Examples.c_gif))) = None.
Proof. vm_compute. repeat split. Qed.

(** An [img] with a [srcset], and one inside a [picture], are scanned
    without a natural size; a plain one keeps the size of the element. *)
Example scan_samples :
  ImageElement.naturalWidth Examples.element_a = Some 40
  /\ ImageElement.naturalHeight Examples.element_a = Some 30
  /\ ImageElement.naturalWidth
       (htmlImage (Examples.img Examples.a_png "a.png 1x, a2.png 2x" "BODY" "p" 40 30))
     = None
  /\ ImageElement.naturalWidth
       (htmlImage (Examples.img Examples.a_png "" "PICTURE" "p" 40 30))
     = None.
Proof. vm_compute. repeat split. Qed.

(** One [img] showing [a.png] (500 bytes) and one background [b.jpg]
    (2000 bytes): the pass returns the background first, with the size the
    probe decoded, then the [img] with the size the scan read and the inline
    width; the cache holds [b.jpg]. *)
Example end_to_end :
  let r := Examples.run 5 (Examples.page [Examples.img_a; Examples.div_b] None) in
  (match r.1 with
   | Resolved out =>
       List.map (fun e => (ImageElement.src e,
                           ImageElement.naturalWidth e,
                           ImageElement.naturalHeight e,
                           ImageElement.cssWidth e,
                           ImageElement.mimeType e)) out
   | Rejected _ => []
   end)
  = [(Examples.b_jpg, Some 640, Some 480, None, Some "image/jpeg");
     (Examples.a_png, Some 40, Some 30, Some "1px", Some "image/png")]
  /\ _naturalSizeCache r.2 !! Examples.b_jpg
     = Some {| naturalWidth := 640; naturalHeight := 480 |}
  /\ calls r.2
     = [Evaluate_collectImageElementInfo; DOM_enable; CSS_enable; DOM_getDocument;
        SetNextProtocolTimeout 250; Evaluate_determineNaturalSize Examples.b_jpg;
        DOM_pushNodeByPathToFrontend "1,HTML,1,BODY,0,IMG";
        CSS_getMatchedStylesForNode 7;
        DOM_disable; CSS_disable]
  /\ warnings r.2 = [].
Proof. vm_compute. repeat split. Qed.

(** * Further properties *)

(** ** The background-image pattern *)

Lemma until_dquote_spec s u rest :
  until_dquote s = Some (u, rest) <-> s = u +:+ String dquote rest /\ quote_free u.
Proof.
  revert u. induction s as [|c s IH]; intros u; simpl.
  - split; [discriminate|]. intros [Hs _]. destruct u; discriminate.
  - destruct (Ascii.eqb_spec c dquote) as [->|Hc].
    + split.
      * intros [= <- <-]. split; [reflexivity|]. intros a b Hab. destruct a; discriminate.
      * intros [Hs Hfree]. destruct u as [|c' u].
        -- rewrite append_nil_l in Hs. by injection Hs as <-.
        -- rewrite append_cons in Hs. injection Hs as <- _.
           destruct (Hfree "" u). reflexivity.
    + split.
      * destruct (until_dquote s) as [[u' rest']|] eqn:E; [|discriminate].
        intros [= <- <-]. destruct (proj1 (IH u') eq_refl) as [-> Hfree].
        split; [reflexivity|].
        intros [|c' a] b Hab.
        -- rewrite append_nil_l in Hab. injection Hab as -> _. done.
        -- rewrite append_cons in Hab. injection Hab as _ Hab. by destruct (Hfree a b).
      * intros [Hs Hfree]. destruct u as [|c' u].
        -- rewrite append_nil_l in Hs. injection Hs as -> _. done.
        -- rewrite append_cons in Hs. injection Hs as <- ->.
           assert (E : until_dquote (u +:+ String dquote rest) = Some (u, rest)).
           { apply IH. split; [reflexivity|]. intros a b Hab.
             destruct (Hfree (String c a) b). by rewrite append_cons, Hab. }
           by rewrite E.
Qed.

Lemma until_dquote_None s : until_dquote s = None -> quote_free s.
Proof.
  intros Hs a b ->. revert Hs. induction a as [|c a IH].
  - rewrite append_nil_l. simpl. discriminate.
  - rewrite append_cons. simpl. destruct (Ascii.eqb c dquote); [done|].
    destruct (until_dquote (a +:+ String dquote b)) as [[u rest]|]; [done|].
    intros _. by apply IH.
Qed.

(** What [CSS_URL_REGEX] accepts, and what it captures. *)
Lemma match_CSS_URL_REGEX_iff (s u : string) :
  match_CSS_URL_REGEX s = Some u
  <-> s = quoted_url u /\ u <> "" /\ quote_free u.
Proof.
  unfold match_CSS_URL_REGEX, quoted_url. split.
  - destruct (Str.strip_prefix _ s) as [body|] eqn:Estrip; [|discriminate].
    apply strip_prefix_spec in Estrip.
    destruct (until_dquote body) as [[u' rest]|] eqn:Ebody; [|discriminate].
    apply until_dquote_spec in Ebody as [-> Hfree].
    destruct (Str.truthy u') eqn:Hu; [|discriminate].
    destruct (String.eqb_spec rest ")") as [->|]; [|discriminate].
    simpl. intros [= <-]. split; [exact Estrip|]. split; [|done].
    by apply truthy_spec.
  - intros (-> & Hu & Hfree).
    assert (Estrip : Str.strip_prefix (String.append "url(" (String dquote EmptyString))
                       ("url(" +:+ String dquote (u +:+ String dquote ")"))
                     = Some (u +:+ String dquote ")")).
    { by apply strip_prefix_spec. }
    rewrite Estrip.
    assert (Ebody : until_dquote (u +:+ String dquote ")") = Some (u, ")")).
    { by apply until_dquote_spec. }
    rewrite Ebody. by rewrite (proj2 (truthy_spec u) Hu).
Qed.

(** X1. [CSS_URL_REGEX] accepts exactly the strings of the form [url(],
    quote, [u], quote, [)] with [u] non-empty and free of quotes, and its
    capture group is [u]. *)
Theorem CSS_URL_REGEX_accepts_quoted_urls (s u : string) :
  match_CSS_URL_REGEX s = Some u
  <-> s = quoted_url u /\ u <> "" /\ quote_free u.
Proof. apply match_CSS_URL_REGEX_iff. Qed.

Lemma CSS_URL_REGEX_accepts_quoted_urls_witness :
  match_CSS_URL_REGEX (quoted_url Examples.b_jpg) = Some Examples.b_jpg.
Proof.
  apply (proj2 (CSS_URL_REGEX_accepts_quoted_urls (quoted_url Examples.b_jpg) Examples.b_jpg)).
  split; [reflexivity|]. split; [discriminate|].
  apply until_dquote_None. vm_compute. reflexivity.
Defined.

(** ** The scan of CSS backgrounds *)

(** X2. Every image [getCSSImages] reports comes from an element of the
    document whose computed background image is the quoted form of the
    image's [src], which is non-empty and free of quotes; it is marked as a
    CSS image outside any picture, and has no [srcset], no natural size and
    no attribute sizing. Conversely every element with such a background
    image is reported. *)
Theorem getCSSImages_reports_quoted_urls (allElements : list Dom.Element) :
  (forall image,
      image ∈ getCSSImages allElements ->
      exists element,
        element ∈ allElements
        /\ Dom.backgroundImage (Dom.computedStyle element)
           = quoted_url (ImageElement.src image)
        /\ ImageElement.src image <> ""
        /\ quote_free (ImageElement.src image)
        /\ image = cssImage element (ImageElement.src image)
        /\ ImageElement.isCss image = true
        /\ ImageElement.isPicture image = false
        /\ ImageElement.srcset image = ""
        /\ ImageElement.naturalWidth image = None
        /\ ImageElement.naturalHeight image = None
        /\ ImageElement.attributeWidth image = ""
        /\ ImageElement.attributeHeight image = "")
  /\ (forall element u,
        element ∈ allElements ->
        Dom.backgroundImage (Dom.computedStyle element) = quoted_url u ->
        u <> "" -> quote_free u ->
        cssImage element u ∈ getCSSImages allElements).
Proof.
  split.
  - induction allElements as [|element rest IH]; simpl; [by intros image ?%elem_of_nil|].
    intros image.
    destruct (match_CSS_URL_REGEX _) as [url|] eqn:Ematch.
    + intros [->|Hin]%elem_of_cons.
      * apply match_CSS_URL_REGEX_iff in Ematch as (Hbg & Hu & Hfree).
        exists element. split; [left|]. by repeat split.
      * destruct (IH image Hin) as (e & He & Hrest). exists e. split; [by right | done].
    + intros Hin. destruct (IH image Hin) as (e & He & Hrest).
      exists e. split; [by right | done].
  - intros element u Hin Hbg Hu Hfree.
    assert (Ematch : match_CSS_URL_REGEX (Dom.backgroundImage (Dom.computedStyle element))
                     = Some u) by (by apply match_CSS_URL_REGEX_iff).
    induction allElements as [|e rest IH]; [by apply elem_of_nil in Hin|].
    simpl. apply elem_of_cons in Hin as [<-|Hin].
    + rewrite Ematch. left.
    + destruct (match_CSS_URL_REGEX (Dom.backgroundImage (Dom.computedStyle e)));
        [right|]; by apply IH.
Qed.

Lemma getCSSImages_reports_quoted_urls_witness :
  cssImage Examples.div_b Examples.b_jpg
  ∈ getCSSImages [Examples.img_a; Examples.div_b].
Proof.
  apply (proj2 (getCSSImages_reports_quoted_urls [Examples.img_a; Examples.div_b])
           Examples.div_b Examples.b_jpg).
  - right. left.
  - reflexivity.
  - discriminate.
  - apply until_dquote_None. vm_compute. reflexivity.
Defined.

(** ** The scan as a whole *)

Lemma getCSSImages_length allElements :
  length (getCSSImages allElements)
  = length (List.filter
              (fun element =>
                 match match_CSS_URL_REGEX
                         (Dom.backgroundImage (Dom.computedStyle element)) with
                 | Some _ => true
                 | None => false
                 end) allElements).
Proof.
  induction allElements as [|element rest IH]; simpl; [done|].
  destruct (match_CSS_URL_REGEX _); simpl; by rewrite IH.
Qed.

(** X3. The scan lists the images of the [img] elements first, in
    document order, then those of the elements with a background image:
    one record per [img] element and one per element whose background image
    matches, so that an [img] with such a background is listed twice. *)
Theorem collectImageElementInfo_structure (allElements : list Dom.Element) :
  exists html css,
    collectImageElementInfo allElements = html ++ css
    /\ html = List.map htmlImage
                (List.filter (fun element => String.eqb (Dom.localName element) "img")
                   allElements)
    /\ Forall (fun image => ImageElement.isCss image = false) html
    /\ Forall (fun image => ImageElement.isCss image = true) css
    /\ length css
       = length (List.filter
                   (fun element =>
                      match match_CSS_URL_REGEX
                              (Dom.backgroundImage (Dom.computedStyle element)) with
                      | Some _ => true
                      | None => false
                      end) allElements)
    /\ forall a b, collectImageElementInfo (a ++ b)
                   = getHTMLImages a ++ getHTMLImages b
                     ++ getCSSImages a ++ getCSSImages b.
Proof.
  exists (getHTMLImages allElements), (getCSSImages allElements).
  split; [done|]. split; [done|]. split; [|split; [|split]].
  - apply Forall_forall. intros image Himage.
    by apply getHTMLImages_spec in Himage as (element & _ & _ & ->).
  - apply Forall_forall. intros image Himage.
    by apply getCSSImages_spec in Himage as (element & url & _ & ->).
  - apply getCSSImages_length.
  - intros a b. unfold collectImageElementInfo, getHTMLImages.
    rewrite List.filter_app, List.map_app, <- !app_assoc. do 2 f_equal.
    induction a as [|element a IH]; simpl; [done|].
    destruct (match_CSS_URL_REGEX _); simpl; by rewrite IH.
Qed.

(** ** Declarations *)

(** X4. [findSizeDeclaration] returns the value of the first declaration
    with the given name: later declarations of the same property are not
    looked at, and the result is [undefined] exactly when the style, or its
    property list, is missing or no declaration has that name. *)
Theorem findSizeDeclaration_first (rule : option Crdp.CSSStyle) (property : string) :
  (forall v,
      findSizeDeclaration rule property = Some v <->
      exists style before d after,
        rule = Some style
        /\ Crdp.cssProperties style = Some (before ++ d :: after)
        /\ Crdp.name d = property
        /\ Crdp.value d = v
        /\ Forall (fun d' => Crdp.name d' <> property) before)
  /\ (findSizeDeclaration rule property = None <->
      forall style props,
        rule = Some style -> Crdp.cssProperties style = Some props ->
        Forall (fun d' => Crdp.name d' <> property) props).
Proof.
  assert (Hfind : forall props,
             match List.find (fun p => String.eqb (Crdp.name p) property) props with
             | Some d =>
                 exists before after,
                   props = before ++ d :: after
                   /\ Crdp.name d = property
                   /\ Forall (fun d' => Crdp.name d' <> property) before
             | None => Forall (fun d' => Crdp.name d' <> property) props
             end).
  { induction props as [|p props IH]; simpl; [constructor|].
    destruct (String.eqb_spec (Crdp.name p) property) as [Hp|Hp].
    - exists [], props. by repeat split.
    - destruct (List.find _ props) as [d|].
      + destruct IH as (before & after & -> & Hd & Hbefore).
        exists (p :: before), after. split; [done|]. split; [done|]. by constructor.
      + by constructor. }
  assert (Hunique : forall before d after before' d' after',
             before ++ d :: after = before' ++ d' :: after' ->
             Crdp.name d = property -> Crdp.name d' = property ->
             Forall (fun x => Crdp.name x <> property) before ->
             Forall (fun x => Crdp.name x <> property) before' ->
             d = d').
  { induction before as [|x before IH]; intros d after [|x' before'] d' after'
      Heq Hd Hd' Hb Hb'; simpl in Heq.
    - by injection Heq.
    - injection Heq as <- _. by apply Forall_inv in Hb'.
    - injection Heq as -> _. by apply Forall_inv in Hb.
    - injection Heq as _ Heq. apply Forall_inv_tail in Hb, Hb'. eauto. }
  unfold findSizeDeclaration. destruct rule as [style|].
  - destruct (Crdp.cssProperties style) as [props|] eqn:Eprops.
    + specialize (Hfind props). destruct (List.find _ props) as [d|]; split.
      * intros v. destruct Hfind as (before & after & -> & Hd & Hbefore). split.
        -- intros [= <-]. exists style, before, d, after. by repeat split.
        -- intros (style' & before' & d' & after' & [= <-] & Hprops & Hd' & <- & Hbefore').
           rewrite Eprops in Hprops. injection Hprops as Hprops.
           by rewrite (Hunique _ _ _ _ _ _ Hprops Hd Hd' Hbefore Hbefore').
      * split; [discriminate|]. intros Hall.
        destruct Hfind as (before & after & -> & Hd & _).
        specialize (Hall style _ eq_refl Eprops).
        apply Forall_app in Hall as [_ Hall]. by apply Forall_inv in Hall.
      * intros v. split; [discriminate|].
        intros (style' & before & d & after & [= <-] & Hprops & Hd & _).
        rewrite Eprops in Hprops. injection Hprops as ->.
        apply Forall_app in Hfind as [_ Hfind]. by apply Forall_inv in Hfind.
      * split; [|done]. intros _ style' props' [= <-] Hprops. congruence.
    + split.
      * intros v. split; [discriminate|].
        intros (style' & before & d & after & [= <-] & Hprops & _). congruence.
      * split; [|done]. intros _ style' props' [= <-] Hprops. congruence.
  - split.
    + intros v. split; [discriminate|]. by intros (style & ? & ? & ? & ? & _).
    + split; [|done]. by intros _ style props ?.
Qed.

(** ** The effective rule *)

(** X5. The effective sizing rule is never the empty string: it is either
    [null] or a non-empty value that the inline style, the attribute style
    or one of the matched rules declares for the property. It is [null]
    exactly when none of them declares the property with a non-empty
    value, so the compatibility field is never the empty string either. *)
Theorem effective_sizing_is_declared `{SelectorSpecificity}
    (matched : Crdp.GetMatchedStylesForNodeResponse) (property : string) :
  let rules := default [] (Crdp.matchedCSSRules matched) in
  (forall v,
      getEffectiveSizingRule matched property = notNull v ->
      v <> ""
      /\ (Declares (Crdp.inlineStyle matched) property v
          \/ Declares (Crdp.attributesStyle matched) property v
          \/ exists m, m ∈ rules /\ Declares (styleOf m) property v))
  /\ (getEffectiveSizingRule matched property = null <->
      Undeclared (Crdp.inlineStyle matched) property
      /\ Undeclared (Crdp.attributesStyle matched) property
      /\ forall m, m ∈ rules -> ~ exists v, Declares (styleOf m) property v)
  /\ null_to_undefined (getEffectiveSizingRule matched property) <> Some "".
Proof.
  intros rules.
  pose proof (findMostSpecificCSSRule_spec (Crdp.matchedCSSRules matched) property)
    as Hrules. cbv zeta in Hrules. fold rules in Hrules.
  assert (Hcases :
    (exists v, getEffectiveSizingRule matched property = notNull v
               /\ (Declares (Crdp.inlineStyle matched) property v
                   \/ Declares (Crdp.attributesStyle matched) property v
                   \/ exists m, m ∈ rules /\ Declares (styleOf m) property v))
    \/ (getEffectiveSizingRule matched property = null
        /\ Undeclared (Crdp.inlineStyle matched) property
        /\ Undeclared (Crdp.attributesStyle matched) property
        /\ forall m, m ∈ rules -> ~ exists v, Declares (styleOf m) property v)).
  { unfold getEffectiveSizingRule.
    destruct (returned_if_truthy (findSizeDeclaration (Crdp.inlineStyle matched) _))
      as [v|] eqn:Einline.
    { apply returned_if_truthy_Declares in Einline. left. exists v. eauto. }
    apply returned_if_truthy_Undeclared in Einline.
    destruct (returned_if_truthy (findSizeDeclaration (Crdp.attributesStyle matched) _))
      as [v|] eqn:Eattr.
    { apply returned_if_truthy_Declares in Eattr. left. exists v. eauto. }
    apply returned_if_truthy_Undeclared in Eattr.
    destruct (returned_if_truthy (findMostSpecificCSSRule _ _)) as [v|].
    - destruct Hrules as (before & best & after & Hsplit & Hbest & _).
      left. exists v. split; [done|]. right. right. exists best. split; [|done].
      rewrite Hsplit. apply elem_of_app. right. left.
    - right. by repeat split. }
  split; [|split].
  - intros v Hv. destruct Hcases as [(v' & Hv' & Hsrc)|(Hnull & _)]; [|congruence].
    assert (v' = v) as -> by congruence.
    split; [|done]. destruct Hsrc as [[_ ?]|[[_ ?]|(m & _ & _ & ?)]]; done.
  - split.
    + intros Hnull. destruct Hcases as [(v' & Hv' & _)|(_ & Hrest)]; [congruence | done].
    + intros (Hinline & Hattr & Hnone).
      destruct Hcases as [(v & Hv & Hsrc)|(Hnull & _)]; [|done].
      destruct Hsrc as [[Hf Hne]|[[Hf Hne]|(m & Hm & Hd)]].
      * by destruct Hne, (Hinline v Hf).
      * by destruct Hne, (Hattr v Hf).
      * destruct (Hnone m Hm). eauto.
  - destruct Hcases as [(v & -> & Hsrc)|(-> & _)]; [|done]. simpl.
    intros [= ->]. destruct Hsrc as [[_ ?]|[[_ ?]|(m & _ & _ & ?)]]; done.
Qed.

(** ** The natural-size resolver *)

(** The outcomes of [fetchElementWithSizeInformation], by the answer of
    the probe. *)
Lemma fetchElementWithSizeInformation_cases `{Driver B}
    (element : ImageElement.t) (s : PassState B) :
  let url := ImageElement.src element in
  let r := fetchElementWithSizeInformation element s in
  exists element',
    r.1 = Resolved element'
    /\ same_scanned_fields element element'
    /\ ImageElement.mimeType element' = ImageElement.mimeType element
    /\ ImageElement.cssWidth element' = ImageElement.cssWidth element
    /\ ImageElement.cssHeight element' = ImageElement.cssHeight element
    /\ ImageElement._privateCssSizing element' = ImageElement._privateCssSizing element
    /\ (forall size b,
          determineNaturalSize url (browser s) = (Resolved size, b) ->
          element' = assign size element
          /\ _naturalSizeCache r.2 !! url = Some size
          /\ forall u, u <> url -> _naturalSizeCache r.2 !! u = _naturalSizeCache s !! u)
    /\ (forall err b,
          determineNaturalSize url (browser s) = (Rejected err, b) ->
          _naturalSizeCache r.2 = _naturalSizeCache s
          /\ element' = match _naturalSizeCache s !! url with
                        | Some cached => assign cached element
                        | None => element
                        end).
Proof.
  intros url r. subst r url.
  unfold fetchElementWithSizeInformation. unfold_async. simpl.
  destruct (determineNaturalSize _ _) as [[size|err] b] eqn:Eprobe; simpl.
  - exists (assign size element).
    split; [by destruct (_naturalSizeCache s !! _)|].
    split; [by repeat split|]. do 4 (split; [done|]). split.
    + intros size' b' [= <- <-]. split; [done|]. split.
      * apply lookup_insert_eq.
      * intros u Hu. by apply lookup_insert_ne.
    + intros err b' [=].
  - exists (match _naturalSizeCache s !! ImageElement.src element with
            | Some cached => assign cached element
            | None => element
            end).
    split; [done|].
    destruct (_naturalSizeCache s !! ImageElement.src element) as [cached|];
      (split; [by repeat split|]); do 4 (split; [done|]);
      (split; [intros size b' [=] | by intros err' b' _]).
Qed.

(** X6. [fetchElementWithSizeInformation] never throws. If the probe
    resolves, the element gets the decoded size and the cache maps the URL
    to it, its other entries untouched. If the probe is rejected, the cache
    is as before, and the element is unchanged on a cache miss and carries
    the cached size on a hit. Nothing else of the element changes. *)
Theorem fetchElementWithSizeInformation_outcome `{Driver B}
    (element : ImageElement.t) (s : PassState B) :
  let url := ImageElement.src element in
  let r := fetchElementWithSizeInformation element s in
  exists element',
    r.1 = Resolved element'
    /\ same_scanned_fields element element'
    /\ ImageElement.mimeType element' = ImageElement.mimeType element
    /\ ImageElement.cssWidth element' = ImageElement.cssWidth element
    /\ ImageElement.cssHeight element' = ImageElement.cssHeight element
    /\ ImageElement._privateCssSizing element' = ImageElement._privateCssSizing element
    /\ (forall size b,
          determineNaturalSize url (browser s) = (Resolved size, b) ->
          element' = assign size element
          /\ _naturalSizeCache r.2 !! url = Some size
          /\ forall u, u <> url -> _naturalSizeCache r.2 !! u = _naturalSizeCache s !! u)
    /\ (forall err b,
          determineNaturalSize url (browser s) = (Rejected err, b) ->
          _naturalSizeCache r.2 = _naturalSizeCache s
          /\ element' = match _naturalSizeCache s !! url with
                        | Some cached => assign cached element
                        | None => element
                        end).
Proof. apply fetchElementWithSizeInformation_cases. Qed.

Lemma fetchElementWithSizeInformation_outcome_witness :
  let r := @fetchElementWithSizeInformation _ Examples.scriptedDriver Examples.element_b
             (initialState (Examples.page [Examples.div_b] None)) in
  r.1 = Resolved (assign {| naturalWidth := 640; naturalHeight := 480 |} Examples.element_b)
  /\ _naturalSizeCache r.2 !! Examples.b_jpg
     = Some {| naturalWidth := 640; naturalHeight := 480 |}.
Proof.
  destruct (@fetchElementWithSizeInformation_outcome _ Examples.scriptedDriver
              Examples.element_b (initialState (Examples.page [Examples.div_b] None)))
    as (element' & Hr & _ & _ & _ & _ & _ & Hok & _).
  destruct (Hok {| naturalWidth := 640; naturalHeight := 480 |}
              (Examples.page [Examples.div_b] None) eq_refl) as (He & Hcache & _).
  cbv zeta. rewrite Hr, He. split; [reflexivity | exact Hcache].
Defined.

(** X7. What the cache is good for: once a probe of a URL has succeeded,
    a later resolution of an element with the same URL whose own probe
    fails still returns the element with the size decoded before. *)
Theorem cache_serves_failed_probe `{Driver B}
    (first second : ImageElement.t) (s : PassState B) size b1 err b2 :
  ImageElement.src second = ImageElement.src first ->
  determineNaturalSize (ImageElement.src first) (browser s) = (Resolved size, b1) ->
  determineNaturalSize (ImageElement.src first) b1 = (Rejected err, b2) ->
  (fetchElementWithSizeInformation second
     (fetchElementWithSizeInformation first s).2).1
  = Resolved (assign size second).
Proof.
  intros Hsrc Hfirst Hsecond.
  unfold fetchElementWithSizeInformation. unfold_async. simpl.
  rewrite Hsrc, Hfirst. simpl. rewrite Hsecond. simpl.
  by rewrite lookup_insert_eq.
Qed.

Lemma cache_serves_failed_probe_witness :
  (@fetchElementWithSizeInformation _ Flaky.driver
     (cssImage Examples.div_b' Examples.b_jpg)
     (@fetchElementWithSizeInformation _ Flaky.driver Examples.element_b
        (initialState 0%nat)).2).1
  = Resolved (assign {| naturalWidth := 640; naturalHeight := 480 |}
                (cssImage Examples.div_b' Examples.b_jpg)).
Proof.
  apply (@cache_serves_failed_probe _ Flaky.driver Examples.element_b
           (cssImage Examples.div_b' Examples.b_jpg) (initialState 0%nat)
           {| naturalWidth := 640; naturalHeight := 480 |} 1%nat
           {| message := "determineNaturalSize failed img load" |} 2%nat);
    reflexivity.
Defined.

(** ** The CSS sizing resolver *)

Lemma fetchSourceRules_cache `{SelectorSpecificity} `{Driver B} path
    (element : ImageElement.t) (s : PassState B) :
  _naturalSizeCache (fetchSourceRules path element s).2 = _naturalSizeCache s.
Proof.
  unfold fetchSourceRules. unfold_async. simpl.
  destruct (pushNodeByPathToFrontend _ _) as [[nodeId|err] b]; simpl.
  - destruct (nodeId =? 0); simpl; [done|].
    destruct (getMatchedStylesForNode _ _) as [[m|err] b']; simpl; [done|].
    by destruct (test_No_node_found _).
  - by destruct (test_No_node_found _).
Qed.

Lemma set_css_scanned_fields w h sizing element :
  same_scanned_fields element (ImageElement.set_css w h sizing element).
Proof. by repeat split. Qed.

(** The outcomes of [fetchSourceRules]. *)
Lemma fetchSourceRules_cases `{SelectorSpecificity} `{Driver B}
    (path : string) (element : ImageElement.t) (s : PassState B) :
  let r := fetchSourceRules path element s in
  _naturalSizeCache r.2 = _naturalSizeCache s
  /\ (forall b, pushNodeByPathToFrontend path (browser s) = (Resolved 0, b) ->
                r.1 = Resolved element
                /\ calls r.2 = calls s ++ [DOM_pushNodeByPathToFrontend path])
  /\ (forall element',
        r.1 = Resolved element' ->
        same_scanned_fields element element'
        /\ ImageElement.mimeType element' = ImageElement.mimeType element
        /\ ImageElement.naturalWidth element' = ImageElement.naturalWidth element
        /\ ImageElement.naturalHeight element' = ImageElement.naturalHeight element
        /\ (css_consistent element -> css_consistent element')).
Proof.
  intros r. subst r. split; [apply fetchSourceRules_cache|]. split.
  - intros b Hpush. unfold fetchSourceRules. unfold_async. simpl.
    by rewrite Hpush.
  - intros element'. unfold fetchSourceRules. unfold_async. simpl.
    destruct (pushNodeByPathToFrontend _ _) as [[nodeId|err] b]; simpl.
    + destruct (nodeId =? 0); simpl; [intros [= <-]; by repeat split|].
      destruct (getMatchedStylesForNode _ _) as [[m|err] b']; simpl.
      * intros [= <-]. split; [apply set_css_scanned_fields|]. by repeat split.
      * destruct (test_No_node_found _); [intros [= <-]; by repeat split | discriminate].
    + destruct (test_No_node_found _); [intros [= <-]; by repeat split | discriminate].
Qed.

(** X8. [fetchSourceRules] never touches the natural-size cache. A node
    lookup that answers with node id 0 ends it after that one call, with the
    element as it was. Whenever it returns, the element differs from the
    one passed in at most in [cssWidth], [cssHeight] and the sizing pair,
    and these three agree with each other if they did before. *)
Theorem fetchSourceRules_outcome `{SelectorSpecificity} `{Driver B}
    (path : string) (element : ImageElement.t) (s : PassState B) :
  let r := fetchSourceRules path element s in
  _naturalSizeCache r.2 = _naturalSizeCache s
  /\ (forall b, pushNodeByPathToFrontend path (browser s) = (Resolved 0, b) ->
                r.1 = Resolved element
                /\ calls r.2 = calls s ++ [DOM_pushNodeByPathToFrontend path])
  /\ (forall element',
        r.1 = Resolved element' ->
        same_scanned_fields element element'
        /\ ImageElement.mimeType element' = ImageElement.mimeType element
        /\ ImageElement.naturalWidth element' = ImageElement.naturalWidth element
        /\ ImageElement.naturalHeight element' = ImageElement.naturalHeight element
        /\ (css_consistent element -> css_consistent element')).
Proof. apply fetchSourceRules_cases. Qed.

Lemma fetchSourceRules_outcome_witness :
  let r := @fetchSourceRules Examples.bySelectorCount _ Examples.scriptedDriver
             "no,such,path" Examples.element_a
             (initialState (Examples.page [Examples.img_a] None)) in
  r.1 = Resolved Examples.element_a
  /\ calls r.2 = [] ++ [DOM_pushNodeByPathToFrontend "no,such,path"].
Proof.
  apply (proj1 (proj2 (@fetchSourceRules_outcome Examples.bySelectorCount _
                         Examples.scriptedDriver "no,such,path" Examples.element_a
                         (initialState (Examples.page [Examples.img_a] None))))
           (Examples.page [Examples.img_a] None)).
  reflexivity.
Defined.

(** ** The pattern for a missing node *)

Lemma append_eq_nil (x y : string) : "" = x +:+ y -> x = "" /\ y = "".
Proof. destruct x; [by rewrite append_nil_l | by rewrite append_cons]. Qed.

Lemma dotstar_then_unfold lit s :
  Str.dotstar_then lit s
  = if Str.starts_with lit s then true
    else match s with
         | EmptyString => false
         | String _ s' =>
             if Str.line_terminator_at s then false else Str.dotstar_then lit s'
         end.
Proof. destruct s; reflexivity. Qed.

Lemma find_then_dotstar_unfold pre post s :
  Str.find_then_dotstar pre post s
  = match Str.strip_prefix pre s with
    | Some rest =>
        if Str.dotstar_then post rest then true
        else match s with
             | EmptyString => false
             | String _ s' => Str.find_then_dotstar pre post s'
             end
    | None =>
        match s with
        | EmptyString => false
        | String _ s' => Str.find_then_dotstar pre post s'
        end
    end.
Proof. destruct s; reflexivity. Qed.

Lemma dotstar_then_spec lit r :
  Str.dotstar_then lit r = true <->
  exists mid post,
    r = mid +:+ lit +:+ post
    /\ forall x y, mid = x +:+ y -> y <> "" ->
                   Str.line_terminator_at (y +:+ lit +:+ post) = false.
Proof.
  split.
  - induction r as [|c r IH]; rewrite dotstar_then_unfold.
    + destruct (Str.starts_with lit "") eqn:E; [|discriminate].
      apply starts_with_spec in E as [post E]. intros _. exists "", post.
      split; [exact E|]. intros x y Hxy Hy. by apply append_eq_nil in Hxy as [_ ->].
    + destruct (Str.starts_with lit (String c r)) eqn:E.
      * apply starts_with_spec in E as [post E]. intros _. exists "", post.
        split; [exact E|]. intros x y Hxy Hy. by apply append_eq_nil in Hxy as [_ ->].
      * destruct (Str.line_terminator_at (String c r)) eqn:Eline; [discriminate|].
        intros Hr. destruct (IH Hr) as (mid & post & -> & Hmid).
        exists (String c mid), post. split; [by rewrite append_cons|].
        intros [|c' x] y Hxy Hy.
        -- rewrite append_nil_l in Hxy. subst y. by rewrite append_cons.
        -- rewrite append_cons in Hxy. injection Hxy as _ Hxy. by apply (Hmid x).
  - intros (mid & post & -> & Hmid). induction mid as [|c mid IH].
    + rewrite append_nil_l, dotstar_then_unfold.
      by rewrite (proj2 (starts_with_spec lit (lit +:+ post))) by eauto.
    + rewrite append_cons, dotstar_then_unfold.
      destruct (Str.starts_with lit _); [done|].
      assert (Hline : Str.line_terminator_at (String c (mid +:+ lit +:+ post)) = false).
      { by apply (Hmid "" (String c mid)). }
      rewrite Hline. apply IH. intros x y Hxy Hy.
      apply (Hmid (String c x) y); [by rewrite append_cons, Hxy | done].
Qed.

Lemma find_then_dotstar_spec pre post s :
  Str.find_then_dotstar pre post s = true <->
  exists a r, s = a +:+ pre +:+ r /\ Str.dotstar_then post r = true.
Proof.
  split.
  - induction s as [|c s IH]; rewrite find_then_dotstar_unfold.
    + destruct (Str.strip_prefix pre "") as [rest|] eqn:E; [|discriminate].
      apply strip_prefix_spec in E.
      destruct (Str.dotstar_then post rest) eqn:Ed; [|discriminate].
      intros _. by exists "", rest.
    + assert (Htail : Str.find_then_dotstar pre post s = true ->
                      exists a r, String c s = a +:+ pre +:+ r
                                  /\ Str.dotstar_then post r = true).
      { intros Hs. destruct (IH Hs) as (a & r & -> & Hr).
        exists (String c a), r. by rewrite append_cons. }
      destruct (Str.strip_prefix pre (String c s)) as [rest|] eqn:E; [|done].
      apply strip_prefix_spec in E.
      destruct (Str.dotstar_then post rest) eqn:Ed; [|done].
      intros _. by exists "", rest.
  - intros (a & r & -> & Hr). induction a as [|c a IH].
    + rewrite append_nil_l, find_then_dotstar_unfold.
      by rewrite (proj2 (strip_prefix_spec pre (pre +:+ r) r)), Hr.
    + rewrite append_cons, find_then_dotstar_unfold.
      destruct (Str.strip_prefix pre _) as [rest|]; [|done].
      by destruct (Str.dotstar_then post rest).
Qed.

Lemma one_line_suffix x y : one_line (x +:+ y) -> one_line y.
Proof.
  induction x as [|c x IH]; [by rewrite append_nil_l|].
  rewrite append_cons. simpl. intros (_ & _ & _ & Hrest). by apply IH.
Qed.

Lemma one_line_head c y rest :
  one_line (String c y) -> Str.line_terminator_at (String c y +:+ rest) = false.
Proof.
  rewrite append_cons. simpl. intros (H10 & H13 & H226 & _).
  apply Nat.eqb_neq in H10, H13, H226. by rewrite H10, H13, H226.
Qed.

(** X9. [/No node.*found/] matches a message exactly when the message
    contains [No node] and, after it, [found], with no line terminator
    starting anywhere in between. In particular every message with
    [No node] and a later [found] on the same line is matched, and a
    message without [No node], or without a later [found], never is. *)
Theorem test_No_node_found_spec (m : string) :
  (test_No_node_found m = true <->
   exists a mid b,
     m = a +:+ "No node" +:+ mid +:+ "found" +:+ b
     /\ forall x y, mid = x +:+ y -> y <> "" ->
                    Str.line_terminator_at (y +:+ "found" +:+ b) = false)
  /\ (forall a mid b,
        m = a +:+ "No node" +:+ mid +:+ "found" +:+ b -> one_line mid ->
        test_No_node_found m = true).
Proof.
  assert (Hiff : test_No_node_found m = true <->
                 exists a mid b,
                   m = a +:+ "No node" +:+ mid +:+ "found" +:+ b
                   /\ forall x y, mid = x +:+ y -> y <> "" ->
                        Str.line_terminator_at (y +:+ "found" +:+ b) = false).
  { unfold test_No_node_found. rewrite find_then_dotstar_spec. split.
    - intros (a & r & -> & Hr). apply dotstar_then_spec in Hr as (mid & b & -> & Hmid).
      by exists a, mid, b.
    - intros (a & mid & b & -> & Hmid). exists a, (mid +:+ "found" +:+ b).
      split; [done|]. apply dotstar_then_spec. by exists mid, b. }
  split; [exact Hiff|].
  intros a mid b -> Hline. apply Hiff. exists a, mid, b. split; [done|].
  intros x y -> Hy. apply one_line_suffix in Hline.
  destruct y as [|c y]; [done|]. by apply one_line_head.
Qed.

Lemma test_No_node_found_spec_witness :
  test_No_node_found "Protocol error (DOM.pushNodeByPathToFrontend): No node with given path found"
  = true.
Proof.
  apply (proj2 (test_No_node_found_spec
                  "Protocol error (DOM.pushNodeByPathToFrontend): No node with given path found")
           "Protocol error (DOM.pushNodeByPathToFrontend): " " with given path " "");
    [reflexivity|].
  vm_compute. repeat split; discriminate.
Defined.

(** ** What a returned pass has done to each element *)

Lemma same_scanned_fields_refl e : same_scanned_fields e e.
Proof. by repeat split. Qed.

Lemma same_scanned_fields_trans e1 e2 e3 :
  same_scanned_fields e1 e2 -> same_scanned_fields e2 e3 -> same_scanned_fields e1 e3.
Proof.
  unfold same_scanned_fields. intros H12 H23.
  destruct H12 as (?&?&?&?&?&?&?&?&?&?&?&?&?&?&?),
           H23 as (?&?&?&?&?&?&?&?&?&?&?&?&?&?&?).
  repeat split; congruence.
Qed.

Lemma attach_scanned_fields indexedNetworkRecords e :
  same_scanned_fields e (attach indexedNetworkRecords e).
Proof. by repeat split. Qed.

Lemma css_written_scanned_fields e e' : css_written e e' -> same_scanned_fields e e'.
Proof. intros [->|(w & h & sizing & ->)]; by repeat split. Qed.

Lemma size_assigned_scanned_fields e e' : size_assigned e e' -> same_scanned_fields e e'.
Proof. intros [->|(size & ->)]; by repeat split. Qed.

Lemma mimeTypeOf_lookup (indexedNetworkRecords : gmap string NetworkRequest.t) src :
  mimeTypeOf (lookupOrEmpty indexedNetworkRecords src)
  = NetworkRequest.mimeType <$> indexedNetworkRecords !! src.
Proof. unfold lookupOrEmpty. by destruct (indexedNetworkRecords !! src). Qed.

Section ReturnedPass.
Context `{SelectorSpecificity} `{Driver B}.

(** Position by position: an element of a returned pass is the sorted
    element with its MIME type attached, or what the loop body made of
    that. *)
Lemma afterPass_element budget networkRecords (s s' : PassState B) out
    allElements b0 :
  elementsInDocument (browser s) = (Resolved allElements, b0) ->
  afterPass budget networkRecords s = (Resolved out, s') ->
  let indexed := indexNetworkRecords networkRecords in
  let sorted := sortedElements networkRecords allElements in
  length out = length sorted
  /\ forall j element',
       out !! j = Some element' ->
       exists element,
         sorted !! j = Some element
         /\ ((budget <= j)%nat /\ element' = attach indexed element
             \/ (j < budget)%nat
                /\ exists sj sj' : PassState B,
                     enrich (lookupOrEmpty indexed (ImageElement.src element))
                       (attach indexed element) sj
                     = (Resolved element', sj')).
Proof.
  intros Hscan Hpass indexed sorted.
  apply afterPass_inv in Hpass
    as (allElements' & b0' & s1 & sk & s2 & Hscan' & _ & _ & Hloop & _).
  assert (allElements' = allElements) as -> by congruence.
  apply enrichLoop_resolved in Hloop as (Hlen & _ & Hel).
  split; [done|]. intros j element' Hj.
  destruct (lookup_lt_is_Some_2 sorted j) as [element Helement].
  { fold sorted in Hlen. rewrite <- Hlen. by eapply lookup_lt_Some. }
  destruct (Hel j element Helement) as (e' & He' & Hskip & Hdone & _).
  assert (e' = element') as -> by congruence.
  exists element. split; [done|].
  destruct (decide (budget <= j)%nat) as [Hle|Hlt].
  - left. split; [done|]. apply Hskip. lia.
  - right. split; [lia|]. apply Hdone. lia.
Qed.

Lemma enrich_frame networkRecord (element element' : ImageElement.t)
    (s s' : PassState B) :
  enrich networkRecord element s = (Resolved element', s') ->
  same_scanned_fields element element'
  /\ ImageElement.mimeType element' = ImageElement.mimeType element
  /\ (css_consistent element -> css_consistent element')
  /\ (wants_probe element = false ->
      ImageElement.naturalWidth element' = ImageElement.naturalWidth element
      /\ ImageElement.naturalHeight element' = ImageElement.naturalHeight element).
Proof.
  rewrite enrich_unfold. unfold async_bind, async_ret. fold (wants_probe element).
  assert (Htail : forall e1 (s1 : PassState B),
             same_scanned_fields element e1 ->
             ImageElement.mimeType e1 = ImageElement.mimeType element ->
             ImageElement.naturalWidth e1 = ImageElement.naturalWidth element ->
             ImageElement.naturalHeight e1 = ImageElement.naturalHeight element ->
             (css_consistent element -> css_consistent e1) ->
             (if wants_probe element && truthy_object networkRecord
              then fetchElementWithSizeInformation e1
              else fun s => (Resolved e1, s)) s1 = (Resolved element', s') ->
             same_scanned_fields element element'
             /\ ImageElement.mimeType element' = ImageElement.mimeType element
             /\ (css_consistent element -> css_consistent element')
             /\ (wants_probe element = false ->
                 ImageElement.naturalWidth element' = ImageElement.naturalWidth element
                 /\ ImageElement.naturalHeight element'
                    = ImageElement.naturalHeight element)).
  { intros e1 s1 Hf1 Hm1 Hw1 Hh1 Hc1.
    destruct (wants_probe element) eqn:Hwants; simpl.
    - assert (truthy_object networkRecord = true) as -> by (by destruct networkRecord).
      intros E2.
      destruct (fetchElementWithSizeInformation_cases e1 s1)
        as (e2 & Hr2 & Hf2 & Hm2 & Hcw & Hch & Hcp & _).
      cbv zeta in Hr2. rewrite E2 in Hr2. simpl in Hr2. injection Hr2 as <-.
      split; [by eapply same_scanned_fields_trans|]. split; [congruence|].
      split; [|done]. intros Hc. specialize (Hc1 Hc).
      unfold css_consistent in *. by rewrite Hcp, Hcw, Hch.
    - intros [= <- _]. do 3 (split; [done|]). intros _. by split. }
  destruct (negb _ && negb _).
  - destruct (fetchSourceRules _ _ _) as [[e1|err] s1] eqn:E1; [|discriminate].
    destruct (proj2 (proj2 (fetchSourceRules_cases
                              (devtoolsNodePath (ImageElement.node element)) element s))
                e1) as (Hf1 & Hm1 & Hw1 & Hh1 & Hc1); [by rewrite E1|].
    by apply Htail.
  - apply Htail; [apply same_scanned_fields_refl | done..].
Qed.

End ReturnedPass.

(** X10. In every element a pass returns the compatibility fields agree
    with the sizing pair: without a pair [cssWidth] and [cssHeight] are
    unset, and with one they are its width and height, [null] read as
    [undefined]. *)
Theorem returned_elements_css_consistent `{SelectorSpecificity} `{Driver B}
    budget networkRecords (s s' : PassState B) out element :
  afterPass budget networkRecords s = (Resolved out, s') ->
  element ∈ out ->
  css_consistent element.
Proof.
  intros Hpass Hin.
  pose proof Hpass as Hinv. apply afterPass_inv in Hinv as (allElements & b0 & _ & _ & _ & Hscan & _).
  destruct (afterPass_element _ _ _ _ _ _ _ Hscan Hpass) as (_ & Hel).
  apply list_elem_of_lookup in Hin as [j Hj].
  destruct (Hel j element Hj) as (e & He & Hcase).
  assert (Hscanned : css_consistent (attach (indexNetworkRecords networkRecords) e)).
  { apply list_elem_of_lookup_2 in He. unfold sortedElements in He.
    rewrite Array_sort_Permutation in He.
    apply collectImageElementInfo_css_unset in He as (Hw & Hh & Hp).
    unfold css_consistent. simpl. by rewrite Hp, Hw, Hh. }
  destruct Hcase as [[_ ->]|(_ & sj & sj' & Henrich)]; [done|].
  by apply enrich_frame in Henrich as (_ & _ & Hc & _); apply Hc.
Qed.

Lemma returned_elements_css_consistent_witness :
  css_consistent
    (ImageElement.set_css (Some "1px") None {| width := notNull "1px"; height := null |}
       (attach (indexNetworkRecords Examples.networkRecords) Examples.element_a)).
Proof.
  pose (b := Examples.page [Examples.img_a; Examples.div_b] None).
  pose (r := Examples.run 5 b).
  apply (@returned_elements_css_consistent Examples.bySelectorCount _
           Examples.scriptedDriver 5%nat Examples.networkRecords (initialState b) r.2
           (match r.1 with Resolved out => out | Rejected _ => [] end)).
  - vm_compute. reflexivity.
  - vm_compute. right. left.
Defined.

(** X12. The natural size a pass returns for a plain image is the live
    element's: a returned element that is no CSS background, no picture
    child and has no [srcset] carries the natural width and height, and the
    current source, of an [img] element of the document. *)
Theorem plain_image_natural_size_survives `{SelectorSpecificity} `{Driver B}
    budget networkRecords (s s' : PassState B) out allElements b0 element' :
  elementsInDocument (browser s) = (Resolved allElements, b0) ->
  afterPass budget networkRecords s = (Resolved out, s') ->
  element' ∈ out ->
  wants_probe element' = false ->
  exists element,
    element ∈ allElements
    /\ Dom.localName element = "img"
    /\ ImageElement.src element' = Dom.currentSrc element
    /\ ImageElement.naturalWidth element' = Some (Dom.naturalWidth element)
    /\ ImageElement.naturalHeight element' = Some (Dom.naturalHeight element).
Proof.
  intros Hscan Hpass Hin Hwants.
  destruct (afterPass_element _ _ _ _ _ _ _ Hscan Hpass) as (_ & Hel).
  apply list_elem_of_lookup in Hin as [j Hj].
  destruct (Hel j element' Hj) as (e & He & Hcase).
  set (indexed := indexNetworkRecords networkRecords) in *.
  assert (Hkept : same_scanned_fields e element'
                  /\ (wants_probe e = false ->
                      ImageElement.naturalWidth element' = ImageElement.naturalWidth e
                      /\ ImageElement.naturalHeight element'
                         = ImageElement.naturalHeight e)).
  { destruct Hcase as [[_ ->]|(_ & sj & sj' & Henrich)].
    - split; [apply attach_scanned_fields | done].
    - apply enrich_frame in Henrich as (Hf & _ & _ & Hn). split; [|exact Hn].
      eapply same_scanned_fields_trans; [apply attach_scanned_fields | exact Hf]. }
  destruct Hkept as (Hf & Hn).
  assert (Hwants_e : wants_probe e = false).
  { destruct Hf as (_ & Hsrcset & _ & _ & _ & _ & _ & _ & Hcss & Hpic & _).
    unfold wants_probe in *. by rewrite <- Hsrcset, <- Hcss, <- Hpic. }
  destruct (Hn Hwants_e) as [Hw Hh].
  destruct Hf as (Hsrc & _).
  apply list_elem_of_lookup_2 in He. unfold sortedElements in He.
  rewrite Array_sort_Permutation in He.
  unfold collectImageElementInfo in He. apply elem_of_app in He as [He|He].
  - apply getHTMLImages_spec in He as (element & Helement & Himg & ->).
    exists element. do 2 (split; [done|]). split; [done|].
    unfold wants_probe in Hwants_e. simpl in Hwants_e.
    apply orb_false_iff in Hwants_e as [Hflags Hsrcset].
    apply orb_false_iff in Hflags as [Hpic _].
    rewrite Hw, Hh. simpl. by rewrite Hpic, Hsrcset.
  - apply getCSSImages_spec in He as (element & url & _ & ->).
    unfold wants_probe in Hwants_e. simpl in Hwants_e. discriminate.
Qed.

Lemma plain_image_natural_size_survives_witness :
  exists element,
    element ∈ [Examples.img_a; Examples.div_b]
    /\ Dom.localName element = "img"
    /\ Examples.a_png = Dom.currentSrc element
    /\ Some 40 = Some (Dom.naturalWidth element)
    /\ Some 30 = Some (Dom.naturalHeight element).
Proof.
  pose (b := Examples.page [Examples.img_a; Examples.div_b] None).
  pose (r := Examples.run 5 b).
  apply (@plain_image_natural_size_survives Examples.bySelectorCount _
           Examples.scriptedDriver 5%nat Examples.networkRecords (initialState b) r.2
           (match r.1 with Resolved out => out | Rejected _ => [] end)
           (Examples.document b) b
           (ImageElement.set_css (Some "1px") None
              {| width := notNull "1px"; height := null |}
              (attach (indexNetworkRecords Examples.networkRecords) Examples.element_a))).
  - reflexivity.
  - vm_compute. reflexivity.
  - vm_compute. right. left.
  - reflexivity.
Defined.

(** X13. A pass whose timer has not fired by the end of the loop logs no
    warning. *)
Theorem no_warning_within_budget `{SelectorSpecificity} `{Driver B}
    budget networkRecords (s s' : PassState B) out allElements b0 :
  elementsInDocument (browser s) = (Resolved allElements, b0) ->
  afterPass budget networkRecords s = (Resolved out, s') ->
  (length (collectImageElementInfo allElements) < budget)%nat ->
  warnings s' = warnings s.
Proof.
  intros Hscan Hpass Hlt.
  apply afterPass_inv in Hpass
    as (allElements' & b0' & s1 & sk & s2 & Hscan' & _ & Hw1 & Hloop & _ & Hw').
  assert (allElements' = allElements) as -> by congruence.
  pose proof (enrichLoop_warnings (indexNetworkRecords networkRecords) budget 0 0
                (sortedElements networkRecords allElements) s1) as Hw2.
  rewrite Hloop in Hw2. simpl in Hw2.
  rewrite Hw', Hw2, Hw1. unfold reachedGatheringBudget, sortedElements.
  rewrite Array_sort_length, (proj2 (Nat.leb_gt _ _) Hlt). apply app_nil_r.
Qed.

Lemma no_warning_within_budget_witness :
  warnings (Examples.run 5 (Examples.page [Examples.img_a; Examples.div_b] None)).2 = [].
Proof.
  pose (b := Examples.page [Examples.img_a; Examples.div_b] None).
  pose (r := Examples.run 5 b).
  apply (@no_warning_within_budget Examples.bySelectorCount _
           Examples.scriptedDriver 5%nat Examples.networkRecords (initialState b) r.2
           (match r.1 with Resolved out => out | Rejected _ => [] end)
           (Examples.document b) b).
  - reflexivity.
  - vm_compute. reflexivity.
  - vm_compute. lia.
Defined.

(** ** The probes and the cache of a returned pass *)

Lemma probes_app cs cs' : probes (cs ++ cs') = probes cs ++ probes cs'.
Proof. apply omap_app. Qed.

Lemma cache_grows_refl urls c : cache_grows urls c c.
Proof. by split. Qed.

Lemma cache_grows_trans urls1 urls2 c1 c2 c3 :
  cache_grows urls1 c1 c2 -> cache_grows urls2 c2 c3 ->
  cache_grows (urls1 ++ urls2) c1 c3.
Proof.
  intros [Hk1 Hs1] [Hk2 Hs2]. split.
  - intros u Hu. by apply Hk2, Hk1.
  - intros u Hu. rewrite Hs2, Hs1; [done|..];
      intros Hin; apply Hu, elem_of_app; auto.
Qed.

Section ProbesAndCache.
Context `{SelectorSpecificity} `{Driver B}.

Lemma wants_probe_attach indexedNetworkRecords e :
  wants_probe (attach indexedNetworkRecords e) = wants_probe e.
Proof. reflexivity. Qed.

(** A completed loop body has probed the element's URL once if the
    element is a picture child, a CSS background or has a [srcset], and not
    at all otherwise; the cache has changed at that URL at most. *)
Lemma enrich_probes networkRecord (element element' : ImageElement.t)
    (s s' : PassState B) :
  enrich networkRecord element s = (Resolved element', s') ->
  let urls := if wants_probe element then [ImageElement.src element] else [] in
  probes (calls s') = probes (calls s) ++ urls
  /\ cache_grows urls (_naturalSizeCache s) (_naturalSizeCache s').
Proof.
  rewrite enrich_unfold. unfold async_bind, async_ret. fold (wants_probe element).
  assert (Htail : forall e1 (s1 : PassState B),
             ImageElement.src e1 = ImageElement.src element ->
             probes (calls s1) = probes (calls s) ->
             _naturalSizeCache s1 = _naturalSizeCache s ->
             (if wants_probe element && truthy_object networkRecord
              then fetchElementWithSizeInformation e1
              else fun s => (Resolved e1, s)) s1 = (Resolved element', s') ->
             let urls := if wants_probe element then [ImageElement.src element] else [] in
             probes (calls s') = probes (calls s) ++ urls
             /\ cache_grows urls (_naturalSizeCache s) (_naturalSizeCache s')).
  { intros e1 s1 Hsrc Hcalls Hcache.
    destruct (wants_probe element); simpl.
    - assert (truthy_object networkRecord = true) as -> by (by destruct networkRecord).
      intros E2.
      pose proof (fetchElementWithSizeInformation_calls e1 s1) as Hc.
      destruct (fetchElementWithSizeInformation_cases e1 s1)
        as (e2 & _ & _ & _ & _ & _ & _ & Hok & Hfail).
      cbv zeta in Hok, Hfail. rewrite E2 in Hc, Hok, Hfail. simpl in Hc, Hok, Hfail.
      split.
      + rewrite Hc, probes_app, Hcalls, Hsrc. reflexivity.
      + rewrite Hsrc, Hcache in *.
        destruct (determineNaturalSize (ImageElement.src element) (browser s1))
          as [[size|err] b] eqn:Eprobe.
        * destruct (Hok size b eq_refl) as (_ & Hhit & Hother). split.
          -- intros u Hu. destruct (decide (u = ImageElement.src element)) as [->|Hne].
             ++ by rewrite Hhit.
             ++ by rewrite Hother.
          -- intros u Hu. apply Hother. intros ->. apply Hu. left.
        * destruct (Hfail err b eq_refl) as [-> _]. apply cache_grows_refl.
    - intros [= _ <-]. split; [by rewrite Hcalls, app_nil_r|].
      rewrite Hcache. apply cache_grows_refl. }
  destruct (negb _ && negb _).
  - pose proof (fetchSourceRules_calls
                  (devtoolsNodePath (ImageElement.node element)) element s)
      as (issued & Hcalls & Hshape).
    pose proof (fetchSourceRules_cache
                  (devtoolsNodePath (ImageElement.node element)) element s) as Hcache.
    destruct (fetchSourceRules _ _ _) as [[e1|err] s1] eqn:E1; [|discriminate].
    simpl in Hcalls, Hcache. apply Htail; [| |exact Hcache].
    + by apply fetchSourceRules_css_written, css_written_fields in E1 as (-> & _).
    + rewrite Hcalls, probes_app.
      destruct Hshape as [->|[nodeId ->]]; simpl; by rewrite app_nil_r.
  - by apply Htail.
Qed.

Lemma enrichLoop_probes indexedNetworkRecords budget i skippedCount elements
    (s s' : PassState B) r :
  enrichLoop indexedNetworkRecords budget i skippedCount elements s = (Resolved r, s') ->
  let urls := List.map ImageElement.src
                (List.filter wants_probe (take (budget - i) elements)) in
  probes (calls s') = probes (calls s) ++ urls
  /\ cache_grows urls (_naturalSizeCache s) (_naturalSizeCache s').
Proof.
  revert i skippedCount s r. induction elements as [|e rest IH]; intros i sk s r.
  - simpl. intros [= _ <-]. rewrite take_nil. simpl.
    split; [by rewrite app_nil_r | apply cache_grows_refl].
  - destruct (decide (budget <= i)%nat) as [Hle|Hgt].
    + rewrite enrichLoop_skip_all by done. intros [= _ <-].
      replace (budget - i)%nat with 0%nat by lia. simpl.
      split; [by rewrite app_nil_r | apply cache_grows_refl].
    + rewrite enrichLoop_cons. unfold reachedGatheringBudget.
      rewrite (proj2 (Nat.leb_gt _ _)) by lia.
      destruct (enrich _ _ s) as [[e'|err] s1] eqn:E1; [|discriminate].
      destruct (enrichLoop _ _ _ _ rest s1) as [[r1|err] s2] eqn:E2; [|discriminate].
      intros [= _ <-].
      apply enrich_probes in E1 as [Hp1 Hc1]. apply IH in E2 as [Hp2 Hc2].
      rewrite wants_probe_attach in Hp1, Hc1.
      replace (budget - i)%nat with (S (budget - S i)) by lia.
      rewrite firstn_cons. simpl List.filter.
      destruct (wants_probe e); simpl List.map; simpl in Hp1, Hc1.
      * split; [by rewrite Hp2, Hp1, <- app_assoc|].
        exact (cache_grows_trans [ImageElement.src e] _ _ _ _ Hc1 Hc2).
      * rewrite app_nil_r in Hp1. split; [by rewrite Hp2, Hp1|].
        exact (cache_grows_trans [] _ _ _ _ Hc1 Hc2).
Qed.

End ProbesAndCache.

(** ** More on the network index *)

Lemma index_fold_lookup records (map : gmap string NetworkRequest.t) u :
  fold_left indexRecord records map !! u
  = match indexNetworkRecords records !! u with
    | Some r => Some r
    | None => map !! u
    end.
Proof.
  unfold indexNetworkRecords. revert map.
  induction records as [|x records IH]; intros map; simpl.
  - by rewrite lookup_empty.
  - rewrite (IH (indexRecord map x)), (IH (indexRecord ∅ x)).
    destruct (fold_left indexRecord records ∅ !! u); [done|].
    destruct (Indexable_dec x) as [Hx|Hx].
    + rewrite !(indexRecord_indexable _ _ Hx).
      destruct (decide (NetworkRequest.url x = u)) as [->|Hne].
      * by rewrite !lookup_insert_eq.
      * by rewrite !lookup_insert_ne, lookup_empty.
    + by rewrite !(indexRecord_not_indexable _ _ Hx), lookup_empty.
Qed.

(** X16. Indexing a concatenation is indexing the parts with the later
    part taking precedence. A URL has no entry exactly when no record with
    that URL is indexable, and every entry is a record of the input stored
    under its own URL. *)
Theorem index_of_concatenation (a b : list NetworkRequest.t) :
  indexNetworkRecords (a ++ b) = indexNetworkRecords b ∪ indexNetworkRecords a
  /\ (forall u,
        indexNetworkRecords a !! u = None <->
        Forall (fun r => NetworkRequest.url r = u -> ~ Indexable r) a)
  /\ (forall u r,
        indexNetworkRecords a !! u = Some r -> r ∈ a /\ NetworkRequest.url r = u).
Proof.
  split; [|split].
  - apply map_eq. intros u. rewrite lookup_union.
    unfold indexNetworkRecords at 1. rewrite fold_left_app.
    fold (indexNetworkRecords a). rewrite index_fold_lookup.
    by destruct (indexNetworkRecords b !! u), (indexNetworkRecords a !! u).
  - intros u. split.
    + intros Hnone. apply Forall_forall. intros r Hr Hu Hindexable.
      apply list_elem_of_split in Hr as (before & after & ->).
      induction after as [|x after IH] using rev_ind.
      * rewrite (indexNetworkRecords_snoc before r),
          (indexRecord_indexable _ _ Hindexable), Hu, lookup_insert_eq in Hnone.
        discriminate.
      * apply IH. rewrite app_comm_cons, app_assoc, indexNetworkRecords_snoc in Hnone.
        destruct (Indexable_dec x) as [Hx|Hx].
        -- rewrite (indexRecord_indexable _ _ Hx) in Hnone.
           destruct (decide (NetworkRequest.url x = u)) as [Hxu|Hxu].
           ++ rewrite Hxu, lookup_insert_eq in Hnone. discriminate.
           ++ by rewrite lookup_insert_ne in Hnone.
        -- by rewrite (indexRecord_not_indexable _ _ Hx) in Hnone.
    + intros Hall. destruct (indexNetworkRecords a !! u) as [r|] eqn:E; [|done].
      apply indexNetworkRecords_lookup in E as (before & after & -> & Hu & Hr & _).
      apply Forall_app in Hall as [_ Hall]. apply Forall_inv in Hall.
      by destruct (Hall Hu).
  - intros u r Hr.
    apply indexNetworkRecords_lookup in Hr as (before & after & -> & Hu & _).
    split; [|done]. apply elem_of_app. right. left.
Qed.

Lemma index_of_concatenation_witness :
  Examples.record_a ∈ Examples.networkRecords
  /\ NetworkRequest.url Examples.record_a = Examples.a_png.
Proof.
  apply (proj2 (proj2 (index_of_concatenation Examples.networkRecords []))
           Examples.a_png Examples.record_a).
  vm_compute. reflexivity.
Defined.

(** ** More on the sort *)

Lemma Array_sort_incomparable {A} (comparefn : A -> A -> option Z) (array : list A) :
  (forall x y, x ∈ array -> y ∈ array -> comparefn x y = None) ->
  Array_sort comparefn array = array.
Proof.
  intros Hnone. unfold Array_sort.
  assert (Hfold : forall rest run,
             (forall y, y ∈ rest -> y ∈ array) -> (forall y, y ∈ run -> y ∈ array) ->
             fold_left (fun run pivot => insertPivot comparefn pivot run) rest run
             = List.rev rest ++ run).
  { induction rest as [|x rest IH]; intros run Hrest Hrun; simpl; [done|].
    assert (Hins : insertPivot comparefn x run = x :: run).
    { destruct run as [|y run]; simpl; [done|].
      unfold sortCompare. rewrite Hnone; [done|apply Hrest; left|apply Hrun; left]. }
    rewrite Hins, IH, <- app_assoc; [done|..].
    - intros y Hy. apply Hrest. by right.
    - intros y [->|Hy]%elem_of_cons; [apply Hrest; left | by apply Hrun]. }
  rewrite Hfold, app_nil_r; [apply rev_involutive | done | by intros y ?%elem_of_nil].
Qed.

(** X18. When none of the elements has a network record, for instance
    when there are no network records at all, the sort leaves the elements
    in the order of the scan. *)
Theorem sort_keeps_order_without_records
    (indexedNetworkRecords : gmap string NetworkRequest.t)
    (elements : list ImageElement.t) :
  (forall e, e ∈ elements -> indexedNetworkRecords !! ImageElement.src e = None) ->
  Array_sort (compareElements indexedNetworkRecords) elements = elements.
Proof.
  intros Hall. apply Array_sort_incomparable. intros x y Hx Hy.
  unfold compareElements, lookupOrEmpty. by rewrite (Hall x Hx), (Hall y Hy).
Qed.

Lemma sort_keeps_order_without_records_witness :
  Array_sort (compareElements (indexNetworkRecords []))
    [Examples.element_a; Examples.element_b]
  = [Examples.element_a; Examples.element_b].
Proof.
  apply (sort_keeps_order_without_records (indexNetworkRecords [])
           [Examples.element_a; Examples.element_b]).
  intros e _. apply lookup_empty.
Defined.

(** ** Failures outside the loop *)

(** X19. A pass fails as a whole when a call outside the loop is
    rejected. If the scan is rejected, that is the only call made. If one of
    the three commands before the loop is rejected, all three have been
    sent and no element is looked at. If a command after the loop is
    rejected, the pass is rejected although the loop ran to its end. *)
Theorem failures_outside_the_loop `{SelectorSpecificity} `{Driver B}
    budget networkRecords (s : PassState B) :
  (forall err b0,
      elementsInDocument (browser s) = (Rejected err, b0) ->
      (afterPass budget networkRecords s).1 = Rejected err
      /\ calls (afterPass budget networkRecords s).2
         = calls s ++ [Evaluate_collectImageElementInfo])
  /\ (forall allElements s0 err,
        issue Evaluate_collectImageElementInfo elementsInDocument s
          = (Resolved allElements, s0) ->
        (sendAll [DOM_enable; CSS_enable; DOM_getDocument] s0).1 = Rejected err ->
        (afterPass budget networkRecords s).1 = Rejected err
        /\ calls (afterPass budget networkRecords s).2
           = calls s ++ [Evaluate_collectImageElementInfo;
                         DOM_enable; CSS_enable; DOM_getDocument])
  /\ (forall allElements s0 s1 r s2 err,
        issue Evaluate_collectImageElementInfo elementsInDocument s
          = (Resolved allElements, s0) ->
        sendAll [DOM_enable; CSS_enable; DOM_getDocument] s0 = (Resolved tt, s1) ->
        enrichLoop (indexNetworkRecords networkRecords) budget 0 0
          (sortedElements networkRecords allElements) s1 = (Resolved r, s2) ->
        (sendAll [DOM_disable; CSS_disable]
           (if reachedGatheringBudget budget
                 (length (sortedElements networkRecords allElements))
            then (log_warn {| skipped := r.2; total := length r.1 |} s2).2
            else s2)).1 = Rejected err ->
        (afterPass budget networkRecords s).1 = Rejected err).
Proof.
  split; [|split].
  - intros err b0 Hscan.
    assert (E : issue Evaluate_collectImageElementInfo elementsInDocument s
                = (Rejected err,
                   {| browser := b0;
                      calls := calls s ++ [Evaluate_collectImageElementInfo];
                      _naturalSizeCache := _naturalSizeCache s;
                      warnings := warnings s |})).
    { unfold issue. by rewrite Hscan. }
    by rewrite afterPass_unfold, E.
  - intros allElements s0 err Hscan Henable.
    pose proof (sendAll_calls [DOM_enable; CSS_enable; DOM_getDocument] s0) as Hcalls.
    rewrite afterPass_unfold, Hscan.
    destruct (sendAll _ s0) as [[[]|err'] s1]; simpl in *; [discriminate|].
    injection Henable as ->. split; [done|]. rewrite Hcalls.
    unfold issue in Hscan. destruct (elementsInDocument (browser s)) as [r b].
    injection Hscan as _ <-. simpl. by rewrite <- app_assoc.
  - intros allElements s0 s1 r s2 err Hscan Henable Hloop Hdisable.
    rewrite afterPass_unfold, Hscan, Henable. cbv zeta. rewrite Hloop.
    by destruct (sendAll [DOM_disable; CSS_disable] _) as [[[]|err'] s4];
      simpl in *; [discriminate | injection Hdisable as ->].
Qed.

Lemma failures_outside_the_loop_witness :
  (@afterPass Examples.bySelectorCount _ Closed.driver 5 Examples.networkRecords
     (initialState tt)).1 = Rejected Closed.err
  /\ calls (@afterPass Examples.bySelectorCount _ Closed.driver 5 Examples.networkRecords
              (initialState tt)).2
     = [] ++ [Evaluate_collectImageElementInfo].
Proof.
  apply (proj1 (@failures_outside_the_loop Examples.bySelectorCount _ Closed.driver
                  5%nat Examples.networkRecords (initialState tt))
           Closed.err tt).
  reflexivity.
Defined.

(** ** The reported position *)

(** X20. Every scanned image, of an [img] element or of a background,
    comes from an element of the document and carries that element's node
    details, rectangle and shadow-root flag. Its position is the computed
    position of the parent when the parent is a [picture] element, and the
    element's own computed position otherwise. *)
Theorem scanned_position (allElements : list Dom.Element) (image : ImageElement.t) :
  image ∈ collectImageElementInfo allElements ->
  exists element,
    element ∈ allElements
    /\ ImageElement.node image = Dom.nodeDetails element
    /\ ImageElement.clientRect image = Dom.boundingClientRect element
    /\ ImageElement.isInShadowDOM image = Dom.inShadowRoot element
    /\ (forall parent,
          Dom.parentElement element = Some parent ->
          Dom.tagName parent = "PICTURE" ->
          ImageElement.cssComputedPosition image
          = Dom.position (Dom.parentComputedStyle parent))
    /\ (~ InPicture element ->
        ImageElement.cssComputedPosition image
        = Dom.position (Dom.computedStyle element)).
Proof.
  assert (Hposition : forall element,
             (forall parent,
                 Dom.parentElement element = Some parent ->
                 Dom.tagName parent = "PICTURE" ->
                 getPosition element (Dom.computedStyle element)
                 = Dom.position (Dom.parentComputedStyle parent))
             /\ (~ InPicture element ->
                 getPosition element (Dom.computedStyle element)
                 = Dom.position (Dom.computedStyle element))).
  { intros element. unfold getPosition, InPicture.
    destruct (Dom.parentElement element) as [parent|]; split.
    - intros p [= <-] Htag. by rewrite (proj2 (String.eqb_eq _ _) Htag).
    - intros Hnot. destruct (String.eqb_spec (Dom.tagName parent) "PICTURE"); [|done].
      destruct Hnot. eauto.
    - by intros p.
    - done. }
  assert (Hrect : forall element, getClientRect element = Dom.boundingClientRect element).
  { intros element. unfold getClientRect. by destruct (Dom.boundingClientRect element). }
  unfold collectImageElementInfo. intros [Hin|Hin]%elem_of_app.
  - apply getHTMLImages_spec in Hin as (element & Helement & _ & ->).
    exists element. split; [done|]. split; [done|]. split; [apply Hrect|].
    split; [done|]. apply Hposition.
  - apply getCSSImages_spec in Hin as (element & url & Helement & ->).
    exists element. split; [done|]. split; [done|]. split; [apply Hrect|].
    split; [done|]. apply Hposition.
Qed.

Lemma scanned_position_witness :
  exists element,
    element ∈ [Examples.img "p.png" "" "PICTURE" "path" 1 1]
    /\ ImageElement.node (htmlImage (Examples.img "p.png" "" "PICTURE" "path" 1 1))
       = Dom.nodeDetails element
    /\ ImageElement.clientRect (htmlImage (Examples.img "p.png" "" "PICTURE" "path" 1 1))
       = Dom.boundingClientRect element
    /\ ImageElement.isInShadowDOM (htmlImage (Examples.img "p.png" "" "PICTURE" "path" 1 1))
       = Dom.inShadowRoot element
    /\ (forall parent,
          Dom.parentElement element = Some parent ->
          Dom.tagName parent = "PICTURE" ->
          ImageElement.cssComputedPosition
            (htmlImage (Examples.img "p.png" "" "PICTURE" "path" 1 1))
          = Dom.position (Dom.parentComputedStyle parent))
    /\ (~ InPicture element ->
        ImageElement.cssComputedPosition
          (htmlImage (Examples.img "p.png" "" "PICTURE" "path" 1 1))
        = Dom.position (Dom.computedStyle element)).
Proof.
  apply (scanned_position [Examples.img "p.png" "" "PICTURE" "path" 1 1]
           (htmlImage (Examples.img "p.png" "" "PICTURE" "path" 1 1))).
  vm_compute. left.
Defined.

(** ** How many calls a pass makes *)

Section CallBound.
Context `{SelectorSpecificity} `{Driver B}.

Lemma enrich_call_bound networkRecord (element : ImageElement.t) (s : PassState B) :
  (length (calls (enrich networkRecord element s).2) <= length (calls s) + 4)%nat.
Proof.
  rewrite enrich_unfold. unfold async_bind, async_ret.
  assert (Htail : forall e1 (s1 : PassState B),
             (length (calls s1) <= length (calls s) + 2)%nat ->
             (length (calls ((if (ImageElement.isPicture element
                                  || ImageElement.isCss element
                                  || Str.truthy (ImageElement.srcset element))
                                 && truthy_object networkRecord
                              then fetchElementWithSizeInformation e1
                              else fun s => (Resolved e1, s)) s1).2)
              <= length (calls s) + 4)%nat).
  { intros e1 s1 Hs1. destruct (_ && truthy_object _); simpl; [|lia].
    rewrite fetchElementWithSizeInformation_calls, length_app. simpl. lia. }
  destruct (negb _ && negb _).
  - pose proof (fetchSourceRules_calls
                  (devtoolsNodePath (ImageElement.node element)) element s)
      as (issued & Hcalls & Hshape).
    assert (Hlen : (length (calls (fetchSourceRules
                                     (devtoolsNodePath (ImageElement.node element))
                                     element s).2) <= length (calls s) + 2)%nat).
    { rewrite Hcalls, length_app. destruct Hshape as [->|[nodeId ->]]; simpl; lia. }
    destruct (fetchSourceRules _ _ _) as [[e1|err] s1]; simpl in *; [by apply Htail | lia].
  - apply Htail. lia.
Qed.

Lemma enrichLoop_call_bound indexedNetworkRecords budget i skippedCount elements
    (s : PassState B) :
  (length (calls (enrichLoop indexedNetworkRecords budget i skippedCount elements s).2)
   <= length (calls s) + 4 * Nat.min (budget - i) (length elements))%nat.
Proof.
  revert i skippedCount s. induction elements as [|e rest IH]; intros i sk s.
  - simpl. lia.
  - destruct (decide (budget <= i)%nat) as [Hle|Hgt].
    + rewrite enrichLoop_skip_all by done. simpl. lia.
    + rewrite enrichLoop_cons. unfold reachedGatheringBudget.
      rewrite (proj2 (Nat.leb_gt _ _)) by lia.
      pose proof (enrich_call_bound
                    (lookupOrEmpty indexedNetworkRecords (ImageElement.src e))
                    (attach indexedNetworkRecords e) s) as Hbody.
      destruct (enrich _ _ s) as [[e'|err] s1]; simpl in *; [|lia].
      specialize (IH (S i) sk s1).
      destruct (enrichLoop _ _ _ _ rest s1) as [[r|err] s2]; simpl in *; lia.
Qed.

End CallBound.

(** X21. A returned pass has made at most six calls outside the loop and
    four per element that began enrichment: with [N] scanned elements, no
    more than [6 + 4 * min budget N] calls in all. *)
Theorem call_bound_of_returned_pass `{SelectorSpecificity} `{Driver B}
    budget networkRecords (s s' : PassState B) out allElements b0 :
  elementsInDocument (browser s) = (Resolved allElements, b0) ->
  afterPass budget networkRecords s = (Resolved out, s') ->
  (length (calls s')
   <= length (calls s) + 6
      + 4 * Nat.min budget (length (collectImageElementInfo allElements)))%nat.
Proof.
  intros Hscan Hpass.
  apply afterPass_inv in Hpass
    as (allElements' & b0' & s1 & sk & s2 & Hscan' & Hc1 & _ & Hloop & Hc' & _).
  assert (allElements' = allElements) as -> by congruence.
  pose proof (enrichLoop_call_bound (indexNetworkRecords networkRecords) budget 0 0
                (sortedElements networkRecords allElements) s1) as Hbound.
  rewrite Hloop in Hbound. simpl in Hbound.
  unfold sortedElements in Hbound. rewrite Array_sort_length, Nat.sub_0_r in Hbound.
  rewrite Hc', length_app. rewrite Hc1, length_app in Hbound. simpl in *. lia.
Qed.

Lemma call_bound_of_returned_pass_witness :
  let b := Examples.page [Examples.img_a; Examples.div_b] None in
  (length (calls (Examples.run 5 b).2)
   <= 0 + 6 + 4 * Nat.min 5 (length (collectImageElementInfo (Examples.document b))))%nat.
Proof.
  intros b. pose (r := Examples.run 5 b).
  apply (@call_bound_of_returned_pass Examples.bySelectorCount _
           Examples.scriptedDriver 5%nat Examples.networkRecords (initialState b) r.2
           (match r.1 with Resolved out => out | Rejected _ => [] end)
           (Examples.document b) b).
  - reflexivity.
  - vm_compute. reflexivity.
Defined.

(** ** The order of a returned pass *)

Lemma StronglySorted_lookup {A} (R : A -> A -> Prop) (l : list A) i j a b :
  StronglySorted R l -> (i < j)%nat -> l !! i = Some a -> l !! j = Some b -> R a b.
Proof.
  intros Hsorted. revert i j. induction Hsorted as [|x l Hl IH Hx]; intros i j Hij Hi Hj.
  - done.
  - destruct j as [|j]; [lia|]. simpl in Hj. destruct i as [|i].
    + injection Hi as <-. rewrite Forall_forall in Hx. apply Hx.
      by eapply list_elem_of_lookup_2.
    + simpl in Hi. apply (IH i j); [lia | done | done].
Qed.

(** X17. When every scanned element has a network record indexed under
    its [src], a pass returns the elements largest first: of two returned
    elements the earlier one has a resource size at least that of the later
    one. *)
Theorem returned_order_when_all_matched `{SelectorSpecificity} `{Driver B}
    budget networkRecords (s s' : PassState B) out allElements b0 :
  elementsInDocument (browser s) = (Resolved allElements, b0) ->
  afterPass budget networkRecords s = (Resolved out, s') ->
  let indexed := indexNetworkRecords networkRecords in
  (forall e, e ∈ collectImageElementInfo allElements ->
             is_Some (indexed !! ImageElement.src e)) ->
  forall i j earlier later,
    (i < j)%nat -> out !! i = Some earlier -> out !! j = Some later ->
    exists big small,
      sizeOf indexed earlier = Some big
      /\ sizeOf indexed later = Some small
      /\ small <= big.
Proof.
  intros Hscan Hpass indexed Hall i j earlier later Hij Hi Hj.
  destruct (afterPass_element _ _ _ _ _ _ _ Hscan Hpass) as (_ & Hel).
  fold indexed in Hel.
  assert (Hsrc : forall k e', out !! k = Some e' ->
             exists e, sortedElements networkRecords allElements !! k = Some e
                       /\ ImageElement.src e' = ImageElement.src e).
  { intros k e' Hk. destruct (Hel k e' Hk) as (e & He & Hcase). exists e. split; [done|].
    destruct Hcase as [[_ ->]|(_ & sj & sj' & Henrich)]; [done|].
    by apply enrich_frame in Henrich as ((-> & _) & _). }
  destruct (Hsrc i earlier Hi) as (ei & Hei & Hsi), (Hsrc j later Hj) as (ej & Hej & Hsj).
  destruct (sort_descending_when_all_matched indexed
              (collectImageElementInfo allElements) Hall) as [Hperm Hsorted].
  pose proof (StronglySorted_lookup _ _ i j ei ej Hsorted Hij Hei Hej) as Hle.
  simpl in Hle.
  assert (Hmatched : forall e, e ∈ sortedElements networkRecords allElements ->
                       exists size, sizeOf indexed e = Some size).
  { intros e He. unfold sortedElements in He. rewrite Array_sort_Permutation in He.
    destruct (Hall e He) as [r Hr]. unfold sizeOf, lookupOrEmpty. rewrite Hr. eauto. }
  destruct (Hmatched ei) as [big Hbig]; [by eapply list_elem_of_lookup_2|].
  destruct (Hmatched ej) as [small Hsmall]; [by eapply list_elem_of_lookup_2|].
  rewrite Hbig, Hsmall in Hle. simpl in Hle.
  exists big, small. unfold sizeOf in *. rewrite Hsi, Hsj. by repeat split.
Qed.

Lemma returned_order_when_all_matched_witness :
  exists big small,
    sizeOf (indexNetworkRecords Examples.networkRecords)
      (ImageElement.assign_size 640 480
         (attach (indexNetworkRecords Examples.networkRecords) Examples.element_b))
    = Some big
    /\ sizeOf (indexNetworkRecords Examples.networkRecords)
         (ImageElement.set_css (Some "1px") None
            {| width := notNull "1px"; height := null |}
            (attach (indexNetworkRecords Examples.networkRecords) Examples.element_a))
       = Some small
    /\ small <= big.
Proof.
  pose (b := Examples.page [Examples.img_a; Examples.div_b] None).
  pose (r := Examples.run 5 b).
  apply (@returned_order_when_all_matched Examples.bySelectorCount _
           Examples.scriptedDriver 5%nat Examples.networkRecords (initialState b) r.2
           (match r.1 with Resolved out => out | Rejected _ => [] end)
           (Examples.document b) b eq_refl) with (i := 0%nat) (j := 1%nat).
  - vm_compute. reflexivity.
  - intros e He. vm_compute in He.
    apply elem_of_cons in He as [->|He]; [vm_compute; eauto|].
    apply elem_of_cons in He as [->|He]; [vm_compute; eauto|].
    by apply elem_of_nil in He.
  - lia.
  - vm_compute. reflexivity.
  - vm_compute. reflexivity.
Defined.

(** ** Witnesses on the sample page *)

Lemma collectImageElementInfo_structure_witness :
  exists html css,
    collectImageElementInfo [Examples.img_a; Examples.div_b] = html ++ css
    /\ html = List.map htmlImage
                (List.filter (fun element => String.eqb (Dom.localName element) "img")
                   [Examples.img_a; Examples.div_b])
    /\ Forall (fun image => ImageElement.isCss image = false) html
    /\ Forall (fun image => ImageElement.isCss image = true) css
    /\ length css
       = length (List.filter
                   (fun element =>
                      match match_CSS_URL_REGEX
                              (Dom.backgroundImage (Dom.computedStyle element)) with
                      | Some _ => true
                      | None => false
                      end) [Examples.img_a; Examples.div_b])
    /\ forall a b, collectImageElementInfo (a ++ b)
                   = getHTMLImages a ++ getHTMLImages b
                     ++ getCSSImages a ++ getCSSImages b.
Proof. exact (collectImageElementInfo_structure [Examples.img_a; Examples.div_b]). Defined.

Lemma findSizeDeclaration_first_witness :
  findSizeDeclaration
    (Some {| Crdp.cssProperties :=
               Some [ {| Crdp.name := "height"; Crdp.value := "2px" |};
                      {| Crdp.name := "width"; Crdp.value := "1px" |};
                      {| Crdp.name := "width"; Crdp.value := "9px" |} ] |})
    "width"
  = Some "1px".
Proof.
  apply (proj1 (findSizeDeclaration_first _ "width") "1px").
  eexists _, [ {| Crdp.name := "height"; Crdp.value := "2px" |} ],
    {| Crdp.name := "width"; Crdp.value := "1px" |},
    [ {| Crdp.name := "width"; Crdp.value := "9px" |} ].
  split; [reflexivity|]. split; [reflexivity|]. split; [reflexivity|].
  split; [reflexivity|]. constructor; [discriminate | constructor].
Defined.

Lemma effective_sizing_is_declared_witness :
  "1px" <> ""
  /\ (Declares (Crdp.inlineStyle Examples.styles_all) "width" "1px"
      \/ Declares (Crdp.attributesStyle Examples.styles_all) "width" "1px"
      \/ exists m, m ∈ default [] (Crdp.matchedCSSRules Examples.styles_all)
                   /\ Declares (styleOf m) "width" "1px").
Proof.
  apply (proj1 (@effective_sizing_is_declared Examples.bySelectorCount
                  Examples.styles_all "width") "1px").
  reflexivity.
Defined.

(** * The pass, whatever order the sort gives *)

(** ** The phases of the pass *)

Lemma Array_sort_Reorders : Reorders (@Array_sort ImageElement.t).
Proof. intros comparefn array. apply Array_sort_Permutation. Qed.

Lemma lookups_app cs cs' : lookups (cs ++ cs') = lookups cs ++ lookups cs'.
Proof. apply omap_app. Qed.

Lemma cache_grows_weaken urls urls' (c c' : gmap string NaturalSize) :
  (forall u, u ∈ urls -> u ∈ urls') ->
  cache_grows urls c c' -> cache_grows urls' c c'.
Proof.
  intros Hsub [Hkept Hsame]. split; [done|].
  intros u Hu. apply Hsame. intros Hin. by apply Hu, Hsub.
Qed.

Lemma List_filter_Permutation {A} (f : A -> bool) (l l' : list A) :
  l ≡ₚ l' -> List.filter f l ≡ₚ List.filter f l'.
Proof.
  induction 1 as [|x l l' _ IH|x y l|l l' l'' _ IH1 _ IH2]; simpl.
  - done.
  - destruct (f x); [by constructor | done].
  - destruct (f x), (f y); try done. apply perm_swap.
  - by etransitivity.
Qed.

Section EverySort.
Context `{SelectorSpecificity} `{Driver B}.

(** [afterPass] is the pass with the insertion sort for [sort]. *)
Lemma afterPass_sorted_by_Array_sort budget networkRecords :
  afterPass budget networkRecords = afterPassSortedBy Array_sort budget networkRecords.
Proof. reflexivity. Qed.

Lemma sendAll_cache cs (s : PassState B) :
  _naturalSizeCache (sendAll cs s).2 = _naturalSizeCache s.
Proof.
  revert s. induction cs as [|c cs IH]; intros s; simpl; [done|].
  unfold sendCommand, issue.
  destruct (command c (browser s)) as [[[]|err] b]; simpl; by rewrite IH.
Qed.

Variable sort : SortFunction.

Lemma afterPassSortedBy_unfold budget networkRecords (s : PassState B) :
  afterPassSortedBy sort budget networkRecords s
  = match issue Evaluate_collectImageElementInfo elementsInDocument s with
    | (Rejected err, s0) => (Rejected err, s0)
    | (Resolved allElements, s0) =>
        match sendAll [DOM_enable; CSS_enable; DOM_getDocument] s0 with
        | (Rejected err, s1) => (Rejected err, s1)
        | (Resolved _, s1) =>
            let elements := sort (compareElements (indexNetworkRecords networkRecords))
                              (collectImageElementInfo allElements) in
            match enrichLoop (indexNetworkRecords networkRecords) budget 0 0 elements s1 with
            | (Rejected err, s2) => (Rejected err, s2)
            | (Resolved r, s2) =>
                let s3 :=
                  if reachedGatheringBudget budget (length elements)
                  then (log_warn {| skipped := r.2; total := length r.1 |} s2).2
                  else s2 in
                match sendAll [DOM_disable; CSS_disable] s3 with
                | (Resolved _, s4) => (Resolved r.1, s4)
                | (Rejected err, s4) => (Rejected err, s4)
                end
            end
        end
    end.
Proof.
  unfold afterPassSortedBy, mbind, Async_bind, async_bind.
  destruct (issue _ _ s) as [[allElements|err] s0]; [|reflexivity].
  destruct (sendAll [DOM_enable; CSS_enable; DOM_getDocument] s0) as [[[]|err] s1];
    [|reflexivity].
  destruct (enrichLoop _ _ _ _ _ s1) as [[r|err] s2]; [|reflexivity].
  cbv zeta. unfold sendAll, sendCommand, issue, log_warn, async_ret.
  destruct (reachedGatheringBudget _ _); simpl;
    repeat match goal with
           | |- context [command ?c ?b] =>
               destruct (command c b) as [[[]|?] ?]; simpl
           end; reflexivity.
Qed.

(** The phases of a pass that returned: the scan, the three commands, the
    loop over the sorted elements, the warning, the two commands. *)
Lemma afterPassSortedBy_inv budget networkRecords (s s' : PassState B) out :
  afterPassSortedBy sort budget networkRecords s = (Resolved out, s') ->
  exists allElements b0 s1 skippedCount s2,
    elementsInDocument (browser s) = (Resolved allElements, b0)
    /\ calls s1 = calls s ++ [Evaluate_collectImageElementInfo;
                              DOM_enable; CSS_enable; DOM_getDocument]
    /\ warnings s1 = warnings s
    /\ _naturalSizeCache s1 = _naturalSizeCache s
    /\ enrichLoop (indexNetworkRecords networkRecords) budget 0 0
         (sort (compareElements (indexNetworkRecords networkRecords))
            (collectImageElementInfo allElements)) s1
       = (Resolved (out, skippedCount), s2)
    /\ calls s' = calls s2 ++ [DOM_disable; CSS_disable]
    /\ _naturalSizeCache s' = _naturalSizeCache s2
    /\ warnings s'
       = warnings s2
         ++ (if reachedGatheringBudget budget
                  (length (sort (compareElements (indexNetworkRecords networkRecords))
                             (collectImageElementInfo allElements)))
             then [{| skipped := skippedCount; total := length out |}]
             else []).
Proof.
  rewrite afterPassSortedBy_unfold. unfold issue at 1.
  destruct (elementsInDocument (browser s)) as [[allElements|err] b0] eqn:Escan;
    [|discriminate].
  match goal with |- context [sendAll ?cs ?s0] =>
    pose proof (sendAll_calls cs s0) as Hc1;
    pose proof (sendAll_warnings cs s0) as Hw1;
    pose proof (sendAll_cache cs s0) as Hk1;
    destruct (sendAll cs s0) as [[[]|err] s1]; [|discriminate]
  end.
  cbv zeta.
  destruct (enrichLoop _ _ _ _ _ s1) as [[[out' sk]|err] s2] eqn:Eloop; [|discriminate].
  match goal with |- context [sendAll [DOM_disable; CSS_disable] ?s3] =>
    pose proof (sendAll_calls [DOM_disable; CSS_disable] s3) as Hc2;
    pose proof (sendAll_warnings [DOM_disable; CSS_disable] s3) as Hw2;
    pose proof (sendAll_cache [DOM_disable; CSS_disable] s3) as Hk2;
    destruct (sendAll [DOM_disable; CSS_disable] s3) as [[[]|err] s4]; [|discriminate]
  end.
  intros [= <- <-]. exists allElements, b0, s1, sk, s2. simpl in *.
  split; [done|]. split; [by rewrite Hc1, <- app_assoc|]. split; [done|].
  split; [done|]. split; [done|].
  destruct (reachedGatheringBudget _ _); simpl in *.
  - by rewrite Hc2, Hw2, Hk2.
  - by rewrite Hc2, Hw2, Hk2, app_nil_r.
Qed.

(** The same phases, as the computations they are: each starts in the
    state the one before left. *)
Lemma afterPassSortedBy_phases budget networkRecords (s s' : PassState B) out :
  afterPassSortedBy sort budget networkRecords s = (Resolved out, s') ->
  exists allElements s0 s1 skippedCount s2,
    issue Evaluate_collectImageElementInfo elementsInDocument s
      = (Resolved allElements, s0)
    /\ sendAll [DOM_enable; CSS_enable; DOM_getDocument] s0 = (Resolved tt, s1)
    /\ enrichLoop (indexNetworkRecords networkRecords) budget 0 0
         (sort (compareElements (indexNetworkRecords networkRecords))
            (collectImageElementInfo allElements)) s1
       = (Resolved (out, skippedCount), s2)
    /\ sendAll [DOM_disable; CSS_disable]
         (if reachedGatheringBudget budget
              (length (sort (compareElements (indexNetworkRecords networkRecords))
                         (collectImageElementInfo allElements)))
          then (log_warn {| skipped := skippedCount; total := length out |} s2).2
          else s2)
       = (Resolved tt, s').
Proof.
  rewrite afterPassSortedBy_unfold.
  destruct (issue _ _ s) as [[allElements|err] s0] eqn:Eissue; [|discriminate].
  destruct (sendAll [DOM_enable; CSS_enable; DOM_getDocument] s0) as [[[]|err] s1]
    eqn:Eenable; [|discriminate].
  cbv zeta.
  destruct (enrichLoop _ _ _ _ _ s1) as [[[out' sk]|err] s2] eqn:Eloop; [|discriminate].
  destruct (sendAll [DOM_disable; CSS_disable] _) as [[[]|err] s4] eqn:Edis;
    [|discriminate].
  cbn [fst snd] in Edis |- *.
  intros [= <- <-]. by exists allElements, s0, s1, sk, s2.
Qed.

(** With a dependable driver the pass returns, whatever the sort. *)
Lemma afterPassSortedBy_resolves budget networkRecords (s : PassState B) :
  Dependable B ->
  exists out, (afterPassSortedBy sort budget networkRecords s).1 = Resolved out.
Proof.
  intros Hd. pose proof Hd as (Hcmd & Hscan & _).
  rewrite afterPassSortedBy_unfold. unfold issue at 1.
  destruct (Hscan (browser s)) as (allElements & Hall).
  destruct (elementsInDocument (browser s)) as [[all|err] b0]; simpl in Hall; [|done].
  match goal with |- context [sendAll ?cs ?s0] =>
    pose proof (sendAll_resolves cs s0 Hcmd) as He;
    destruct (sendAll cs s0) as [[[]|err] s1]; simpl in He; [|done] end.
  cbv zeta.
  match goal with |- context [enrichLoop ?ix ?k 0%nat 0%nat ?els s1] =>
    destruct (enrichLoop_resolves ix k 0%nat 0%nat els s1 Hd) as (r & Hr);
    destruct (enrichLoop ix k 0%nat 0%nat els s1) as [[r'|err] s2]; simpl in Hr; [|done]
  end.
  match goal with |- context [sendAll [DOM_disable; CSS_disable] ?s3] =>
    pose proof (sendAll_resolves [DOM_disable; CSS_disable] s3 Hcmd) as Hdis;
    destruct (sendAll [DOM_disable; CSS_disable] s3) as [[[]|err] s4]; simpl in Hdis;
    [eauto | done]
  end.
Qed.

(** ** The loop body, step by step *)

(** A loop body that returned went through the two steps. *)
Lemma enrich_steps networkRecord (element element' : ImageElement.t)
    (s s' : PassState B) :
  enrich networkRecord element s = (Resolved element', s') ->
  exists element1 s1,
    RulesStep element s element1 s1 /\ ProbeStep element1 s1 element' s'.
Proof.
  assert (Htruthy : truthy_object networkRecord = true) by (by destruct networkRecord).
  unfold enrich, RulesStep, ProbeStep, mbind, Async_bind, async_bind, mret, Async_ret,
    async_ret.
  fold (wants_rules element). destruct (wants_rules element).
  - destruct (fetchSourceRules _ _ _) as [[element1|err] s1] eqn:E1; [|discriminate].
    fold (wants_probe element1). rewrite Htruthy, andb_true_r.
    intros E2. exists element1, s1. split; [done|].
    destruct (wants_probe element1); [done|]. by injection E2 as <- <-.
  - fold (wants_probe element). rewrite Htruthy, andb_true_r.
    intros E2. exists element, s. split; [done|].
    destruct (wants_probe element); [done|]. by injection E2 as <- <-.
Qed.

(** The first step issues the node lookup of the element, where the test of
    line 347 asks for it, and no other lookup. *)
Lemma RulesStep_lookups e (s : PassState B) e1 s1 :
  RulesStep e s e1 s1 ->
  lookups (calls s1)
  = lookups (calls s)
    ++ (if wants_rules e then [devtoolsNodePath (ImageElement.node e)] else []).
Proof.
  unfold RulesStep. destruct (wants_rules e).
  - intros E.
    destruct (fetchSourceRules_calls (devtoolsNodePath (ImageElement.node e)) e s)
      as (issued & Hc & Hshape).
    rewrite E in Hc. simpl in Hc. rewrite Hc, lookups_app.
    by destruct Hshape as [->|[nodeId ->]].
  - intros [_ ->]. by rewrite app_nil_r.
Qed.

Lemma ProbeStep_lookups e1 (s1 : PassState B) e' s2 :
  ProbeStep e1 s1 e' s2 -> lookups (calls s2) = lookups (calls s1).
Proof.
  unfold ProbeStep. destruct (wants_probe e1).
  - intros E. pose proof (fetchElementWithSizeInformation_calls e1 s1) as Hc.
    rewrite E in Hc. simpl in Hc. rewrite Hc, lookups_app. apply app_nil_r.
  - by intros [_ ->].
Qed.

(** What the first step writes when both of its calls resolve: the
    effective rules of the styles the browser returned. *)
Lemma RulesStep_styles e (s : PassState B) e1 s1 nodeId b1 m b2 :
  RulesStep e s e1 s1 ->
  wants_rules e = true ->
  pushNodeByPathToFrontend (devtoolsNodePath (ImageElement.node e)) (browser s)
    = (Resolved nodeId, b1) ->
  nodeId <> 0 ->
  getMatchedStylesForNode nodeId b1 = (Resolved m, b2) ->
  e1 = ImageElement.set_css
         (null_to_undefined (getEffectiveSizingRule m "width"))
         (null_to_undefined (getEffectiveSizingRule m "height"))
         {| width := getEffectiveSizingRule m "width";
            height := getEffectiveSizingRule m "height" |} e.
Proof.
  unfold RulesStep. intros Hstep Hwants Hpush Hid Hstyles. rewrite Hwants in Hstep.
  unfold fetchSourceRules in Hstep. unfold_async. simpl in Hstep.
  rewrite Hpush in Hstep. simpl in Hstep.
  rewrite (proj2 (Z.eqb_neq _ _) Hid) in Hstep. simpl in Hstep.
  rewrite Hstyles in Hstep. simpl in Hstep. by injection Hstep as <- _.
Qed.

(** What the second step writes when its probe resolves: the decoded size,
    on the element and in the cache. *)
Lemma ProbeStep_size e1 (s1 : PassState B) e' s2 size b :
  ProbeStep e1 s1 e' s2 ->
  wants_probe e1 = true ->
  determineNaturalSize (ImageElement.src e1) (browser s1) = (Resolved size, b) ->
  e' = assign size e1
  /\ _naturalSizeCache s2 !! ImageElement.src e1 = Some size.
Proof.
  unfold ProbeStep. intros Hstep Hwants Hprobe. rewrite Hwants in Hstep.
  destruct (fetchElementWithSizeInformation_cases e1 s1)
    as (e2 & Hr & _ & _ & _ & _ & _ & Hok & _).
  cbv zeta in Hr, Hok. rewrite Hstep in Hr, Hok. simpl in Hr, Hok.
  injection Hr as <-. destruct (Hok size b Hprobe) as (He & Hcache & _). by split.
Qed.

(** The first step leaves the fields of the scan and the natural size. *)
Lemma RulesStep_scanned_fields e (s : PassState B) e1 s1 :
  RulesStep e s e1 s1 ->
  same_scanned_fields e e1
  /\ ImageElement.naturalWidth e1 = ImageElement.naturalWidth e
  /\ ImageElement.naturalHeight e1 = ImageElement.naturalHeight e.
Proof.
  unfold RulesStep. destruct (wants_rules e).
  - intros E.
    destruct (proj2 (proj2 (fetchSourceRules_cases
                              (devtoolsNodePath (ImageElement.node e)) e s)) e1)
      as (Hf & _ & Hw & Hh & _); [by rewrite E | done].
  - intros [-> _]. split; [apply same_scanned_fields_refl | done].
Qed.

(** ** The loop *)

Variable indexed : gmap string NetworkRequest.t.

(** The loop enriches its first [budget] elements one after the other,
    each from the state the one before left, and gives the others back
    with their MIME type attached. *)
Lemma enrichLoop_Enriched budget i skippedCount elements (s s' : PassState B)
    out skippedCount' :
  enrichLoop indexed budget i skippedCount elements s
    = (Resolved (out, skippedCount'), s') ->
  Enriched indexed (take (budget - i) elements) s (take (budget - i) out) s'
  /\ drop (budget - i) out = List.map (attach indexed) (drop (budget - i) elements).
Proof.
  revert i skippedCount s out skippedCount'.
  induction elements as [|e rest IH]; intros i sk s out sk'.
  - simpl. intros [= <- _ <-]. rewrite !take_nil, !drop_nil. split; [constructor | done].
  - destruct (decide (budget <= i)%nat) as [Hle|Hgt].
    + rewrite enrichLoop_skip_all by done. intros [= <- _ <-].
      replace (budget - i)%nat with 0%nat by lia. rewrite !take_0, !drop_0.
      split; [constructor | done].
    + rewrite enrichLoop_cons. unfold reachedGatheringBudget.
      rewrite (proj2 (Nat.leb_gt _ _)) by lia.
      destruct (enrich _ _ s) as [[e'|err] s1] eqn:E1; [|discriminate].
      destruct (enrichLoop _ _ _ _ rest s1) as [[[out1 sk1]|err] s2] eqn:E2;
        [|discriminate].
      intros [= <- _ <-]. simpl.
      apply enrich_steps in E1 as (e1 & sm & Hrules & Hprobe).
      apply IH in E2 as [Hen Hdrop].
      replace (budget - i)%nat with (S (budget - S i)) by lia. simpl.
      split; [by econstructor | done].
Qed.

(** The node lookups of an enrichment: one for each element that is
    neither in a shadow tree nor a CSS background, in order. *)
Lemma Enriched_lookups elements (s : PassState B) out s' :
  Enriched indexed elements s out s' ->
  lookups (calls s')
  = lookups (calls s)
    ++ List.map (fun e => devtoolsNodePath (ImageElement.node e))
         (List.filter wants_rules elements).
Proof.
  induction 1 as [s|element rest s element1 s1 element' s2 out s3 Hrules Hprobe _ IH].
  - simpl. by rewrite app_nil_r.
  - apply RulesStep_lookups in Hrules. apply ProbeStep_lookups in Hprobe.
    rewrite IH, Hprobe, Hrules. simpl List.filter.
    change (wants_rules (attach indexed element)) with (wants_rules element).
    destruct (wants_rules element); simpl; by rewrite <- app_assoc.
Qed.

(** Position by position: what a completed loop returns at a position is
    the element it was given there, with the fields of the scan untouched
    and the MIME type the index holds for its [src]. *)
Lemma enrichLoop_positions budget elements (s s' : PassState B) out skippedCount' :
  enrichLoop indexed budget 0 0 elements s = (Resolved (out, skippedCount'), s') ->
  forall j element',
    out !! j = Some element' ->
    exists element,
      elements !! j = Some element
      /\ same_scanned_fields element element'
      /\ ImageElement.mimeType element'
         = NetworkRequest.mimeType <$> indexed !! ImageElement.src element.
Proof.
  intros Hloop j element' Hj.
  apply enrichLoop_resolved in Hloop as (Hlen & _ & Hel).
  destruct (lookup_lt_is_Some_2 elements j) as [element Helement].
  { rewrite <- Hlen. by eapply lookup_lt_Some. }
  destruct (Hel j element Helement) as (e' & He' & Hskip & Hdone & _).
  assert (e' = element') as -> by congruence.
  exists element. split; [done|].
  destruct (decide (budget <= j)%nat) as [Hle|Hlt].
  - rewrite Hskip by lia. split; [apply attach_scanned_fields | apply mimeTypeOf_lookup].
  - destruct Hdone as (sj & sj' & Henrich); [lia|].
    apply enrich_frame in Henrich as (Hf & Hm & _). split.
    + eapply same_scanned_fields_trans; [apply attach_scanned_fields | exact Hf].
    + rewrite Hm. apply mimeTypeOf_lookup.
Qed.

End EverySort.

(** ** The budget *)

(** C4, as stated, fails on the code: a pass has no output, and reports no
    skipped count, when a protocol error ends it. Here the deadline fires
    after the first of two sorted elements has begun enrichment, and the
    node lookup of that element is rejected with a message that
    [fetchSourceRules] rethrows. *)
Lemma aborted_pass_returns_no_element :
  let networkRecords :=
    [Examples.record Examples.a_png "image/png" true 200 5000; Examples.record_b] in
  let b := Examples.page [Examples.img_a; Examples.div_b] (Some "Target closed") in
  let r := @afterPass Examples.bySelectorCount _ Examples.scriptedDriver
             1 networkRecords (initialState b) in
  r.1 = Rejected {| message := "Target closed" |}
  /\ warnings r.2 = []
  /\ calls r.2 = [Evaluate_collectImageElementInfo; DOM_enable; CSS_enable;
                  DOM_getDocument; DOM_pushNodeByPathToFrontend "1,HTML,1,BODY,0,IMG"].
Proof. vm_compute. split; [|split]; reflexivity. Qed.

(** C4, amended to the passes that return. Let the deadline fire after
    [budget] of the [N] sorted elements have begun enrichment, [sort] being
    any sort, which reorders the [N] scanned elements. A pass that returns,
    as it does whenever the driver is dependable, returns [N] elements, in
    sorted order, and logs one warning, which reports [N - budget] skipped
    out of [N]. Each returned element carries the MIME type of the network
    record indexed under its [src], if there is one. The elements from
    position [budget] on are returned as scanned but for the MIME type. The
    first [budget] elements are enriched one after the other, each through
    [fetchSourceRules] and [fetchElementWithSizeInformation] where the loop
    body asks for them, between the three commands before the loop and the
    two after it: the node lookups and the probes of the pass are those of
    the first [budget] sorted elements, in order, and of no other element.
    Where the lookup and the styles query of an element resolve, the element
    gets the effective rules of the matched styles; where the probe
    resolves, it gets the decoded size. *)
Theorem budget_degradation `{SelectorSpecificity} `{Driver B}
    (sort : SortFunction) (budget : nat) (networkRecords : list NetworkRequest.t)
    (s : PassState B) (allElements : list Dom.Element) (b0 : B) :
  Reorders sort ->
  elementsInDocument (browser s) = (Resolved allElements, b0) ->
  let indexed := indexNetworkRecords networkRecords in
  let sorted := sort (compareElements indexed) (collectImageElementInfo allElements) in
  let N := length sorted in
  (budget <= N)%nat ->
  N = length (collectImageElementInfo allElements)
  /\ (Dependable B ->
      exists out, (afterPassSortedBy sort budget networkRecords s).1 = Resolved out)
  /\ (forall out s',
        afterPassSortedBy sort budget networkRecords s = (Resolved out, s') ->
        length out = N
        /\ warnings s' = warnings s ++ [{| skipped := N - budget; total := N |}]
        /\ (forall j element',
              out !! j = Some element' ->
              exists element,
                sorted !! j = Some element
                /\ ImageElement.src element' = ImageElement.src element
                /\ ImageElement.mimeType element'
                   = NetworkRequest.mimeType <$> indexed !! ImageElement.src element)
        /\ drop budget out = List.map (attach indexed) (drop budget sorted)
        /\ (exists s0 s1 s2 : PassState B,
              issue Evaluate_collectImageElementInfo elementsInDocument s
                = (Resolved allElements, s0)
              /\ sendAll [DOM_enable; CSS_enable; DOM_getDocument] s0 = (Resolved tt, s1)
              /\ Enriched indexed (take budget sorted) s1 (take budget out) s2
              /\ sendAll [DOM_disable; CSS_disable]
                   (log_warn {| skipped := N - budget; total := N |} s2).2
                 = (Resolved tt, s'))
        /\ lookups (calls s')
           = lookups (calls s)
             ++ List.map (fun e => devtoolsNodePath (ImageElement.node e))
                  (List.filter wants_rules (take budget sorted))
        /\ probes (calls s')
           = probes (calls s)
             ++ List.map ImageElement.src
                  (List.filter wants_probe (take budget sorted)))
  /\ (forall e (s0 : PassState B) e1 s1 nodeId b1 m b2,
        RulesStep e s0 e1 s1 ->
        wants_rules e = true ->
        pushNodeByPathToFrontend (devtoolsNodePath (ImageElement.node e)) (browser s0)
          = (Resolved nodeId, b1) ->
        nodeId <> 0 ->
        getMatchedStylesForNode nodeId b1 = (Resolved m, b2) ->
        e1 = ImageElement.set_css
               (null_to_undefined (getEffectiveSizingRule m "width"))
               (null_to_undefined (getEffectiveSizingRule m "height"))
               {| width := getEffectiveSizingRule m "width";
                  height := getEffectiveSizingRule m "height" |} e)
  /\ (forall e1 (s1 : PassState B) e' s2 size b,
        ProbeStep e1 s1 e' s2 ->
        wants_probe e1 = true ->
        determineNaturalSize (ImageElement.src e1) (browser s1) = (Resolved size, b) ->
        e' = assign size e1
        /\ _naturalSizeCache s2 !! ImageElement.src e1 = Some size).
Proof.
  intros Hsort Hscan indexed sorted N Hbudget.
  split; [apply Permutation_length, Hsort|].
  split; [apply afterPassSortedBy_resolves|].
  split; [|split; [apply RulesStep_styles | apply ProbeStep_size]].
  intros out s' Hpass.
  apply afterPassSortedBy_phases in Hpass
    as (allElements' & s0 & s1 & sk & s2 & Hissue & Henable & Hloop & Hdisable).
  assert (allElements' = allElements) as ->.
  { unfold issue in Hissue. rewrite Hscan in Hissue. by injection Hissue as <- _. }
  fold indexed sorted in Hloop, Hdisable. fold N in Hdisable.
  unfold reachedGatheringBudget in Hdisable.
  rewrite (proj2 (Nat.leb_le _ _) Hbudget) in Hdisable.
  assert (Hs0 : calls s0 = calls s ++ [Evaluate_collectImageElementInfo]
                /\ warnings s0 = warnings s).
  { unfold issue in Hissue. rewrite Hscan in Hissue. by injection Hissue as <-. }
  destruct Hs0 as [Hc0 Hw0].
  pose proof (sendAll_calls [DOM_enable; CSS_enable; DOM_getDocument] s0) as Hc1.
  pose proof (sendAll_warnings [DOM_enable; CSS_enable; DOM_getDocument] s0) as Hw1.
  rewrite Henable in Hc1, Hw1. simpl in Hc1, Hw1.
  pose proof (sendAll_calls [DOM_disable; CSS_disable]
                (log_warn {| skipped := sk; total := length out |} s2).2) as Hc'.
  pose proof (sendAll_warnings [DOM_disable; CSS_disable]
                (log_warn {| skipped := sk; total := length out |} s2).2) as Hw'.
  rewrite Hdisable in Hc', Hw'. simpl in Hc', Hw'.
  pose proof (enrichLoop_warnings indexed budget 0 0 sorted s1) as Hw2.
  rewrite Hloop in Hw2. simpl in Hw2.
  pose proof (enrichLoop_positions _ _ _ _ _ _ _ Hloop) as Hpos.
  pose proof (enrichLoop_probes _ _ _ _ _ _ _ _ Hloop) as [Hp _].
  pose proof (enrichLoop_Enriched _ _ _ _ _ _ _ _ _ Hloop) as [Hen Hdrop].
  rewrite Nat.sub_0_r in Hp, Hen, Hdrop.
  pose proof (Enriched_lookups _ _ _ _ _ Hen) as Hl.
  apply enrichLoop_resolved in Hloop as (Hlen & Hsk & _).
  assert (Hcount : sk = (N - budget)%nat) by (unfold N; lia).
  fold N in Hlen. rewrite Hcount, Hlen in Hdisable, Hw'.
  split; [done|]. split; [by rewrite Hw', Hw2, Hw1, Hw0|].
  split.
  { intros j element' Hj. destruct (Hpos j element' Hj) as (e & He & (Hsrc & _) & Hm).
    eauto. }
  split; [done|]. split; [by exists s0, s1, s2|]. split.
  - rewrite Hc', lookups_app, Hl, Hc1, lookups_app, Hc0, lookups_app.
    change (lookups [DOM_disable; CSS_disable]) with (@nil string).
    change (lookups [DOM_enable; CSS_enable; DOM_getDocument]) with (@nil string).
    change (lookups [Evaluate_collectImageElementInfo]) with (@nil string).
    by rewrite !app_nil_r.
  - rewrite Hc', probes_app, Hp, Hc1, probes_app, Hc0, probes_app.
    change (probes [DOM_disable; CSS_disable]) with (@nil string).
    change (probes [DOM_enable; CSS_enable; DOM_getDocument]) with (@nil string).
    change (probes [Evaluate_collectImageElementInfo]) with (@nil string).
    by rewrite !app_nil_r.
Qed.

Lemma budget_degradation_witness :
  let b := Examples.page [Examples.img_a; Examples.div_b; Examples.div_b'] None in
  let r := Examples.run 1 b in
  exists out,
    r.1 = Resolved out
    /\ length out = 3%nat
    /\ warnings r.2 = [] ++ [{| skipped := 3 - 1; total := 3 |}]
    /\ drop 1 out
       = [attach (indexNetworkRecords Examples.networkRecords)
            (cssImage Examples.div_b' Examples.b_jpg);
          attach (indexNetworkRecords Examples.networkRecords) Examples.element_a]
    /\ lookups (calls r.2) = []
    /\ probes (calls r.2) = [Examples.b_jpg].
Proof.
  intros b r.
  pose (out := match r.1 with Resolved out => out | Rejected _ => [] end).
  exists out. split; [vm_compute; reflexivity|].
  assert (Hscan : elementsInDocument (Driver := Examples.scriptedDriver)
                    (browser (initialState b))
                  = (Resolved (Examples.document b), b)) by reflexivity.
  assert (Hbudget : (1 <= length (Array_sort
                                    (compareElements
                                       (indexNetworkRecords Examples.networkRecords))
                                    (collectImageElementInfo (Examples.document b))))%nat).
  { vm_compute. lia. }
  destruct (@budget_degradation Examples.bySelectorCount _ Examples.scriptedDriver
              Array_sort 1%nat Examples.networkRecords (initialState b)
              (Examples.document b) b Array_sort_Reorders Hscan Hbudget)
    as (_ & _ & Hpass & _).
  destruct (Hpass out r.2) as (Hlen & Hwarn & _ & Hdrop & _ & Hlookups & Hprobes).
  { vm_compute. reflexivity. }
  split; [exact Hlen|]. split; [exact Hwarn|]. split; [exact Hdrop|].
  split; [exact Hlookups | exact Hprobes].
Defined.

(** ** What a returned pass has done to the scanned fields *)

(** X11. A pass returns the elements of the scan in the order the sort
    gave them, whatever that order is: position by position, each returned
    element has every field the scan wrote, from [src] to the node
    reference, as the scan wrote it, and its [mimeType] is that of the
    network record indexed under its [src], [undefined] when there is none.
    So every returned element is a scanned element in these fields, and the
    [src]s returned are those scanned, reordered. *)
Theorem returned_elements_keep_scanned_fields `{SelectorSpecificity} `{Driver B}
    (sort : SortFunction) budget networkRecords (s s' : PassState B) out
    allElements b0 :
  Reorders sort ->
  elementsInDocument (browser s) = (Resolved allElements, b0) ->
  afterPassSortedBy sort budget networkRecords s = (Resolved out, s') ->
  let indexed := indexNetworkRecords networkRecords in
  let sorted := sort (compareElements indexed) (collectImageElementInfo allElements) in
  length out = length (collectImageElementInfo allElements)
  /\ (forall j element',
        out !! j = Some element' ->
        exists element,
          sorted !! j = Some element
          /\ same_scanned_fields element element'
          /\ ImageElement.mimeType element'
             = NetworkRequest.mimeType <$> indexed !! ImageElement.src element)
  /\ (forall element',
        element' ∈ out ->
        exists element,
          element ∈ collectImageElementInfo allElements
          /\ same_scanned_fields element element'
          /\ ImageElement.mimeType element'
             = NetworkRequest.mimeType <$> indexed !! ImageElement.src element)
  /\ List.map ImageElement.src out
     ≡ₚ List.map ImageElement.src (collectImageElementInfo allElements).
Proof.
  intros Hsort Hscan Hpass indexed sorted.
  apply afterPassSortedBy_inv in Hpass
    as (allElements' & b0' & s1 & sk & s2 & Hscan' & _ & _ & _ & Hloop & _).
  assert (allElements' = allElements) as -> by congruence.
  fold indexed sorted in Hloop.
  pose proof (enrichLoop_positions _ _ _ _ _ _ _ Hloop) as Hper.
  apply enrichLoop_resolved in Hloop as (Hlen & _ & _).
  split; [|split; [exact Hper|split]].
  - rewrite Hlen. apply Permutation_length, Hsort.
  - intros element' Hin. apply list_elem_of_lookup in Hin as [j Hj].
    destruct (Hper j element' Hj) as (e & He & Hf & Hm).
    exists e. split; [|done].
    apply list_elem_of_lookup_2 in He. unfold sorted in He.
    by rewrite (Hsort _ (collectImageElementInfo allElements)) in He.
  - assert (Hsrc : List.map ImageElement.src out = List.map ImageElement.src sorted).
    { apply list_eq. intros j. rewrite !list_lookup_fmap.
      destruct (out !! j) as [e'|] eqn:Ej.
      - destruct (Hper j e' Ej) as (e & -> & (Hs & _) & _). simpl. by rewrite Hs.
      - apply lookup_ge_None in Ej. rewrite Hlen in Ej.
        apply lookup_ge_None in Ej. by rewrite Ej. }
    rewrite Hsrc. apply Permutation_map, Hsort.
Qed.

Lemma returned_elements_keep_scanned_fields_witness :
  let b := Examples.page [Examples.img_a; Examples.div_b] None in
  let r := Examples.run 5 b in
  let out := match r.1 with Resolved out => out | Rejected _ => [] end in
  length out = length (collectImageElementInfo (Examples.document b))
  /\ List.map ImageElement.src out
     ≡ₚ List.map ImageElement.src (collectImageElementInfo (Examples.document b)).
Proof.
  intros b r out.
  destruct (@returned_elements_keep_scanned_fields Examples.bySelectorCount _
              Examples.scriptedDriver Array_sort 5%nat Examples.networkRecords
              (initialState b) r.2 out (Examples.document b) b)
    as (Hlen & _ & _ & Hperm).
  - exact Array_sort_Reorders.
  - reflexivity.
  - vm_compute. reflexivity.
  - split; [exact Hlen | exact Hperm].
Defined.

(** ** The probes and the cache, whatever the order *)

(** X14. The probes of a returned pass are, in the order the sort gave,
    one for each of the elements that began enrichment and are a picture
    child, a CSS background or bear a [srcset], each for that element's
    [src]: one probe per such element, whether or not its URL has a network
    record or was probed before. When the timer does not fire before the
    last element, these are the [src]s of all such scanned elements, in
    some order. *)
Theorem probes_of_returned_pass `{SelectorSpecificity} `{Driver B}
    (sort : SortFunction) budget networkRecords (s s' : PassState B) out
    allElements b0 :
  Reorders sort ->
  elementsInDocument (browser s) = (Resolved allElements, b0) ->
  afterPassSortedBy sort budget networkRecords s = (Resolved out, s') ->
  let sorted := sort (compareElements (indexNetworkRecords networkRecords))
                  (collectImageElementInfo allElements) in
  let issued := List.map ImageElement.src (List.filter wants_probe (take budget sorted)) in
  probes (calls s') = probes (calls s) ++ issued
  /\ ((length (collectImageElementInfo allElements) <= budget)%nat ->
      issued ≡ₚ List.map ImageElement.src
                  (List.filter wants_probe (collectImageElementInfo allElements))).
Proof.
  intros Hsort Hscan Hpass sorted issued.
  apply afterPassSortedBy_inv in Hpass
    as (allElements' & b0' & s1 & sk & s2 & Hscan' & Hc1 & _ & _ & Hloop & Hc' & _).
  assert (allElements' = allElements) as -> by congruence.
  apply enrichLoop_probes in Hloop as [Hp _]. rewrite Nat.sub_0_r in Hp.
  split.
  - rewrite Hc', probes_app, Hp, Hc1, probes_app.
    change (probes [DOM_disable; CSS_disable]) with (@nil string).
    change (probes [Evaluate_collectImageElementInfo; DOM_enable; CSS_enable;
                    DOM_getDocument]) with (@nil string).
    by rewrite !app_nil_r.
  - intros Hall. unfold issued. rewrite take_ge.
    + apply Permutation_map, List_filter_Permutation, Hsort.
    + etransitivity; [|exact Hall]. apply Nat.eq_le_incl, Permutation_length, Hsort.
Qed.

Lemma probes_of_returned_pass_witness :
  probes (calls (Examples.run 5
                   (Examples.page [Examples.img_a; Examples.div_b; Examples.div_b']
                      None)).2)
  = [] ++ [Examples.b_jpg; Examples.b_jpg].
Proof.
  pose (b := Examples.page [Examples.img_a; Examples.div_b; Examples.div_b'] None).
  pose (r := Examples.run 5 b).
  apply (proj1 (@probes_of_returned_pass Examples.bySelectorCount _
                  Examples.scriptedDriver Array_sort 5%nat Examples.networkRecords
                  (initialState b) r.2
                  (match r.1 with Resolved out => out | Rejected _ => [] end)
                  (Examples.document b) b Array_sort_Reorders eq_refl
                  ltac:(vm_compute; reflexivity))).
Defined.

(** X15. A returned pass loses no cache entry, and leaves the entry of
    every URL it did not probe as it was: the entries that can differ are
    those of the [src]s of the elements that began enrichment and are a
    picture child, a CSS background or bear a [srcset], whatever order the
    sort gave; in particular the entry of a URL that no such scanned
    element shows is as before. *)
Theorem cache_of_returned_pass `{SelectorSpecificity} `{Driver B}
    (sort : SortFunction) budget networkRecords (s s' : PassState B) out
    allElements b0 :
  Reorders sort ->
  elementsInDocument (browser s) = (Resolved allElements, b0) ->
  afterPassSortedBy sort budget networkRecords s = (Resolved out, s') ->
  let sorted := sort (compareElements (indexNetworkRecords networkRecords))
                  (collectImageElementInfo allElements) in
  cache_grows
    (List.map ImageElement.src (List.filter wants_probe (take budget sorted)))
    (_naturalSizeCache s) (_naturalSizeCache s')
  /\ cache_grows
       (List.map ImageElement.src
          (List.filter wants_probe (collectImageElementInfo allElements)))
       (_naturalSizeCache s) (_naturalSizeCache s').
Proof.
  intros Hsort Hscan Hpass sorted.
  apply afterPassSortedBy_inv in Hpass
    as (allElements' & b0' & s1 & sk & s2 & Hscan' & _ & _ & Hk1 & Hloop & _ & Hk' & _).
  assert (allElements' = allElements) as -> by congruence.
  apply enrichLoop_probes in Hloop as [_ Hk2]. rewrite Nat.sub_0_r in Hk2.
  rewrite Hk1, <- Hk' in Hk2. split; [exact Hk2|].
  eapply cache_grows_weaken; [|exact Hk2].
  intros u Hu. apply list_elem_of_fmap in Hu as (e & -> & He).
  apply list_elem_of_fmap. exists e. split; [done|].
  apply list_elem_of_In, List.filter_In in He as [He Hwants].
  apply list_elem_of_In, List.filter_In. split; [|done].
  apply list_elem_of_In. apply list_elem_of_In in He.
  apply elem_of_take in He as (j & He & _).
  apply list_elem_of_lookup_2 in He. unfold sorted in He.
  by rewrite (Hsort _ (collectImageElementInfo allElements)) in He.
Qed.

Lemma cache_of_returned_pass_witness :
  let b := Examples.page [Examples.img_a; Examples.div_b] None in
  cache_grows
    (List.map ImageElement.src
       (List.filter wants_probe (collectImageElementInfo (Examples.document b))))
    ∅ (_naturalSizeCache (Examples.run 5 b).2).
Proof.
  intros b. pose (r := Examples.run 5 b).
  apply (proj2 (@cache_of_returned_pass Examples.bySelectorCount _
                  Examples.scriptedDriver Array_sort 5%nat Examples.networkRecords
                  (initialState b) r.2
                  (match r.1 with Resolved out => out | Rejected _ => [] end)
                  (Examples.document b) b Array_sort_Reorders eq_refl
                  ltac:(vm_compute; reflexivity))).
Defined.

(** ** The scan, element by element *)

(** C8: the scan reports every [img] element of the document, one record
    each and no other, as an image that is not a CSS image and carries the
    element's node details and current source. If the element has an empty
    [srcset] and no [picture] parent, the natural width and height of its
    record are those of the live element, and the loop body never calls the
    probe for it: it issues no probe. If the element has a [srcset] or a
    [picture] parent, the scan leaves both unset, and a loop body that
    returns has handed the element, its natural size still unset, to
    [fetchElementWithSizeInformation]. *)
Theorem scan_natural_size (allElements : list Dom.Element) :
  (forall element,
      element ∈ allElements ->
      Dom.localName element = "img" ->
      exists image,
        image ∈ getHTMLImages allElements
        /\ image ∈ collectImageElementInfo allElements
        /\ ImageElement.isCss image = false
        /\ ImageElement.node image = Dom.nodeDetails element
        /\ ImageElement.src image = Dom.currentSrc element
        /\ ImageElement.srcset image = Dom.srcset element
        /\ (ImageElement.isPicture image = true <-> InPicture element)
        /\ (Dom.srcset element = "" -> ~ InPicture element ->
            ImageElement.naturalWidth image = Some (Dom.naturalWidth element)
            /\ ImageElement.naturalHeight image = Some (Dom.naturalHeight element)
            /\ forall `(SelectorSpecificity) `(Driver B) indexedNetworkRecords
                 (s : PassState B),
                 let r := enrich (lookupOrEmpty indexedNetworkRecords
                                    (ImageElement.src image))
                            (attach indexedNetworkRecords image) s in
                 r = (if negb (ImageElement.isInShadowDOM image)
                      then fetchSourceRules (devtoolsNodePath (ImageElement.node image))
                             (attach indexedNetworkRecords image) s
                      else (Resolved (attach indexedNetworkRecords image), s))
                 /\ probes (calls r.2) = probes (calls s))
        /\ (Dom.srcset element <> "" \/ InPicture element ->
            ImageElement.naturalWidth image = None
            /\ ImageElement.naturalHeight image = None
            /\ forall `(SelectorSpecificity) `(Driver B) indexedNetworkRecords
                 (s s' : PassState B) element',
                 enrich (lookupOrEmpty indexedNetworkRecords (ImageElement.src image))
                   (attach indexedNetworkRecords image) s
                 = (Resolved element', s') ->
                 exists element1 s1,
                   RulesStep (attach indexedNetworkRecords image) s element1 s1
                   /\ ImageElement.naturalWidth element1 = None
                   /\ ImageElement.naturalHeight element1 = None
                   /\ fetchElementWithSizeInformation element1 s1
                      = (Resolved element', s')))
  /\ (forall image,
        image ∈ getHTMLImages allElements ->
        exists element,
          element ∈ allElements
          /\ Dom.localName element = "img"
          /\ image = htmlImage element)
  /\ length (getHTMLImages allElements)
     = length (List.filter (fun element => String.eqb (Dom.localName element) "img")
                 allElements).
Proof.
  split; [|split].
  - intros element Hin Himg. exists (htmlImage element).
    assert (Hscan : htmlImage element ∈ getHTMLImages allElements).
    { apply getHTMLImages_spec. eauto. }
    split; [done|]. split.
    { unfold collectImageElementInfo. apply elem_of_app. by left. }
    do 4 (split; [done|]). split; [apply parentIsPicture_spec|]. split.
    + intros Hsrcset Hpicture.
      assert (Hp : parentIsPicture element = false).
      { destruct (parentIsPicture element) eqn:E; [|done].
        by apply parentIsPicture_spec in E. }
      simpl. rewrite Hp, Hsrcset. simpl. do 2 (split; [done|]).
      intros Hspec B Hdriver indexedNetworkRecords s. cbv zeta.
      rewrite enrich_skips_probe by (simpl; by rewrite ?Hp, ?Hsrcset).
      split; [done|]. simpl. destruct (negb _); [|done].
      destruct (fetchSourceRules_calls
                  (devtoolsNodePath (Dom.nodeDetails element))
                  (attach indexedNetworkRecords (htmlImage element)) s)
        as (issued & Hc & Hshape).
      simpl in Hc. rewrite Hc. unfold probes. rewrite omap_app.
      destruct Hshape as [->|[nodeId ->]]; simpl; apply app_nil_r.
    + intros Huntrusted.
      assert (Hflag : negb (parentIsPicture element)
                      && negb (Str.truthy (Dom.srcset element)) = false).
      { destruct Huntrusted as [Hs|Hp].
        - apply truthy_spec in Hs. rewrite Hs. apply andb_false_r.
        - apply parentIsPicture_spec in Hp. by rewrite Hp. }
      simpl. rewrite Hflag. do 2 (split; [done|]).
      intros Hspec B Hdriver indexedNetworkRecords s s' element' Henrich.
      apply enrich_steps in Henrich as (element1 & s1 & Hrules & Hprobe).
      exists element1, s1. split; [done|].
      apply RulesStep_scanned_fields in Hrules as Hkept.
      destruct Hkept as (Hf & Hw & Hh).
      split; [rewrite Hw; simpl; by rewrite Hflag|].
      split; [rewrite Hh; simpl; by rewrite Hflag|].
      unfold ProbeStep in Hprobe.
      assert (wants_probe element1 = true) as Hwants; [|by rewrite Hwants in Hprobe].
      destruct Hf as (_ & Hsrcset & _ & _ & _ & _ & _ & _ & Hcss & Hpic & _).
      unfold wants_probe. rewrite Hsrcset, Hcss, Hpic. simpl.
      destruct (parentIsPicture element); [done|]. simpl.
      by destruct (Str.truthy (Dom.srcset element)).
  - intros image Himage. by apply getHTMLImages_spec.
  - unfold getHTMLImages. apply length_map.
Qed.

Lemma scan_natural_size_witness :
  exists image,
    image ∈ getHTMLImages [Examples.img_a; Examples.div_b]
    /\ ImageElement.naturalWidth image = Some 40
    /\ ImageElement.naturalHeight image = Some 30.
Proof.
  destruct (proj1 (scan_natural_size [Examples.img_a; Examples.div_b])
              Examples.img_a) as (image & Hin & _ & _ & _ & _ & _ & _ & Htrusted & _).
  - left.
  - reflexivity.
  - exists image. split; [exact Hin|].
    destruct Htrusted as (Hw & Hh & _).
    + reflexivity.
    + intros (parent & Hparent & Htag). injection Hparent as <-. discriminate.
    + split; [exact Hw | exact Hh].
Defined.
